(** * gopl.io exercise 12.10: the S-expression decoder [ch12/ex10/decode.go]

    A shallow embedding of package [sexpr] (functions [Unmarshal], [read],
    [readList], [asType], [endList] and the lexer methods [next], [text],
    [consume]) together with the parts of Go's [strconv], [strings],
    [text/scanner] and [reflect] packages the decoder calls, followed by
    theorems about the decoder.  The stream interface ([NewDecoder],
    [Decoder.Decode], [Decoder.Token]) is embedded as well.

    Conventions.
    - A Go [string] is a Rocq [string]: a sequence of bytes.
    - The platform is a 64-bit one: Go's [int] and [uintptr] have 64 bits;
      values are kept in [Z].
    - Memory is not bounded: an allocation ([reflect.New], [reflect.Zero],
      [reflect.Append], [reflect.MakeMap]) always succeeds, where the Go
      runtime dies with a fatal error when the memory is not there.
    - A [float64] is kept as the literal it was parsed from; what number
      the literal stands for is not computed.  Where two float64 values
      would have to be compared, as keys of a map, the statements below
      leave them out.
    - A struct type has named fields only: embedded fields, whose own
      fields [FieldByName] would find as well, are not modelled.
    - The input of [Unmarshal] is given as the tokens [text/scanner]
      delivers for it (class and source text of each).
    - A panic is a value of type [panic]; code that may panic returns a
      [result].  [Unmarshal]'s deferred [recover] turns the panic into the
      returned error, so [Panic p] at [Unmarshal] is "err != nil".  What a
      failed call leaves in the destination is not recorded.
    - A [reflect.Value] destination is passed as the value currently stored
      in the variable it refers to; [read] returns the value stored there
      afterwards.  The loops of [readList] are functions over the function
      making its recursive [read] calls, and [read] ties the knot. *)

From Stdlib Require Import ZArith List String Ascii Bool Lia Arith.
From Stdlib Require Import Permutation.
Import ListNotations.

#[local] Set Warnings "-register-all".

Local Open Scope string_scope.
Local Open Scope Z_scope.

(* ================================================================== *)
(** ** Bytes and runes *)

Definition byte_val (c : ascii) : Z := Z.of_N (N_of_ascii c).
Definition byte_of (z : Z) : ascii := ascii_of_N (Z.to_N z).

Definition dquote : ascii := "034"%char.
Definition squote : ascii := "039"%char.
Definition bquote : ascii := "096"%char.
Definition bslash : ascii := "092"%char.
Definition newline : ascii := "010"%char.
Definition creturn : ascii := "013"%char.

(** [quoted s] is the source text of the interpreted string literal whose
    content is [s] (for contents that need no escaping). *)
Definition quoted (s : string) : string :=
  String dquote (s ++ String dquote EmptyString).

(* ================================================================== *)
(** ** Package [strings] *)

Module strings.

Definition HasPrefix (s prefix : string) : bool := String.prefix prefix s.

Fixpoint IndexByte (s : string) (c : ascii) : option nat :=
  match s with
  | EmptyString => None
  | String a s' =>
      if Ascii.eqb a c then Some O else option_map S (IndexByte s' c)
  end.

(** [strings.IndexRune] for an ASCII rune: the byte index of its first
    occurrence, or -1. *)
Definition IndexRune (s : string) (r : ascii) : Z :=
  match IndexByte s r with
  | Some n => Z.of_nat n
  | None => -1
  end.

Definition contains (s : string) (c : ascii) : bool :=
  match IndexByte s c with Some _ => true | None => false end.

End strings.

(* ================================================================== *)
(** ** Package [unicode/utf8] (what [strconv.Unquote] needs) *)

Module utf8.

Definition cont (c : ascii) : bool :=
  let b := byte_val c in (128 <=? b) && (b <=? 191).

Definition between (lo hi : Z) (c : ascii) : bool :=
  let b := byte_val c in (lo <=? b) && (b <=? hi).

(** Width in bytes of the well-formed encoding [s] starts with; [None] when
    [s] starts with an ill-formed sequence ([utf8.DecodeRuneInString]
    then yields [RuneError] of width 1). *)
Definition DecodeWidth (s : string) : option nat :=
  match s with
  | EmptyString => None
  | String c0 s1 =>
      let b0 := byte_val c0 in
      if b0 <? 128 then Some 1%nat
      else if (194 <=? b0) && (b0 <=? 223) then
        match s1 with
        | String c1 _ => if cont c1 then Some 2%nat else None
        | _ => None
        end
      else if (224 <=? b0) && (b0 <=? 239) then
        match s1 with
        | String c1 (String c2 _) =>
            let lo := if b0 =? 224 then 160 else 128 in
            let hi := if b0 =? 237 then 159 else 191 in
            if between lo hi c1 && cont c2 then Some 3%nat else None
        | _ => None
        end
      else if (240 <=? b0) && (b0 <=? 244) then
        match s1 with
        | String c1 (String c2 (String c3 _)) =>
            let lo := if b0 =? 240 then 144 else 128 in
            let hi := if b0 =? 244 then 143 else 191 in
            if between lo hi c1 && cont c2 && cont c3 then Some 4%nat
            else None
        | _ => None
        end
      else None
  end.

Definition ValidRune (r : Z) : bool :=
  ((0 <=? r) && (r <? 55296)) || ((57343 <? r) && (r <=? 1114111)).

(** [utf8.AppendRune] on a valid rune. *)
Definition EncodeRune (r : Z) : string :=
  if r <? 128 then String (byte_of r) EmptyString
  else if r <? 2048 then
    String (byte_of (192 + Z.shiftr r 6))
      (String (byte_of (128 + Z.land r 63)) EmptyString)
  else if r <? 65536 then
    String (byte_of (224 + Z.shiftr r 12))
      (String (byte_of (128 + Z.land (Z.shiftr r 6) 63))
         (String (byte_of (128 + Z.land r 63)) EmptyString))
  else
    String (byte_of (240 + Z.shiftr r 18))
      (String (byte_of (128 + Z.land (Z.shiftr r 12) 63))
         (String (byte_of (128 + Z.land (Z.shiftr r 6) 63))
            (String (byte_of (128 + Z.land r 63)) EmptyString))).

Definition RuneError : Z := 65533.

(** [utf8.DecodeRuneInString]: the first rune of [s]; [RuneError] when [s]
    is empty or starts with an ill-formed sequence. *)
Definition DecodeRune (s : string) : Z :=
  match DecodeWidth s, s with
  | Some 1%nat, String c0 _ => byte_val c0
  | Some 2%nat, String c0 (String c1 _) =>
      Z.lor (Z.shiftl (Z.land (byte_val c0) 31) 6) (Z.land (byte_val c1) 63)
  | Some 3%nat, String c0 (String c1 (String c2 _)) =>
      Z.lor (Z.shiftl (Z.land (byte_val c0) 15) 12)
            (Z.lor (Z.shiftl (Z.land (byte_val c1) 63) 6)
                   (Z.land (byte_val c2) 63))
  | Some 4%nat, String c0 (String c1 (String c2 (String c3 _))) =>
      Z.lor (Z.shiftl (Z.land (byte_val c0) 7) 18)
            (Z.lor (Z.shiftl (Z.land (byte_val c1) 63) 12)
                   (Z.lor (Z.shiftl (Z.land (byte_val c2) 63) 6)
                          (Z.land (byte_val c3) 63)))
  | _, _ => RuneError
  end.

End utf8.

(* ================================================================== *)
(** ** Package [unicode] (what decides whether a field name is exported) *)

Module unicode.

(** The upper-case letters (category Lu, Unicode 14.0), as ranges
    [(lo, hi, stride)] in the manner of Go's [unicode.Upper] table. *)
Definition Upper : list (Z * Z * Z) :=
  [ (65, 90, 1); (192, 214, 1); (216, 222, 1); (256, 310, 2);
    (313, 327, 2); (330, 376, 2); (377, 381, 2); (385, 386, 1);
    (388, 388, 1); (390, 391, 1); (393, 395, 1); (398, 401, 1);
    (403, 404, 1); (406, 408, 1); (412, 413, 1); (415, 416, 1);
    (418, 422, 2); (423, 423, 1); (425, 425, 1); (428, 428, 1);
    (430, 431, 1); (433, 435, 1); (437, 437, 1); (439, 440, 1);
    (444, 444, 1); (452, 461, 3); (463, 475, 2); (478, 494, 2);
    (497, 497, 1); (500, 500, 1); (502, 504, 1); (506, 562, 2);
    (570, 571, 1); (573, 574, 1); (577, 577, 1); (579, 582, 1);
    (584, 590, 2); (880, 880, 1); (882, 882, 1); (886, 886, 1);
    (895, 895, 1); (902, 902, 1); (904, 906, 1); (908, 908, 1);
    (910, 911, 1); (913, 929, 1); (931, 939, 1); (975, 975, 1);
    (978, 980, 1); (984, 1006, 2); (1012, 1012, 1); (1015, 1015, 1);
    (1017, 1018, 1); (1021, 1071, 1); (1120, 1152, 2); (1162, 1216, 2);
    (1217, 1229, 2); (1232, 1326, 2); (1329, 1366, 1); (4256, 4293, 1);
    (4295, 4295, 1); (4301, 4301, 1); (5024, 5109, 1); (7312, 7354, 1);
    (7357, 7359, 1); (7680, 7828, 2); (7838, 7934, 2); (7944, 7951, 1);
    (7960, 7965, 1); (7976, 7983, 1); (7992, 7999, 1); (8008, 8013, 1);
    (8025, 8031, 2); (8040, 8047, 1); (8120, 8123, 1); (8136, 8139, 1);
    (8152, 8155, 1); (8168, 8172, 1); (8184, 8187, 1); (8450, 8450, 1);
    (8455, 8455, 1); (8459, 8461, 1); (8464, 8466, 1); (8469, 8469, 1);
    (8473, 8477, 1); (8484, 8490, 2); (8491, 8493, 1); (8496, 8499, 1);
    (8510, 8511, 1); (8517, 8517, 1); (8579, 8579, 1); (11264, 11311, 1);
    (11360, 11360, 1); (11362, 11364, 1); (11367, 11373, 2);
    (11374, 11376, 1); (11378, 11378, 1); (11381, 11381, 1);
    (11390, 11392, 1); (11394, 11490, 2); (11499, 11499, 1);
    (11501, 11501, 1); (11506, 11506, 1); (42560, 42604, 2);
    (42624, 42650, 2); (42786, 42798, 2); (42802, 42862, 2);
    (42873, 42877, 2); (42878, 42886, 2); (42891, 42891, 1);
    (42893, 42893, 1); (42896, 42896, 1); (42898, 42898, 1);
    (42902, 42922, 2); (42923, 42926, 1); (42928, 42932, 1);
    (42934, 42948, 2); (42949, 42951, 1); (42953, 42953, 1);
    (42960, 42960, 1); (42966, 42966, 1); (42968, 42968, 1);
    (42997, 42997, 1); (65313, 65338, 1); (66560, 66599, 1);
    (66736, 66771, 1); (66928, 66938, 1); (66940, 66954, 1);
    (66956, 66962, 1); (66964, 66965, 1); (68736, 68786, 1);
    (71840, 71871, 1); (93760, 93791, 1); (119808, 119833, 1);
    (119860, 119885, 1); (119912, 119937, 1); (119964, 119964, 1);
    (119966, 119967, 1); (119970, 119970, 1); (119973, 119974, 1);
    (119977, 119980, 1); (119982, 119989, 1); (120016, 120041, 1);
    (120068, 120069, 1); (120071, 120074, 1); (120077, 120084, 1);
    (120086, 120092, 1); (120120, 120121, 1); (120123, 120126, 1);
    (120128, 120132, 1); (120134, 120134, 1); (120138, 120144, 1);
    (120172, 120197, 1); (120224, 120249, 1); (120276, 120301, 1);
    (120328, 120353, 1); (120380, 120405, 1); (120432, 120457, 1);
    (120488, 120512, 1); (120546, 120570, 1); (120604, 120628, 1);
    (120662, 120686, 1); (120720, 120744, 1); (120778, 120778, 1);
    (125184, 125217, 1) ].

(** [unicode.IsUpper] *)
Definition IsUpper (r : Z) : bool :=
  existsb (fun '(lo, hi, stride) =>
             (lo <=? r) && (r <=? hi) && ((r - lo) mod stride =? 0))
          Upper.

End unicode.

(* ================================================================== *)
(** ** Package [strconv] *)

Module strconv.

Definition digit (c : ascii) : option Z :=
  let b := byte_val c in
  if (48 <=? b) && (b <=? 57) then Some (b - 48) else None.

Definition maxInt : Z := 9223372036854775807.
Definition minInt : Z := -9223372036854775808.
Definition maxUint64 : Z := 18446744073709551615.

Inductive NumError : Type := NoError | ErrSyntax | ErrRange.

(** The loop of [strconv.ParseUint(s, 10, 64)]: a byte that is not a
    decimal digit is a syntax error; a value that no longer fits in 64
    bits is a range error, returned where it is found, before the bytes
    that follow are looked at. *)
Fixpoint ParseUintLoop (s : string) (n : Z) : Z * NumError :=
  match s with
  | EmptyString => (n, NoError)
  | String c s' =>
      match digit c with
      | None => (0, ErrSyntax)
      | Some d =>
          if maxUint64 / 10 + 1 <=? n then (maxUint64, ErrRange)
          else
            let n1 := n * 10 + d in
            if maxUint64 <? n1 then (maxUint64, ErrRange)
            else ParseUintLoop s' n1
      end
  end.

Definition ParseUint (s : string) : Z * NumError :=
  match s with
  | EmptyString => (0, ErrSyntax)
  | _ => ParseUintLoop s 0
  end.

(** [strconv.ParseInt(s, 10, 0)] *)
Definition ParseInt (s : string) : Z * NumError :=
  match s with
  | EmptyString => (0, ErrSyntax)
  | String c s' =>
      let neg := Ascii.eqb c "-" in
      let body := if neg || Ascii.eqb c "+" then s' else s in
      match ParseUint body with
      | (_, ErrSyntax) => (0, ErrSyntax)
      | (un, _) =>
          if negb neg && (maxInt + 1 <=? un) then (maxInt, ErrRange)
          else if neg && (maxInt + 1 <? un) then (minInt, ErrRange)
          else (if neg then - un else un, NoError)
      end
  end.

(** [strconv.Atoi] with its error dropped, as every caller in the decoder
    does ([i, _ := strconv.Atoi(...)]): an optional sign and decimal
    digits; 0 on a syntax error, the nearest [int] on a range error.  (The
    short inputs [Atoi] handles itself give what [ParseInt] gives.) *)
Definition Atoi (s : string) : Z := fst (ParseInt s).

(** [float64] values stay symbolic: a value is the literal handed to
    [strconv.ParseFloat] (its error dropped).  No arithmetic is done on
    them here, and which literals stand for the same number is not
    decided. *)
Inductive float64 : Type := ParseFloat (literal : string).

Definition unhex (c : ascii) : option Z :=
  let b := byte_val c in
  if (48 <=? b) && (b <=? 57) then Some (b - 48)
  else if (97 <=? b) && (b <=? 102) then Some (b - 97 + 10)
  else if (65 <=? b) && (b <=? 70) then Some (b - 65 + 10)
  else None.

Fixpoint hexval (n : nat) (s : string) (v : Z) : option (Z * string) :=
  match n with
  | O => Some (v, s)
  | S n' =>
      match s with
      | String c s' =>
          match unhex c with
          | Some x => hexval n' s' (Z.lor (Z.shiftl v 4) x)
          | None => None
          end
      | EmptyString => None
      end
  end.

Definition octdigit (c : ascii) : option Z :=
  let b := byte_val c in
  if (48 <=? b) && (b <=? 55) then Some (b - 48) else None.

Definition one (z : Z) : string := String (byte_of z) EmptyString.

(** [strconv.UnquoteChar]: the bytes the first character or escape of [s]
    stands for, and the rest of [s]. *)
Definition UnquoteChar (s : string) (quote : ascii)
  : option (string * string) :=
  match s with
  | EmptyString => None
  | String c s1 =>
      if Ascii.eqb c quote
         && (Ascii.eqb quote squote || Ascii.eqb quote dquote)
      then None
      else if 128 <=? byte_val c then
        match utf8.DecodeWidth s with
        | Some w =>
            Some (substring 0 w s, substring w (String.length s - w) s)
        | None => Some (utf8.EncodeRune utf8.RuneError, s1)
        end
      else if negb (Ascii.eqb c bslash) then Some (String c EmptyString, s1)
      else
        match s1 with
        | EmptyString => None
        | String e s2 =>
            let b := byte_val e in
            if b =? 97 then Some (one 7, s2)            (* \a *)
            else if b =? 98 then Some (one 8, s2)       (* \b *)
            else if b =? 102 then Some (one 12, s2)     (* \f *)
            else if b =? 110 then Some (one 10, s2)     (* \n *)
            else if b =? 114 then Some (one 13, s2)     (* \r *)
            else if b =? 116 then Some (one 9, s2)      (* \t *)
            else if b =? 118 then Some (one 11, s2)     (* \v *)
            else if b =? 120 then                       (* \xHH *)
              match hexval 2 s2 0 with
              | Some (v, rest) => Some (one v, rest)
              | None => None
              end
            else if (b =? 117) || (b =? 85) then        (* \u, \U *)
              match hexval (if b =? 117 then 4 else 8) s2 0 with
              | Some (v, rest) =>
                  if utf8.ValidRune v then Some (utf8.EncodeRune v, rest)
                  else None
              | None => None
              end
            else if (48 <=? b) && (b <=? 55) then       (* \ooo *)
              match s2 with
              | String o1 (String o2 rest) =>
                  match octdigit o1, octdigit o2 with
                  | Some x1, Some x2 =>
                      let v := (b - 48) * 64 + x1 * 8 + x2 in
                      if 255 <? v then None else Some (one v, rest)
                  | _, _ => None
                  end
              | _ => None
              end
            else if Ascii.eqb e bslash then Some (one 92, s2)
            else if Ascii.eqb e squote || Ascii.eqb e dquote then
              if Ascii.eqb e quote then Some (String e EmptyString, s2)
              else None
            else None
        end
  end.

(** The loop of [strconv.Unquote] over a literal with escapes; [s] starts
    after the opening quote.  Returns the decoded bytes and what follows
    the closing quote. *)
Fixpoint unquoteLoop (n : nat) (quote : ascii) (s buf : string)
  : option (string * string) :=
  match n with
  | O => None
  | S n' =>
      match s with
      | EmptyString => None
      | String c s1 =>
          if Ascii.eqb c quote then Some (buf, s1)
          else
            match UnquoteChar s quote with
            | None => None
            | Some (bytes, rem) =>
                if Ascii.eqb c newline then None
                else if Ascii.eqb quote squote then
                  match rem with
                  | String q rest =>
                      if Ascii.eqb q quote then Some (buf ++ bytes, rest)
                      else None
                  | EmptyString => None
                  end
                else unquoteLoop n' quote rem (buf ++ bytes)
            end
      end
  end.

Fixpoint dropCR (s : string) : string :=
  match s with
  | EmptyString => EmptyString
  | String c s' => if Ascii.eqb c creturn then dropCR s' else String c (dropCR s')
  end.

Fixpoint validUTF8 (n : nat) (s : string) : bool :=
  match n with
  | O => true
  | S n' =>
      match s with
      | EmptyString => true
      | _ =>
          match utf8.DecodeWidth s with
          | Some w => validUTF8 n' (substring w (String.length s - w) s)
          | None => false
          end
      end
  end.

Definition unquote (s : string) : option (string * string) :=
  match s with
  | String quote s1 =>
      match strings.IndexByte s1 quote with
      | None => None
      | Some e =>
          let inner := substring 0 e s1 in
          let after := substring (S e) (String.length s1 - S e) s1 in
          if Ascii.eqb quote bquote then Some (dropCR inner, after)
          else if Ascii.eqb quote dquote || Ascii.eqb quote squote then
            let valid :=
              if Ascii.eqb quote dquote
              then validUTF8 (String.length inner) inner
              else
                match inner with
                | EmptyString => true
                | _ =>
                    match utf8.DecodeWidth inner with
                    | Some w => Nat.eqb w (String.length inner)
                    | None => false
                    end
                end in
            if negb (strings.contains inner bslash)
               && negb (strings.contains inner newline) && valid
            then Some (inner, after)
            else unquoteLoop (String.length s) quote s1 EmptyString
          else None
      end
  | EmptyString => None
  end.

(** [strconv.Unquote] with its error dropped ([s, _ := strconv.Unquote(...)]):
    the empty string when [s] is not a quoted literal. *)
Definition Unquote (s : string) : string :=
  match unquote s with
  | Some (out, EmptyString) => out
  | _ => EmptyString
  end.

End strconv.

(* ================================================================== *)
(** ** Package [text/scanner]: token classes

    [scanner.Scan] returns a rune: one of the negative token classes below
    or the Unicode value of a single character, so [40] is an opening and
    [41] a closing parenthesis. *)

Module scanner.
Definition EOF : Z := -1.
Definition Ident : Z := -2.
Definition Int : Z := -3.
Definition Float : Z := -4.
Definition Char : Z := -5.
Definition String : Z := -6.
Definition RawString : Z := -7.
Definition Comment : Z := -8.

(** One scanned token: its class and its source text ([TokenText]). *)
Record lexeme : Type := Lexeme { tok : Z; lit : string }.

(** The scanner: the tokens still to be delivered and the text of the
    token delivered last.  Tokenising characters is the scanner's own
    business; an input is given as the tokens it scans to. *)
Record Scanner : Type := mkScanner { pending : list lexeme; TokenText : string }.

Definition Init (data : list lexeme) : Scanner := mkScanner data "".

Definition Scan (s : Scanner) : Scanner * Z :=
  match pending s with
  | [] => (mkScanner [] "", EOF)
  | l :: rest => (mkScanner rest (lit l), tok l)
  end.
End scanner.

Definition LParen : Z := 40.
Definition RParen : Z := 41.

(* ================================================================== *)
(** ** Package [reflect]: types and values *)

(** Whether a field name is exported: its first rune is an upper-case
    letter.  (The compiler decides this where the struct type is declared,
    an ASCII first byte by its range and any other through
    [unicode.IsUpper]; [reflect] only reads the outcome.) *)
Definition exported (name : string) : bool :=
  match name with
  | String c _ =>
      if byte_val c <? 128 then (65 <=? byte_val c) && (byte_val c <=? 90)
      else unicode.IsUpper (utf8.DecodeRune name)
  | EmptyString => false
  end.

Module reflect.

Inductive Kind : Type :=
| Invalid | Bool | Int | Uint | Float64 | String
| Array | Slice | Struct | Map | Interface.

End reflect.

(** The types a destination is built from: [bool], [int], [uint],
    [float64], [string], [[n]T], [[]T], [struct{...}] (no embedded
    fields), [map[K]V] and [interface{}]. *)
Inductive rtype : Type :=
| TBool | TInt | TUint | TFloat64 | TString
| TArray (len : nat) (elem : rtype)
| TSlice (elem : rtype)
| TStruct (fields : list (string * rtype))
| TMap (key elem : rtype)
| TInterface.

(** The value stored in a variable of each type.  A slice is the sequence
    of its elements (nil is the empty one); a map is [None] when nil and
    otherwise its entries, one per key, in order of first insertion; an
    interface is nil or holds a dynamic value. *)
Inductive value : Type :=
| VBool (b : bool)
| VInt (i : Z)
| VUint (u : Z)
| VFloat64 (f : strconv.float64)
| VString (s : string)
| VArray (elem : rtype) (items : list value)
| VSlice (elem : rtype) (items : list value)
| VStruct (fields : list (string * value))
| VMap (key elem : rtype) (m : option (list (value * value)))
| VInterface (dyn : option value).

(** A [reflect.Value] reaching the decoder: the zero Value, or an
    addressable variable with its read-only flag (set on what is reached
    through an unexported struct field) and current content. *)
Inductive Value : Type :=
| ZeroValue
| Var (ro : bool) (x : value).

Fixpoint TypeOf (x : value) : rtype :=
  match x with
  | VBool _ => TBool
  | VInt _ => TInt
  | VUint _ => TUint
  | VFloat64 _ => TFloat64
  | VString _ => TString
  | VArray elem items => TArray (List.length items) elem
  | VSlice elem _ => TSlice elem
  | VStruct fields =>
      TStruct ((fix go (l : list (string * value)) :=
                  match l with
                  | [] => []
                  | (n, y) :: l' => (n, TypeOf y) :: go l'
                  end) fields)
  | VMap key elem _ => TMap key elem
  | VInterface _ => TInterface
  end.

Definition KindOf (x : value) : reflect.Kind :=
  match x with
  | VBool _ => reflect.Bool
  | VInt _ => reflect.Int
  | VUint _ => reflect.Uint
  | VFloat64 _ => reflect.Float64
  | VString _ => reflect.String
  | VArray _ _ => reflect.Array
  | VSlice _ _ => reflect.Slice
  | VStruct _ => reflect.Struct
  | VMap _ _ _ => reflect.Map
  | VInterface _ => reflect.Interface
  end.

(** [reflect.Zero]: the zero value of a type. *)
Fixpoint Zero (t : rtype) : value :=
  match t with
  | TBool => VBool false
  | TInt => VInt 0
  | TUint => VUint 0
  | TFloat64 => VFloat64 (strconv.ParseFloat "0")
  | TString => VString ""
  | TArray n elem => VArray elem (repeat (Zero elem) n)
  | TSlice elem => VSlice elem []
  | TStruct fields =>
      VStruct ((fix go (l : list (string * rtype)) :=
                  match l with
                  | [] => []
                  | (n, u) :: l' => (n, Zero u) :: go l'
                  end) fields)
  | TMap key elem => VMap key elem None
  | TInterface => VInterface None
  end.

Fixpoint rtype_eqb (t u : rtype) : bool :=
  match t, u with
  | TBool, TBool | TInt, TInt | TUint, TUint
  | TFloat64, TFloat64 | TString, TString | TInterface, TInterface => true
  | TArray n e, TArray m f => Nat.eqb n m && rtype_eqb e f
  | TSlice e, TSlice f => rtype_eqb e f
  | TStruct fs, TStruct gs =>
      (fix go (l1 l2 : list (string * rtype)) :=
         match l1, l2 with
         | [], [] => true
         | (n1, t1) :: l1', (n2, t2) :: l2' =>
             String.eqb n1 n2 && rtype_eqb t1 t2 && go l1' l2'
         | _, _ => false
         end) fs gs
  | TMap k e, TMap k' e' => rtype_eqb k k' && rtype_eqb e e'
  | _, _ => false
  end.

(** Whether values of the type can be map keys ([reflect.MapOf] panics
    otherwise). *)
Fixpoint comparable (t : rtype) : bool :=
  match t with
  | TSlice _ | TMap _ _ => false
  | TArray _ elem => comparable elem
  | TStruct fields =>
      (fix go (l : list (string * rtype)) :=
         match l with
         | [] => true
         | (_, u) :: l' => comparable u && go l'
         end) fields
  | _ => true
  end.

(** Whether the value can be hashed as a map key.  The runtime hashes an
    array element by element, a struct field by field and an interface
    through its dynamic value, and refuses a dynamic value whose type is
    not comparable. *)
Fixpoint hashable (x : value) : bool :=
  match x with
  | VSlice _ _ | VMap _ _ _ => false
  | VArray _ items =>
      (fix go (l : list value) :=
         match l with [] => true | y :: l' => hashable y && go l' end) items
  | VStruct fields =>
      (fix go (l : list (string * value)) :=
         match l with
         | [] => true
         | (_, y) :: l' => hashable y && go l'
         end) fields
  | VInterface (Some y) => comparable (TypeOf y) && hashable y
  | _ => true
  end.

(** The type the runtime names when it refuses to hash the value: that of
    the first dynamic value, in the order of hashing, whose type is not
    comparable. *)
Fixpoint unhashable_type (x : value) : rtype :=
  match x with
  | VArray _ items =>
      (fix go (l : list value) :=
         match l with
         | [] => TypeOf x
         | y :: l' => if hashable y then go l' else unhashable_type y
         end) items
  | VStruct fields =>
      (fix go (l : list (string * value)) :=
         match l with
         | [] => TypeOf x
         | (_, y) :: l' => if hashable y then go l' else unhashable_type y
         end) fields
  | VInterface (Some y) =>
      if comparable (TypeOf y) then unhashable_type y else TypeOf y
  | _ => TypeOf x
  end.

(** Equality of two hashable values of one type, as map keys compare.
    Two [float64] keys are compared by their literals, which is not how
    Go compares them (1.0 and 1.00 are one key, NaN is no key twice): what
    is stated below about the entries of a map leaves float64 keys out. *)
Fixpoint value_eqb (x y : value) : bool :=
  match x, y with
  | VBool a, VBool b => Bool.eqb a b
  | VInt a, VInt b => a =? b
  | VUint a, VUint b => a =? b
  | VFloat64 (strconv.ParseFloat a), VFloat64 (strconv.ParseFloat b) =>
      String.eqb a b
  | VString a, VString b => String.eqb a b
  | VArray e xs, VArray f ys =>
      rtype_eqb e f &&
      (fix go (l1 l2 : list value) :=
         match l1, l2 with
         | [], [] => true
         | a :: l1', b :: l2' => value_eqb a b && go l1' l2'
         | _, _ => false
         end) xs ys
  | VStruct fs, VStruct gs =>
      (fix go (l1 l2 : list (string * value)) :=
         match l1, l2 with
         | [], [] => true
         | (n1, a) :: l1', (n2, b) :: l2' =>
             String.eqb n1 n2 && value_eqb a b && go l1' l2'
         | _, _ => false
         end) fs gs
  | VInterface None, VInterface None => true
  | VInterface (Some a), VInterface (Some b) => value_eqb a b
  | _, _ => false
  end.


(* ================================================================== *)
(** ** Panics and results *)

Inductive panic : Type :=
(* raised by the decoder itself *)
| UnexpectedToken (text : string)        (* "unexpected token %q" *)
| GotWant (text : string) (want : Z)     (* "got %q, want %q" *)
| WantFieldName (text : string)          (* "got token %q, want field name" *)
| CannotDecodeList (t : rtype)           (* "cannot decode list into %v" *)
| UnknownType (typ : string)             (* "unknown type %q" *)
| EndOfFile                              (* "end of file" *)
(* raised by package reflect *)
| ValueError (method : string) (k : reflect.Kind) (* "reflect: call of M on K Value" *)
| ReadOnlyValue              (* "... obtained using unexported field" *)
| ArrayIndexOutOfRange       (* "reflect: array index out of range" *)
| NegativeArrayLength        (* "reflect: negative length passed to ArrayOf" *)
| ArrayTooLarge       (* "reflect.ArrayOf: array size would exceed virtual address space" *)
| InvalidKeyType (t : rtype) (* "reflect.MapOf: invalid key type" *)
(* raised by the Go runtime *)
| IndexOutOfRange            (* "runtime error: index out of range" *)
| SliceBoundsOutOfRange      (* "runtime error: slice bounds out of range" *)
| UnhashableKey (t : rtype). (* "runtime error: hash of unhashable type" *)

(** The outcome of running code that may panic.  [OutOfFuel] is not an
    outcome of the Go program: it only says the recursion bound given to
    the embedding was too small (it never is for [Unmarshal], see
    [Unmarshal_total]). *)
Inductive result (A : Type) : Type :=
| Ok (a : A)
| Panic (p : panic)
| OutOfFuel.
Arguments Ok {A} a.
Arguments Panic {A} p.
Arguments OutOfFuel {A}.

Definition bind {A B : Type} (m : result A) (k : A -> result B) : result B :=
  match m with
  | Ok a => k a
  | Panic p => Panic p
  | OutOfFuel => OutOfFuel
  end.

Notation "x <- m ;; k" := (bind m (fun x => k))
  (at level 61, m at next level, right associativity).
Notation "' pat <- m ;; k" :=
  (bind m (fun x => match x with pat => k end))
  (at level 61, pat pattern, m at next level, right associativity).

(* ================================================================== *)
(** ** Go string indexing and slicing *)

(** [s[0]] *)
Definition first_byte (s : string) : result ascii :=
  match s with
  | String c _ => Ok c
  | EmptyString => Panic IndexOutOfRange
  end.

(** [s[lo:hi]] *)
Definition slice (s : string) (lo hi : Z) : result string :=
  if (0 <=? lo) && (lo <=? hi) && (hi <=? Z.of_nat (String.length s))
  then Ok (substring (Z.to_nat lo) (Z.to_nat (hi - lo)) s)
  else Panic SliceBoundsOutOfRange.

(** [s[lo:]] *)
Definition slice_from (s : string) (lo : Z) : result string :=
  slice s lo (Z.of_nat (String.length s)).

(* ================================================================== *)
(** ** Package [reflect]: operations on Values *)

Definition Value_Kind (v : Value) : reflect.Kind :=
  match v with
  | ZeroValue => reflect.Invalid
  | Var _ x => KindOf x
  end.

Definition Value_Type (v : Value) : result rtype :=
  match v with
  | ZeroValue => Panic (ValueError "reflect.Value.Type" reflect.Invalid)
  | Var _ x => Ok (TypeOf x)
  end.

(** [mustBeAssignable]: every Value reaching the decoder is addressable, so
    what is left to check is that it is valid and not read-only. *)
Definition mustBeAssignable (method : string) (v : Value) : result value :=
  match v with
  | ZeroValue => Panic (ValueError method reflect.Invalid)
  | Var true _ => Panic ReadOnlyValue
  | Var false x => Ok x
  end.

(** [v.Set(x)].  The decoder only passes an [x] of [v]'s own type or, when
    [v] is an interface variable, a value to be stored in it. *)
Definition Value_Set (v : Value) (x : value) : result value :=
  cur <- mustBeAssignable "reflect.Value.Set" v ;;
  match cur, x with
  | VInterface _, VInterface _ => Ok x
  | VInterface _, _ => Ok (VInterface (Some x))
  | _, _ => Ok x
  end.

Definition Value_SetBool (v : Value) (b : bool) : result value :=
  cur <- mustBeAssignable "reflect.Value.SetBool" v ;;
  match cur with
  | VBool _ => Ok (VBool b)
  | _ => Panic (ValueError "reflect.Value.SetBool" (KindOf cur))
  end.

Definition Value_SetString (v : Value) (s : string) : result value :=
  cur <- mustBeAssignable "reflect.Value.SetString" v ;;
  match cur with
  | VString _ => Ok (VString s)
  | _ => Panic (ValueError "reflect.Value.SetString" (KindOf cur))
  end.

Definition Value_SetInt (v : Value) (i : Z) : result value :=
  cur <- mustBeAssignable "reflect.Value.SetInt" v ;;
  match cur with
  | VInt _ => Ok (VInt i)
  | _ => Panic (ValueError "reflect.Value.SetInt" (KindOf cur))
  end.

Definition Value_SetFloat (v : Value) (f : strconv.float64) : result value :=
  cur <- mustBeAssignable "reflect.Value.SetFloat" v ;;
  match cur with
  | VFloat64 _ => Ok (VFloat64 f)
  | _ => Panic (ValueError "reflect.Value.SetFloat" (KindOf cur))
  end.

(** [v.Index(i)] on an array: the element variable, read-only when [v] is. *)
Definition Value_Index (ro : bool) (items : list value) (i : nat) : result Value :=
  match nth_error items i with
  | Some x => Ok (Var ro x)
  | None => Panic ArrayIndexOutOfRange
  end.

Fixpoint store_index (i : nat) (x : value) (items : list value) {struct items}
  : list value :=
  match items with
  | [] => []
  | y :: rest =>
      match i with
      | O => x :: rest
      | S i' => y :: store_index i' x rest
      end
  end.

(** [v.FieldByName(name)] on a struct: the field variable, or the zero
    Value when the struct has no such field.  The field is read-only when
    [v] is or when its name is not exported. *)
Fixpoint FieldByName (ro : bool) (fields : list (string * value)) (name : string) : Value :=
  match fields with
  | [] => ZeroValue
  | (n, x) :: rest =>
      if String.eqb n name then Var (ro || negb (exported name)) x
      else FieldByName ro rest name
  end.

Fixpoint store_field (name : string) (x : value) (fields : list (string * value))
  : list (string * value) :=
  match fields with
  | [] => []
  | (n, y) :: rest =>
      if String.eqb n name then (n, x) :: rest
      else (n, y) :: store_field name x rest
  end.

(** [reflect.Append(v, item)]: panics on a read-only slice. *)
Definition Append (ro : bool) (items : list value) (item : value) : result (list value) :=
  if ro then Panic ReadOnlyValue else Ok (items ++ [item])%list.

Definition MakeMap (key elem : rtype) : value := VMap key elem (Some []).

Fixpoint map_store (k e : value) (m : list (value * value)) : list (value * value) :=
  match m with
  | [] => [(k, e)]
  | (k', e') :: rest =>
      if value_eqb k' k then (k', e) :: rest else (k', e') :: map_store k e rest
  end.

(** [v.SetMapIndex(key, elem)] on a non-nil map. *)
Definition SetMapIndex (m : list (value * value)) (k e : value)
  : result (list (value * value)) :=
  if hashable k then Ok (map_store k e m)
  else Panic (UnhashableKey (unhashable_type k)).

Definition SliceOf (elem : rtype) : rtype := TSlice elem.

(** Alignment and size in bytes of the values of a type, as the compiler
    and [reflect] lay them out on a 64-bit platform: a struct places each
    field at the next multiple of its alignment, adds a byte when it ends
    in a field of size 0 without being of size 0 itself, and is rounded up
    to its own alignment. *)
Definition roundup (o a : Z) : Z := (o + a - 1) / a * a.

Fixpoint Align (t : rtype) : Z :=
  match t with
  | TBool => 1
  | TArray _ elem => Align elem
  | TStruct fields =>
      (fix go (l : list (string * rtype)) :=
         match l with
         | [] => 1
         | (_, u) :: l' => Z.max (Align u) (go l')
         end) fields
  | _ => 8
  end.

Fixpoint Size (t : rtype) : Z :=
  match t with
  | TBool => 1
  | TInt | TUint | TFloat64 | TMap _ _ => 8
  | TString | TInterface => 16
  | TSlice _ => 24
  | TArray n elem => Z.of_nat n * Size elem
  | TStruct fields =>
      roundup
        ((fix go (l : list (string * rtype)) (o : Z) (lastzero : bool) :=
            match l with
            | [] => if lastzero && (0 <? o) then o + 1 else o
            | (_, u) :: l' =>
                go l' (roundup o (Align u) + Size u) (Size u =? 0)
            end) fields 0 false)
        (Align t)
  end.

Definition maxUintptr : Z := 18446744073709551615.

(** [reflect.ArrayOf]: panics on a negative length, and on a length with
    which the array would not fit in the address space. *)
Definition ArrayOf (count : Z) (elem : rtype) : result rtype :=
  if count <? 0 then Panic NegativeArrayLength
  else if (0 <? Size elem) && (maxUintptr / Size elem <? count)
  then Panic ArrayTooLarge
  else Ok (TArray (Z.to_nat count) elem).

Definition MapOf (key elem : rtype) : result rtype :=
  if comparable key then Ok (TMap key elem) else Panic (InvalidKeyType key).

(* ================================================================== *)
(** ** Package [sexpr]: the lexer *)

Record lexer : Type := mkLexer { scan : scanner.Scanner; token : Z }.

(** [func (lex *lexer) next()] *)
Definition next (lex : lexer) : lexer :=
  let (s, t) := scanner.Scan (scan lex) in mkLexer s t.

(** [func (lex *lexer) text() string] *)
Definition text (lex : lexer) : string := scanner.TokenText (scan lex).

(** [func (lex *lexer) consume(want rune)] *)
Definition consume (lex : lexer) (want : Z) : result lexer :=
  if negb (token lex =? want) then Panic (GotWant (text lex) want)
  else Ok (next lex).

(** [func endList(lex *lexer) bool] *)
Definition endList (lex : lexer) : result bool :=
  if token lex =? scanner.EOF then Panic EndOfFile
  else if token lex =? RParen then Ok true
  else Ok false.

(* ================================================================== *)
(** ** Package [sexpr]: type descriptors *)

Definition atomTypes : list (string * rtype) :=
  [ ("int", TInt); ("uint", TUint); ("float", TFloat64);
    ("bool", TBool); ("string", TString) ].

Fixpoint lookup {A : Type} (m : list (string * A)) (k : string) : option A :=
  match m with
  | [] => None
  | (k', a) :: rest => if String.eqb k' k then Some a else lookup rest k
  end.

(** [func asType(typ string) reflect.Type]; [n] bounds the recursion depth. *)
Fixpoint asType_rec (n : nat) (typ : string) : result rtype :=
  match n with
  | O => OutOfFuel
  | S n' =>
      match lookup atomTypes typ with
      | Some t => Ok t
      | None =>
          if strings.HasPrefix typ "[]" then
            rest <- slice_from typ 2 ;;
            elem <- asType_rec n' rest ;;
            Ok (SliceOf elem)
          else
            c <- first_byte typ ;;
            if Ascii.eqb c "[" then
              let i := 0 in
              let j := strings.IndexRune typ "]" in
              digits <- slice typ (i + 1) j ;;
              let count := strconv.Atoi digits in
              elem <- slice_from typ (j + 1) ;;
              t <- asType_rec n' elem ;;
              ArrayOf count t
            else if strings.HasPrefix typ "map" then
              let i := strings.IndexRune typ "[" in
              let j := strings.IndexRune typ "]" in
              key <- slice typ (i + 1) j ;;
              elem <- slice_from typ (j + 1) ;;
              k <- asType_rec n' key ;;
              e <- asType_rec n' elem ;;
              MapOf k e
            else Panic (UnknownType typ)
      end
  end.

Definition asType (typ : string) : result rtype :=
  asType_rec (S (String.length typ)) typ.

(* ================================================================== *)
(** ** Package [sexpr]: the structural reader *)

Section ReadList.

(** The recursive calls [read(lex, ...)] made from [readList]. *)
Variable read : lexer -> Value -> result (lexer * value).

(** [case reflect.Array: for i := 0; !endList(lex); i++ { read(lex, v.Index(i)) }] *)
Fixpoint readArray (n : nat) (ro : bool) (lex : lexer) (i : nat) (items : list value)
  : result (lexer * list value) :=
  match n with
  | O => OutOfFuel
  | S n' =>
      stop <- endList lex ;;
      if stop then Ok (lex, items)
      else
        slot <- Value_Index ro items i ;;
        '(lex1, x) <- read lex slot ;;
        readArray n' ro lex1 (S i) (store_index i x items)
  end.

(** [case reflect.Slice: for !endList(lex) { item := ...; read(lex, item);
    v.Set(reflect.Append(v, item)) }] *)
Fixpoint readSlice (n : nat) (ro : bool) (elem : rtype) (lex : lexer) (items : list value)
  : result (lexer * list value) :=
  match n with
  | O => OutOfFuel
  | S n' =>
      stop <- endList lex ;;
      if stop then Ok (lex, items)
      else
        let item := Var false (Zero elem) in
        '(lex1, x) <- read lex item ;;
        items1 <- Append ro items x ;;
        readSlice n' ro elem lex1 items1
  end.

(** [case reflect.Struct] *)
Fixpoint readStruct (n : nat) (ro : bool) (lex : lexer) (fields : list (string * value))
  : result (lexer * list (string * value)) :=
  match n with
  | O => OutOfFuel
  | S n' =>
      stop <- endList lex ;;
      if stop then Ok (lex, fields)
      else
        lex1 <- consume lex LParen ;;
        if negb (token lex1 =? scanner.Ident)
        then Panic (WantFieldName (text lex1))
        else
          let name := text lex1 in
          let lex2 := next lex1 in
          '(lex3, x) <- read lex2 (FieldByName ro fields name) ;;
          lex4 <- consume lex3 RParen ;;
          readStruct n' ro lex4 (store_field name x fields)
  end.

(** [case reflect.Map], after [v.Set(reflect.MakeMap(v.Type()))] *)
Fixpoint readMap (n : nat) (key elem : rtype) (lex : lexer) (m : list (value * value))
  : result (lexer * list (value * value)) :=
  match n with
  | O => OutOfFuel
  | S n' =>
      stop <- endList lex ;;
      if stop then Ok (lex, m)
      else
        lex1 <- consume lex LParen ;;
        '(lex2, k) <- read lex1 (Var false (Zero key)) ;;
        '(lex3, e) <- read lex2 (Var false (Zero elem)) ;;
        m1 <- SetMapIndex m k e ;;
        lex4 <- consume lex3 RParen ;;
        readMap n' key elem lex4 m1
  end.

(** [func readList(lex *lexer, v reflect.Value)]; [n] bounds the number of
    iterations of its loops. *)
Definition readList (n : nat) (lex : lexer) (v : Value) : result (lexer * value) :=
  match v with (* switch v.Kind() *)
  | Var ro (VArray elem items) => (* case reflect.Array *)
      '(lex1, items1) <- readArray n ro lex O items ;;
      Ok (lex1, VArray elem items1)
  | Var ro (VSlice elem items) => (* case reflect.Slice *)
      '(lex1, items1) <- readSlice n ro elem lex items ;;
      Ok (lex1, VSlice elem items1)
  | Var ro (VStruct fields) => (* case reflect.Struct *)
      '(lex1, fields1) <- readStruct n ro lex fields ;;
      Ok (lex1, VStruct fields1)
  | Var ro (VMap key elem _) => (* case reflect.Map *)
      _ <- Value_Set v (MakeMap key elem) ;;
      '(lex1, m) <- readMap n key elem lex [] ;;
      Ok (lex1, VMap key elem (Some m))
  | Var ro (VInterface _) => (* case reflect.Interface *)
      let typStr := strconv.Unquote (text lex) in
      typ <- asType typStr ;;
      let lex1 := next lex in
      let value := Var false (Zero typ) in
      '(lex2, x) <- read lex1 value ;;
      y <- Value_Set v x ;;
      Ok (lex2, y)
  | _ => (* default *)
      t <- Value_Type v ;;
      Panic (CannotDecodeList t)
  end.

End ReadList.

(** [func read(lex *lexer, v reflect.Value)]; [fuel] bounds the nesting
    depth of the recursion and the iterations of each list loop. *)
Fixpoint read (fuel : nat) (lex : lexer) (v : Value) : result (lexer * value) :=
  match fuel with
  | O => OutOfFuel
  | S fuel' =>
      if token lex =? scanner.Ident then
        if String.eqb (text lex) "nil" then
          t <- Value_Type v ;;
          x <- Value_Set v (Zero t) ;;
          Ok (next lex, x)
        else if String.eqb (text lex) "t" then
          x <- Value_SetBool v true ;;
          Ok (next lex, x)
        else Panic (UnexpectedToken (text lex))
      else if token lex =? scanner.String then
        let s := strconv.Unquote (text lex) in
        x <- Value_SetString v s ;;
        Ok (next lex, x)
      else if token lex =? scanner.Int then
        let i := strconv.Atoi (text lex) in
        x <- Value_SetInt v i ;;
        Ok (next lex, x)
      else if token lex =? scanner.Float then
        let f := strconv.ParseFloat (text lex) in
        x <- Value_SetFloat v f ;;
        Ok (next lex, x)
      else if token lex =? LParen then
        let lex1 := next lex in
        '(lex2, x) <- readList (read fuel') fuel' lex1 v ;;
        Ok (next lex2, x)
      else Panic (UnexpectedToken (text lex))
  end.

(** [func Unmarshal(data []byte, out interface{}) (err error)], on the
    tokens [data] scans to and the variable [out] points to.  [Ok x]: the
    call returns nil and the variable holds [x].  [Panic p]: the deferred
    [recover] caught [p] and the call returns an error. *)
Definition Unmarshal (data : list scanner.lexeme) (out : value) : result value :=
  let lex := mkLexer (scanner.Init data) 0 in
  let lex := next lex in
  '(_, x) <- read (S (List.length data)) lex (Var false out) ;;
  Ok x.

(** Tokens, as the scanner delivers them. *)
Definition tIdent (s : string) := scanner.Lexeme scanner.Ident s.
Definition tInt (s : string) := scanner.Lexeme scanner.Int s.
Definition tFloat (s : string) := scanner.Lexeme scanner.Float s.
Definition tString (s : string) := scanner.Lexeme scanner.String (quoted s).
Definition LP := scanner.Lexeme LParen "(".
Definition RP := scanner.Lexeme RParen ")".

(** The lexer [Unmarshal] hands to [read]: created over [data] and advanced
    once, so that it stands on the first token of [data]. *)
Definition lexer_at (data : list scanner.lexeme) : lexer :=
  next (mkLexer (scanner.Init data) 0).

(* ================================================================== *)
(** ** Auxiliary definitions for the proofs *)

(** The atom cases of [read]: what is stored for a token of class [tok] and
    text [txt] that is not an opening parenthesis. *)
Definition readAtom (tok : Z) (txt : string) (v : Value) : result value :=
  if tok =? scanner.Ident then
    if String.eqb txt "nil" then
      t <- Value_Type v ;; Value_Set v (Zero t)
    else if String.eqb txt "t" then Value_SetBool v true
    else Panic (UnexpectedToken txt)
  else if tok =? scanner.String then Value_SetString v (strconv.Unquote txt)
  else if tok =? scanner.Int then Value_SetInt v (strconv.Atoi txt)
  else if tok =? scanner.Float then Value_SetFloat v (strconv.ParseFloat txt)
  else Panic (UnexpectedToken txt).

(** The number of tokens a lexer has not yet passed, the current one
    included. *)
Definition remaining (lex : lexer) : nat :=
  ((if Z.eqb (token lex) scanner.EOF then 0 else 1)
   + List.length (scanner.pending (scan lex)))%nat.

(** Destinations without a dynamic slot: no [interface{}] anywhere in the
    type, nor in the value it holds. *)
Fixpoint static_type (t : rtype) : bool :=
  match t with
  | TInterface => false
  | TArray _ elem | TSlice elem => static_type elem
  | TStruct fields =>
      (fix go (l : list (string * rtype)) :=
         match l with
         | [] => true
         | (_, u) :: l' => static_type u && go l'
         end) fields
  | TMap key elem => static_type key && static_type elem
  | _ => true
  end.

Fixpoint static (x : value) : bool :=
  match x with
  | VInterface _ => false
  | VArray elem items =>
      static_type elem &&
      (fix go (l : list value) :=
         match l with [] => true | y :: l' => static y && go l' end) items
  | VSlice elem _ => static_type elem
  | VStruct fields =>
      (fix go (l : list (string * value)) :=
         match l with
         | [] => true
         | (_, y) :: l' => static y && go l'
         end) fields
  | VMap key elem _ => static_type key && static_type elem
  | _ => true
  end.

Definition static_Value (v : Value) : bool :=
  match v with
  | ZeroValue => true
  | Var _ x => static x
  end.

(** S-expressions in a token stream, by counting parentheses.
    [close d toks] reads [toks] from inside [d + 1] open lists up to the
    closing parenthesis of the outermost of them and returns what follows
    it; [None] when [toks] ends first.  [skip toks] is what follows the
    first complete s-expression of [toks]: an atom, or a list with its
    matching closing parenthesis; [None] when [toks] is empty, starts with
    a closing parenthesis or ends before the list it opens is closed. *)
Fixpoint close (d : nat) (toks : list scanner.lexeme) : option (list scanner.lexeme) :=
  match toks with
  | [] => None
  | l :: rest =>
      if scanner.tok l =? LParen then close (S d) rest
      else if scanner.tok l =? RParen then
        match d with
        | O => Some rest
        | S d' => close d' rest
        end
      else close d rest
  end.

Definition skip (toks : list scanner.lexeme) : option (list scanner.lexeme) :=
  match toks with
  | [] => None
  | l :: rest =>
      if scanner.tok l =? LParen then close 0 rest
      else if scanner.tok l =? RParen then None
      else Some rest
  end.

(** [reads_exactly rd toks v lex1 x]: the call [rd (lexer_at toks) v], which
    returned [(lex1, x)], read the first s-expression [u] of [toks] and
    nothing else: the lexer is left on what follows [u], and the call
    returns [x] on [u] whatever follows it. *)
Definition reads_exactly (rd : lexer -> Value -> result (lexer * value))
           (toks : list scanner.lexeme) (v : Value) (lex1 : lexer) (x : value) : Prop :=
  exists u rest,
    toks = (u ++ rest)%list /\ u <> [] /\ skip toks = Some rest
    /\ lex1 = lexer_at rest /\ static x = true
    /\ forall rest', rd (lexer_at (u ++ rest')) v = Ok (lexer_at rest', x).

Definition exact_reader (rd : lexer -> Value -> result (lexer * value)) : Prop :=
  forall toks v lex1 x,
    static_Value v = true ->
    rd (lexer_at toks) v = Ok (lex1, x) ->
    reads_exactly rd toks v lex1 x.

(** [loop_exactly loop toks lex1 a]: the list loop [loop], which returned
    [(lex1, a)] on [toks], read the elements [u] up to the closing
    parenthesis [r] of the list and stopped on it, whatever follows it. *)
Definition loop_exactly {A : Type} (loop : lexer -> result (lexer * A))
           (toks : list scanner.lexeme) (lex1 : lexer) (a : A) : Prop :=
  exists u r rest,
    toks = (u ++ r :: rest)%list /\ scanner.tok r = RParen
    /\ close 0 toks = Some rest /\ lex1 = lexer_at (r :: rest)
    /\ forall rest', loop (lexer_at (u ++ r :: rest')) = Ok (lexer_at (r :: rest'), a).

(** [is_sexp toks]: [toks] is exactly one s-expression. *)
Definition is_sexp (toks : list scanner.lexeme) : bool :=
  match skip toks with
  | Some [] => true
  | _ => false
  end.

(** [has_field fields name]: the struct has a field called [name]. *)
Definition has_field {A : Type} (fields : list (string * A)) (name : string) : bool :=
  existsb (fun p => String.eqb (fst p) name) fields.





(** [is_atom a]: the token is not a parenthesis. *)
Definition is_atom (a : scanner.lexeme) : bool :=
  negb (scanner.tok a =? LParen) && negb (scanner.tok a =? RParen).

(** The integers a list of Int tokens with the given texts stands for. *)
Definition ints (texts : list string) : list value :=
  map (fun s => VInt (strconv.Atoi s)) texts.

(** [le_result r r']: [r'] is what [r] is once the recursion bound
    suffices: [r] ran out of fuel or is [r'] itself. *)
Definition le_result {A : Type} (r r' : result A) : Prop :=
  r = OutOfFuel \/ r = r'.

(* ================================================================== *)
(** ** Package [sexpr]: the stream interface *)

Module errors.
(** [errors.New(text)] *)
Inductive error : Type := New (text : string).
End errors.

Module sexpr.
(** [type Token interface{}] with its five concrete types. *)
Inductive Token : Type :=
| Symbol (Value : string)
| String (Value : string)
| Int (Value : Z)
| StartList
| EndList.
End sexpr.

(** [type Decoder struct { lex *lexer }] *)
Record Decoder : Type := mkDecoder { lex : lexer }.

(** [func NewDecoder(r io.Reader) *Decoder], over the tokens the reader's
    text scans to. *)
Definition NewDecoder (data : list scanner.lexeme) : Decoder :=
  mkDecoder (mkLexer (scanner.Init data) 0).

(** [func (d *Decoder) Decode(v interface{}) (err error)].  [Ok (d', x)]: the
    call returns nil, the variable [v] points to holds [x] and the decoder
    is left as [d'].  [Panic p]: the call returns an error (where it leaves
    the decoder is not recorded).  The fuel given to [read] is more than
    the tokens left. *)
Definition Decoder_Decode (d : Decoder) (v : value) : result (Decoder * value) :=
  let lex1 := next (lex d) in
  '(lex2, x) <- read (S (remaining lex1)) lex1 (Var false v) ;;
  Ok (mkDecoder lex2, x).

(** [func (d *Decoder) Token() (Token, error)]: the decoder after the call
    and the pair returned; [Panic] when the call panics (nothing recovers
    it). *)
Definition Decoder_Token (d : Decoder)
  : result (Decoder * (option sexpr.Token * option errors.error)) :=
  let lex1 := next (lex d) in
  let d1 := mkDecoder lex1 in
  if token lex1 =? scanner.Ident then
    Ok (d1, (Some (sexpr.Symbol (text lex1)), None))
  else if token lex1 =? scanner.String then
    let s := strconv.Unquote (text lex1) in
    Ok (d1, (Some (sexpr.String s), None))
  else if token lex1 =? scanner.Int then
    let i := strconv.Atoi (text lex1) in
    Ok (d1, (Some (sexpr.Int i), None))
  else if token lex1 =? LParen then Ok (d1, (Some sexpr.StartList, None))
  else if token lex1 =? RParen then Ok (d1, (Some sexpr.EndList, None))
  else if token lex1 =? scanner.EOF then Ok (d1, (None, Some (errors.New "EOF")))
  else Panic (UnexpectedToken (text lex1)).

(** The pairs returned by [n] successive calls of [Token]. *)
Fixpoint Tokens (n : nat) (d : Decoder)
  : result (list (option sexpr.Token * option errors.error)) :=
  match n with
  | O => Ok []
  | S n' =>
      '(d1, r) <- Decoder_Token d ;;
      rs <- Tokens n' d1 ;;
      Ok (r :: rs)
  end.

(** The classes of token [Token] has a case for, and the [Token] value of
    a lexeme of such a class. *)
Definition tokenizable (l : scanner.lexeme) : bool :=
  (scanner.tok l =? scanner.Ident) || (scanner.tok l =? scanner.String)
  || (scanner.tok l =? scanner.Int) || (scanner.tok l =? LParen)
  || (scanner.tok l =? RParen).

Definition token_of (l : scanner.lexeme) : sexpr.Token :=
  if scanner.tok l =? scanner.Ident then sexpr.Symbol (scanner.lit l)
  else if scanner.tok l =? scanner.String then
    sexpr.String (strconv.Unquote (scanner.lit l))
  else if scanner.tok l =? scanner.Int then
    sexpr.Int (strconv.Atoi (scanner.lit l))
  else if scanner.tok l =? LParen then sexpr.StartList
  else sexpr.EndList.

(** The value a call returns, without the state it leaves. *)
Definition returned {S A : Type} (r : result (S * A)) : result A :=
  p <- r ;; Ok (snd p).

(** The types a descriptor can stand for: the atoms of [atomTypes], slices,
    arrays, and maps whose key type is comparable. *)
Fixpoint described (t : rtype) : bool :=
  match t with
  | TBool | TInt | TUint | TFloat64 | TString => true
  | TArray _ elem | TSlice elem => described elem
  | TMap key elem => comparable key && described key && described elem
  | TStruct _ | TInterface => false
  end.

(** [well_typed x]: the value is one a Go variable of type [TypeOf x] can
    hold: the elements of an array or slice have its element type, the
    keys and elements of a map have its key and element types, and the
    dynamic value of an interface is not itself an interface. *)
Fixpoint well_typed (x : value) : bool :=
  match x with
  | VArray elem items | VSlice elem items =>
      (fix go (l : list value) :=
         match l with
         | [] => true
         | y :: l' => rtype_eqb (TypeOf y) elem && well_typed y && go l'
         end) items
  | VStruct fields =>
      (fix go (l : list (string * value)) :=
         match l with
         | [] => true
         | (_, y) :: l' => well_typed y && go l'
         end) fields
  | VMap key elem (Some m) =>
      (fix go (l : list (value * value)) :=
         match l with
         | [] => true
         | (k, e) :: l' =>
             rtype_eqb (TypeOf k) key && well_typed k
             && rtype_eqb (TypeOf e) elem && well_typed e && go l'
         end) m
  | VInterface (Some y) =>
      negb (rtype_eqb (TypeOf y) TInterface) && well_typed y
  | _ => true
  end.

(** [keeps_type v x]: storing [x] where [v] was keeps the variable's type
    and, when [v] was well typed, leaves a well-typed value. *)
Definition keeps_type (v x : value) : Prop :=
  TypeOf x = TypeOf v /\ (well_typed v = true -> well_typed x = true).

Definition elem_ok (elem : rtype) (y : value) : bool :=
  rtype_eqb (TypeOf y) elem && well_typed y.

Definition entry_ok (key elem : rtype) (p : value * value) : bool :=
  elem_ok key (fst p) && elem_ok elem (snd p).

Definition keeps_field (p q : string * value) : Prop :=
  fst p = fst q /\ keeps_type (snd p) (snd q).

(** [decode_each es vs xs]: the s-expressions [es], decoded one by one
    into the variables [vs], give the values [xs]. *)
Fixpoint decode_each (es : list (list scanner.lexeme)) (vs xs : list value) : Prop :=
  match es, vs, xs with
  | [], [], [] => True
  | e :: es', v :: vs', x :: xs' => Unmarshal e v = Ok x /\ decode_each es' vs' xs'
  | _, _, _ => False
  end.

(** The tokens of the map entry [(key value)], and the map that results
    from storing the pairs [kvs] in order into an empty one. *)
Definition pair_tokens (p : list scanner.lexeme * list scanner.lexeme)
  : list scanner.lexeme :=
  (LP :: fst p ++ snd p ++ [RP])%list.

Definition store_all (kvs m : list (value * value)) : list (value * value) :=
  fold_left (fun acc kv => map_store (fst kv) (snd kv) acc) kvs m.

(** [float_free t]: no [float64] anywhere in the type. *)
Fixpoint float_free (t : rtype) : bool :=
  match t with
  | TFloat64 => false
  | TArray _ elem | TSlice elem => float_free elem
  | TStruct fields =>
      (fix go (l : list (string * rtype)) :=
         match l with
         | [] => true
         | (_, u) :: l' => float_free u && go l'
         end) fields
  | TMap key elem => float_free key && float_free elem
  | _ => true
  end.

(* ================================================================== *)
(** * Properties *)

(** ** The lexer *)

Lemma lexer_at_cons (l : scanner.lexeme) (rest : list scanner.lexeme) :
  lexer_at (l :: rest) =
  mkLexer (scanner.mkScanner rest (scanner.lit l)) (scanner.tok l).
Proof. reflexivity. Qed.

Lemma lexer_at_nil :
  lexer_at [] = mkLexer (scanner.mkScanner [] "") scanner.EOF.
Proof. reflexivity. Qed.

Lemma next_lexer_at (l : scanner.lexeme) (rest : list scanner.lexeme) :
  next (lexer_at (l :: rest)) = lexer_at rest.
Proof. destruct rest; reflexivity. Qed.

Lemma next_lexer_at_nil : next (lexer_at []) = lexer_at [].
Proof. reflexivity. Qed.

Lemma token_lexer_at (l : scanner.lexeme) (rest : list scanner.lexeme) :
  token (lexer_at (l :: rest)) = scanner.tok l.
Proof. reflexivity. Qed.

Lemma text_lexer_at (l : scanner.lexeme) (rest : list scanner.lexeme) :
  text (lexer_at (l :: rest)) = scanner.lit l.
Proof. reflexivity. Qed.

Lemma Unmarshal_read (data : list scanner.lexeme) (out : value) :
  Unmarshal data out =
  ('(_, x) <- read (S (List.length data)) (lexer_at data) (Var false out) ;; Ok x).
Proof. reflexivity. Qed.

(** ** The result monad *)

Lemma bind_Ok {A B : Type} (m : result A) (k : A -> result B) (b : B) :
  bind m k = Ok b -> exists a, m = Ok a /\ k a = Ok b.
Proof. destruct m; simpl; intros H; try discriminate; eauto. Qed.

Lemma bind_not_Ok {A B : Type} (m : result A) (k : A -> result B) :
  (forall a, m <> Ok a) -> forall b, bind m k <> Ok b.
Proof. intros H b Hb. apply bind_Ok in Hb as (a & Ha & _). exact (H a Ha). Qed.

Lemma bind_OutOfFuel {A B : Type} (m : result A) (k : A -> result B) :
  bind m k = OutOfFuel ->
  m = OutOfFuel \/ exists a, m = Ok a /\ k a = OutOfFuel.
Proof. destruct m; simpl; intros H; try discriminate; eauto. Qed.

Tactic Notation "bind_inv" hyp(H) "as" simple_intropattern(a) ident(Ha) :=
  apply bind_Ok in H as (a & Ha & H).

Tactic Notation "fuel_step" hyp(H) "as" simple_intropattern(a) ident(Ha) :=
  apply bind_OutOfFuel in H as [H | (a & Ha & H)].

(** ** Library functions on sample inputs *)

Example Atoi_42 : strconv.Atoi "42" = 42.
Proof. reflexivity. Qed.

Example Atoi_bad : strconv.Atoi "0x1F" = 0.
Proof. reflexivity. Qed.

Example Unquote_plain : strconv.Unquote (quoted "map[string]int") = "map[string]int".
Proof. reflexivity. Qed.

Example Unquote_bare : strconv.Unquote "int" = "".
Proof. reflexivity. Qed.

Example Unquote_escape :
  strconv.Unquote (String dquote ("a\tb\x41" ++ String dquote "")) =
  String "a" (String "009" (String "b" (String "A" ""))).
Proof. reflexivity. Qed.

(** ** Unfolding the reader on the token it stands on *)

Lemma endList_at (l : scanner.lexeme) (rest : list scanner.lexeme) :
  endList (lexer_at (l :: rest)) =
  if scanner.tok l =? scanner.EOF then Panic EndOfFile
  else if scanner.tok l =? RParen then Ok true else Ok false.
Proof. reflexivity. Qed.

Lemma endList_at_nil : endList (lexer_at []) = Panic EndOfFile.
Proof. reflexivity. Qed.

Lemma endList_at_RParen (r : scanner.lexeme) (rest : list scanner.lexeme) :
  scanner.tok r = RParen -> endList (lexer_at (r :: rest)) = Ok true.
Proof. intros H. rewrite endList_at, H. reflexivity. Qed.

Lemma consume_at (l : scanner.lexeme) (rest : list scanner.lexeme) (want : Z) :
  consume (lexer_at (l :: rest)) want =
  if negb (scanner.tok l =? want) then Panic (GotWant (scanner.lit l) want)
  else Ok (lexer_at rest).
Proof.
  unfold consume. rewrite token_lexer_at, text_lexer_at, next_lexer_at.
  reflexivity.
Qed.

Lemma read_LParen (fuel : nat) (l : scanner.lexeme) (rest : list scanner.lexeme)
      (v : Value) :
  scanner.tok l = LParen ->
  read (S fuel) (lexer_at (l :: rest)) v =
  ('(lex2, x) <- readList (read fuel) fuel (lexer_at rest) v ;; Ok (next lex2, x)).
Proof.
  intros H. cbn [read]. rewrite token_lexer_at, next_lexer_at, H. reflexivity.
Qed.

Lemma read_Int (fuel : nat) (s : string) (rest : list scanner.lexeme) (v : Value) :
  read (S fuel) (lexer_at (tInt s :: rest)) v =
  (x <- Value_SetInt v (strconv.Atoi s) ;; Ok (lexer_at rest, x)).
Proof.
  cbn [read]. rewrite token_lexer_at, text_lexer_at, next_lexer_at. reflexivity.
Qed.

(** ** Sequences keep the order of the input (C9) *)

Lemma readSlice_ints (texts : list string) :
  forall (n fuel : nat) (items : list value) (r : scanner.lexeme)
         (rest : list scanner.lexeme),
    scanner.tok r = RParen ->
    (List.length texts < n)%nat ->
    readSlice (read (S fuel)) n false TInt
              (lexer_at (map tInt texts ++ r :: rest)) items =
    Ok (lexer_at (r :: rest), (items ++ ints texts)%list).
Proof.
  induction texts as [|s texts IH]; intros n fuel items r rest Hr Hn;
    destruct n as [|n]; try (simpl in Hn; lia).
  - cbn [readSlice map app]. rewrite endList_at_RParen by assumption.
    cbn [bind]. now rewrite app_nil_r.
  - cbn [readSlice map app]. rewrite endList_at. cbn [tInt scanner.tok].
    cbn [bind Z.eqb scanner.Int scanner.EOF RParen].
    rewrite read_Int. cbn [Zero Value_SetInt mustBeAssignable bind Append].
    rewrite IH by (assumption || (simpl in Hn; lia)).
    unfold ints. cbn [map]. now rewrite <- app_assoc.
Qed.

(** C9. Decoding a list of integer tokens into an empty [[]int] yields the
    integers in the order of the input: the n-th element of the result is
    the n-th token read with [strconv.Atoi]; [(1 2 3)] yields [[1, 2, 3]]. *)
Theorem slice_preserves_order :
  (forall (texts : list string) (rest : list scanner.lexeme),
      Unmarshal (LP :: map tInt texts ++ RP :: rest) (VSlice TInt []) =
      Ok (VSlice TInt (ints texts)))
  /\ Unmarshal [LP; tInt "1"; tInt "2"; tInt "3"; RP] (VSlice TInt []) =
     Ok (VSlice TInt [VInt 1; VInt 2; VInt 3]).
Proof.
  split; [|reflexivity].
  intros texts rest. rewrite Unmarshal_read.
  cbn [List.length]. rewrite read_LParen by reflexivity.
  cbn [readList]. rewrite length_app. cbn [List.length].
  replace (List.length (map tInt texts) + S (List.length rest))%nat
    with (S (List.length (map tInt texts) + List.length rest))%nat by lia.
  rewrite readSlice_ints; [reflexivity | reflexivity |].
  rewrite length_map. lia.
Qed.

(** ** Dynamic slots (C1) *)

(** C1. Into an interface variable, the input [("[]int" (1 2 3))] decodes
    to the slice [[1, 2, 3]] of ints and the input
    [("map[string]int" (("a" 1) ("b" 2)))] to the map [{"a": 1, "b": 2}]:
    the descriptor is resolved by [asType], the value that follows is read
    into a fresh variable of that type, and the result is stored in the
    interface, whatever the interface held before. *)
Theorem dynamic_slot_examples :
  forall old : option value,
    Unmarshal [LP; tString "[]int"; LP; tInt "1"; tInt "2"; tInt "3"; RP; RP]
              (VInterface old) =
    Ok (VInterface (Some (VSlice TInt [VInt 1; VInt 2; VInt 3])))
    /\
    Unmarshal [LP; tString "map[string]int";
               LP; LP; tString "a"; tInt "1"; RP;
                   LP; tString "b"; tInt "2"; RP; RP; RP]
              (VInterface old) =
    Ok (VInterface
          (Some (VMap TString TInt
                   (Some [(VString "a", VInt 1); (VString "b", VInt 2)])))).
Proof. intros old. split; reflexivity. Qed.

(** ** Map descriptors with a composite key (C2) *)

(** C2. [asType] cuts the key of a map descriptor at the first ']' of the
    whole descriptor, not at the bracket that matches the first '[': on
    ["map[[2]int]string"], whose key ["[2]int"] and element ["string"] are
    both valid descriptors, the key is cut to ["[2"] and the call panics
    instead of returning [map[[2]int]string]. *)
Theorem asType_composite_key :
  asType "[2]int" = Ok (TArray 2 TInt)
  /\ asType "string" = Ok TString
  /\ MapOf (TArray 2 TInt) TString = Ok (TMap (TArray 2 TInt) TString)
  /\ slice "map[[2]int]string"
           (strings.IndexRune "map[[2]int]string" "[" + 1)
           (strings.IndexRune "map[[2]int]string" "]") = Ok "[2"
  /\ asType "map[[2]int]string" = Panic SliceBoundsOutOfRange.
Proof. repeat split; reflexivity. Qed.

(** ** The token after a list body (C3) *)

Section ListEnd.

Variable rd : lexer -> Value -> result (lexer * value).

Lemma readArray_ends :
  forall n ro lex i items lex1 items1,
    readArray rd n ro lex i items = Ok (lex1, items1) -> endList lex1 = Ok true.
Proof.
  induction n as [|n IH]; intros ro lex i items lex1 items1 H; [discriminate|].
  cbn [readArray] in H. destruct (endList lex) as [[|]| |] eqn:Hs;
    cbn [bind] in H; try discriminate.
  - now inversion H; subst.
  - destruct (Value_Index ro items i); cbn [bind] in H; try discriminate.
    destruct (rd lex a) as [[lex2 x]| |]; cbn [bind] in H; try discriminate.
    exact (IH _ _ _ _ _ _ H).
Qed.

Lemma readSlice_ends :
  forall n ro elem lex items lex1 items1,
    readSlice rd n ro elem lex items = Ok (lex1, items1) -> endList lex1 = Ok true.
Proof.
  induction n as [|n IH]; intros ro elem lex items lex1 items1 H; [discriminate|].
  cbn [readSlice] in H. destruct (endList lex) as [[|]| |] eqn:Hs;
    cbn [bind] in H; try discriminate.
  - now inversion H; subst.
  - destruct (rd lex _) as [[lex2 x]| |]; cbn [bind] in H; try discriminate.
    destruct (Append ro items x); cbn [bind] in H; try discriminate.
    exact (IH _ _ _ _ _ _ H).
Qed.

Lemma readStruct_ends :
  forall n ro lex fields lex1 fields1,
    readStruct rd n ro lex fields = Ok (lex1, fields1) -> endList lex1 = Ok true.
Proof.
  induction n as [|n IH]; intros ro lex fields lex1 fields1 H; [discriminate|].
  cbn [readStruct] in H. destruct (endList lex) as [[|]| |] eqn:Hs;
    cbn [bind] in H; try discriminate.
  - now inversion H; subst.
  - destruct (consume lex LParen) as [lexa| |]; cbn [bind] in H;
      try discriminate.
    destruct (negb _); [discriminate|].
    destruct (rd _ _) as [[lex3 x]| |]; cbn [bind] in H; try discriminate.
    destruct (consume lex3 RParen); cbn [bind] in H; try discriminate.
    exact (IH _ _ _ _ _ H).
Qed.

Lemma readMap_ends :
  forall n key elem lex m lex1 m1,
    readMap rd n key elem lex m = Ok (lex1, m1) -> endList lex1 = Ok true.
Proof.
  induction n as [|n IH]; intros key elem lex m lex1 m1 H; [discriminate|].
  cbn [readMap] in H. destruct (endList lex) as [[|]| |] eqn:Hs;
    cbn [bind] in H; try discriminate.
  - now inversion H; subst.
  - destruct (consume lex LParen) as [lexa| |]; cbn [bind] in H;
      try discriminate.
    destruct (rd lexa _) as [[lex2 k]| |]; cbn [bind] in H; try discriminate.
    destruct (rd lex2 _) as [[lex3 e]| |]; cbn [bind] in H; try discriminate.
    destruct (SetMapIndex m k e); cbn [bind] in H; try discriminate.
    destruct (consume lex3 RParen); cbn [bind] in H; try discriminate.
    exact (IH _ _ _ _ _ _ H).
Qed.

(** For every kind of destination but the interface one, the token
    [readList] stops on is the closing parenthesis. *)
Lemma readList_ends (n : nat) (lex : lexer) (v : Value) (lex1 : lexer) (x : value) :
  Value_Kind v <> reflect.Interface ->
  readList rd n lex v = Ok (lex1, x) -> token lex1 = RParen.
Proof.
  intros Hk H.
  assert (He : endList lex1 = Ok true).
  { destruct v as [|ro []]; cbn [readList] in H; try discriminate.
    - bind_inv H as [lex2 ys] Hl. inversion H; subst.
      exact (readArray_ends _ _ _ _ _ _ _ Hl).
    - bind_inv H as [lex2 ys] Hl. inversion H; subst.
      exact (readSlice_ends _ _ _ _ _ _ _ Hl).
    - bind_inv H as [lex2 ys] Hl. inversion H; subst.
      exact (readStruct_ends _ _ _ _ _ _ Hl).
    - bind_inv H as y Hset. bind_inv H as [lex2 ys] Hl. inversion H; subst.
      exact (readMap_ends _ _ _ _ _ _ _ Hl).
    - now destruct Hk. }
  unfold endList in He.
  destruct (token lex1 =? scanner.EOF); [discriminate|].
  destruct (token lex1 =? RParen) eqn:E; [|discriminate].
  now apply Z.eqb_eq.
Qed.

End ListEnd.

(** C3. After the body of a list [read] advances with [lex.next()] without
    looking at the token.  For an array, slice, struct or map the body ends
    where [endList] saw the closing parenthesis, so that is the token
    passed ([readList_ends]).  For a dynamic slot the body is the
    descriptor and one value, read without [endList], and whatever token
    follows them is passed unseen: the input [("int" 1 2)] decodes without
    error to 1, and so does the same input with any other token in the
    place of [2]. *)
Theorem interface_skips_token_after_body :
  Unmarshal [LP; tString "int"; tInt "1"; tInt "2"; RP] (VInterface None) =
  Ok (VInterface (Some (VInt 1)))
  /\
  forall (extra : scanner.lexeme) (rest : list scanner.lexeme),
    Unmarshal (LP :: tString "int" :: tInt "1" :: extra :: rest)
              (VInterface None) =
    Ok (VInterface (Some (VInt 1))).
Proof. split; [reflexivity|]. intros extra rest. reflexivity. Qed.

(** ** Decoding into a slice that already has elements (C4) *)

Lemma readSlice_prior (rd : lexer -> Value -> result (lexer * value))
      (elem : rtype) (old : list value) :
  forall (n : nat) (ro : bool) (lex : lexer) (acc : list value),
    readSlice rd n ro elem lex (old ++ acc)%list =
    ('(lex1, xs) <- readSlice rd n ro elem lex acc ;; Ok (lex1, (old ++ xs)%list)).
Proof.
  induction n as [|n IH]; intros ro lex acc; [reflexivity|].
  cbn [readSlice]. destruct (endList lex) as [[|]| |]; cbn [bind]; try reflexivity.
  destruct (rd lex (Var false (Zero elem))) as [[lex1 x]| |]; cbn [bind];
    try reflexivity.
  destruct ro; cbn [Append bind]; [reflexivity|].
  rewrite <- app_assoc. apply IH.
Qed.

(** C4 (as the code has it). Decoding a list into a slice variable appends
    to the elements the variable already holds: the result is the prior
    elements followed by what the same input yields on an empty slice. *)
Theorem slice_appends_to_prior (elem : rtype) (old xs : list value)
        (body : list scanner.lexeme) :
  Unmarshal (LP :: body) (VSlice elem []) = Ok (VSlice elem xs) ->
  Unmarshal (LP :: body) (VSlice elem old) = Ok (VSlice elem (old ++ xs)%list).
Proof.
  rewrite !Unmarshal_read. cbn [List.length].
  rewrite !read_LParen by reflexivity. cbn [readList].
  rewrite <- (app_nil_r old) at 1. rewrite readSlice_prior.
  destruct (readSlice _ _ _ _ _ []) as [[lex1 ys]| |]; cbn [bind];
    intros H; try discriminate.
  now inversion H.
Qed.

(** An instance: [(1 2 3)] into a slice holding [[9]]. *)
Lemma slice_appends_to_prior_witness :
  Unmarshal [LP; tInt "1"; tInt "2"; tInt "3"; RP] (VSlice TInt [VInt 9]) =
  Ok (VSlice TInt [VInt 9; VInt 1; VInt 2; VInt 3]).
Proof.
  apply (slice_appends_to_prior TInt [VInt 9] [VInt 1; VInt 2; VInt 3]
           [tInt "1"; tInt "2"; tInt "3"; RP]).
  reflexivity.
Defined.

(** C4 fails as stated: the result of decoding [(1 2 3)] depends on what
    the slice held before the call. *)
Lemma slice_not_independent_of_prior :
  Unmarshal [LP; tInt "1"; tInt "2"; tInt "3"; RP] (VSlice TInt [VInt 9]) =
  Ok (VSlice TInt [VInt 9; VInt 1; VInt 2; VInt 3])
  /\ Unmarshal [LP; tInt "1"; tInt "2"; tInt "3"; RP] (VSlice TInt []) =
     Ok (VSlice TInt [VInt 1; VInt 2; VInt 3]).
Proof. split; reflexivity. Qed.

(** ** The atoms [nil] and [t] (C7) *)

Lemma Value_Set_Zero (x : value) :
  Value_Set (Var false x) (Zero (TypeOf x)) = Ok (Zero (TypeOf x)).
Proof. destruct x; reflexivity. Qed.

(** C7. On the identifier [nil], [read] stores the zero value of the
    destination's type, whatever the type; on the identifier [t] it stores
    [true] in a bool destination; both leave the lexer on the next
    token. *)
Theorem read_nil_and_t :
  (forall (fuel : nat) (rest : list scanner.lexeme) (x : value),
      read (S fuel) (lexer_at (tIdent "nil" :: rest)) (Var false x) =
      Ok (lexer_at rest, Zero (TypeOf x)))
  /\ (forall (fuel : nat) (rest : list scanner.lexeme) (b : bool),
         read (S fuel) (lexer_at (tIdent "t" :: rest)) (Var false (VBool b)) =
         Ok (lexer_at rest, VBool true))
  /\ (forall (rest : list scanner.lexeme) (x : value),
         Unmarshal (tIdent "nil" :: rest) x = Ok (Zero (TypeOf x)))
  /\ (forall (rest : list scanner.lexeme) (b : bool),
         Unmarshal (tIdent "t" :: rest) (VBool b) = Ok (VBool true)).
Proof.
  assert (Hnil : forall fuel rest x,
             read (S fuel) (lexer_at (tIdent "nil" :: rest)) (Var false x) =
             Ok (lexer_at rest, Zero (TypeOf x))).
  { intros fuel rest x. cbn [read].
    rewrite token_lexer_at, text_lexer_at, next_lexer_at.
    cbn [tIdent scanner.tok scanner.lit Value_Type bind].
    change (scanner.Ident =? scanner.Ident) with true. cbv iota.
    change ("nil" =? "nil")%string with true. cbv iota.
    now rewrite Value_Set_Zero. }
  assert (Ht : forall fuel rest b,
             read (S fuel) (lexer_at (tIdent "t" :: rest)) (Var false (VBool b)) =
             Ok (lexer_at rest, VBool true)).
  { intros fuel rest b. cbn [read].
    rewrite token_lexer_at, text_lexer_at, next_lexer_at. reflexivity. }
  split; [exact Hnil|]. split; [exact Ht|]. split.
  - intros rest x. rewrite Unmarshal_read, Hnil. reflexivity.
  - intros rest b. rewrite Unmarshal_read, Ht. reflexivity.
Qed.

(** ** [read] as a choice between a list and an atom *)

Lemma read_unfold (fuel : nat) (lex : lexer) (v : Value) :
  read (S fuel) lex v =
  if token lex =? LParen then
    '(lex2, x) <- readList (read fuel) fuel (next lex) v ;; Ok (next lex2, x)
  else
    x <- readAtom (token lex) (text lex) v ;; Ok (next lex, x).
Proof.
  cbn [read]. unfold readAtom.
  destruct (token lex =? LParen) eqn:E.
  - apply Z.eqb_eq in E. rewrite E. reflexivity.
  - destruct (token lex =? scanner.Ident).
    { destruct (text lex =? "nil")%string.
      - destruct (Value_Type v); cbn [bind]; try reflexivity.
      - destruct (text lex =? "t")%string; reflexivity. }
    destruct (token lex =? scanner.String); [reflexivity|].
    destruct (token lex =? scanner.Int); [reflexivity|].
    destruct (token lex =? scanner.Float); reflexivity.
Qed.

Lemma readAtom_EOF (txt : string) (v : Value) :
  readAtom scanner.EOF txt v = Panic (UnexpectedToken txt).
Proof. reflexivity. Qed.

Lemma readAtom_RParen (txt : string) (v : Value) :
  readAtom RParen txt v = Panic (UnexpectedToken txt).
Proof. reflexivity. Qed.

Lemma readAtom_not_OutOfFuel (tok : Z) (txt : string) (v : Value) :
  readAtom tok txt v <> OutOfFuel.
Proof.
  unfold readAtom.
  repeat match goal with
         | |- context [if ?b then _ else _] => destruct b
         end;
    destruct v as [|[|] []]; discriminate.
Qed.

Lemma readAtom_ZeroValue (tok : Z) (txt : string) :
  exists p, readAtom tok txt ZeroValue = Panic p.
Proof.
  unfold readAtom.
  repeat match goal with
         | |- context [if ?b then _ else _] => destruct b
         end; eexists; reflexivity.
Qed.

(** ** Termination: [Unmarshal] never runs out of fuel *)

Lemma length_substring_le (s : string) :
  forall n m : nat, (String.length (substring n m s) <= m)%nat.
Proof.
  induction s as [|c s IH]; intros [|n] [|m]; simpl; try lia.
  - specialize (IH 0%nat m). lia.
  - apply IH.
  - apply IH.
Qed.

Lemma slice_length (s r : string) (lo hi : Z) :
  slice s lo hi = Ok r ->
  0 <= lo /\ lo <= hi /\ hi <= Z.of_nat (String.length s)
  /\ Z.of_nat (String.length r) <= hi - lo.
Proof.
  unfold slice.
  destruct (0 <=? lo) eqn:E1; [|discriminate].
  destruct (lo <=? hi) eqn:E2; [|discriminate].
  destruct (hi <=? Z.of_nat (String.length s)) eqn:E3; [|discriminate].
  cbn [andb]. intros H. inversion H; subst.
  pose proof (length_substring_le s (Z.to_nat lo) (Z.to_nat (hi - lo))).
  lia.
Qed.

Lemma slice_not_OutOfFuel (s : string) (lo hi : Z) : slice s lo hi <> OutOfFuel.
Proof. unfold slice. destruct (_ && _); discriminate. Qed.

Lemma asType_rec_total :
  forall (n : nat) (typ : string),
    (String.length typ < n)%nat -> asType_rec n typ <> OutOfFuel.
Proof.
  induction n as [|n IH]; intros typ Hn; [lia|].
  cbn [asType_rec].
  destruct (lookup atomTypes typ); [discriminate|].
  destruct (strings.HasPrefix typ "[]").
  - unfold slice_from.
    destruct (slice typ 2 _) as [rest| |] eqn:Hs; cbn [bind]; try discriminate.
    2:{ now apply slice_not_OutOfFuel in Hs. }
    apply slice_length in Hs.
    destruct (asType_rec n rest) eqn:Hr; cbn [bind]; try discriminate.
    exfalso. revert Hr. apply IH. lia.
  - destruct (first_byte typ) as [c| |] eqn:Hc; cbn [bind]; try discriminate.
    2:{ destruct typ; discriminate. }
    destruct (Ascii.eqb c "[").
    + destruct (slice typ (0 + 1) _) as [ds| |] eqn:Hd; cbn [bind];
        try discriminate.
      2:{ now apply slice_not_OutOfFuel in Hd. }
      unfold slice_from.
      destruct (slice typ (strings.IndexRune typ "]" + 1) _) as [el| |] eqn:He;
        cbn [bind]; try discriminate.
      2:{ now apply slice_not_OutOfFuel in He. }
      apply slice_length in Hd. apply slice_length in He.
      destruct (asType_rec n el) eqn:Hr; cbn [bind].
      * unfold ArrayOf. destruct (_ <? 0); [discriminate|].
        destruct (_ && _); discriminate.
      * discriminate.
      * exfalso. revert Hr. apply IH. lia.
    + destruct (strings.HasPrefix typ "map"); [|discriminate].
      destruct (slice typ _ _) as [ks| |] eqn:Hk; cbn [bind]; try discriminate.
      2:{ now apply slice_not_OutOfFuel in Hk. }
      unfold slice_from.
      destruct (slice typ (_ + 1) (Z.of_nat _)) as [el| |] eqn:He; cbn [bind];
        try discriminate.
      2:{ now apply slice_not_OutOfFuel in He. }
      apply slice_length in Hk. apply slice_length in He.
      destruct (asType_rec n ks) eqn:Hr1; cbn [bind]; try discriminate.
      2:{ exfalso. revert Hr1. apply IH. lia. }
      destruct (asType_rec n el) eqn:Hr2; cbn [bind]; try discriminate.
      2:{ exfalso. revert Hr2. apply IH. lia. }
      unfold MapOf. destruct (comparable _); discriminate.
Qed.

Lemma asType_total (typ : string) : asType typ <> OutOfFuel.
Proof. apply asType_rec_total. lia. Qed.

Lemma remaining_next_le (lex : lexer) : (remaining (next lex) <= remaining lex)%nat.
Proof.
  destruct lex as [[pend txt] tk]. unfold next, remaining. cbn.
  destruct pend as [|l rest]; cbn.
  - destruct (tk =? scanner.EOF); lia.
  - destruct (scanner.tok l =? scanner.EOF), (tk =? scanner.EOF); lia.
Qed.

Lemma remaining_next_lt (lex : lexer) :
  token lex <> scanner.EOF -> (remaining (next lex) < remaining lex)%nat.
Proof.
  destruct lex as [[pend txt] tk]. unfold next, remaining. cbn.
  intros H. apply Z.eqb_neq in H. rewrite H.
  destruct pend as [|l rest]; cbn; [lia|].
  destruct (scanner.tok l =? scanner.EOF); lia.
Qed.

Lemma consume_progress (lex lex1 : lexer) (want : Z) :
  consume lex want = Ok lex1 -> (remaining lex1 <= remaining lex)%nat.
Proof.
  unfold consume. destruct (negb _); intros H; inversion H.
  apply remaining_next_le.
Qed.

Lemma endList_not_OutOfFuel (lex : lexer) : endList lex <> OutOfFuel.
Proof.
  unfold endList. destruct (_ =? scanner.EOF); [discriminate|].
  destruct (_ =? RParen); discriminate.
Qed.

Lemma consume_not_OutOfFuel (lex : lexer) (want : Z) : consume lex want <> OutOfFuel.
Proof. unfold consume. destruct (negb _); discriminate. Qed.

Section LoopTermination.

Variable rd : lexer -> Value -> result (lexer * value).
Variable bound : nat.

Hypothesis rd_progress :
  forall lex v lex1 x,
    rd lex v = Ok (lex1, x) -> (remaining lex1 < remaining lex)%nat.

Hypothesis rd_total :
  forall lex v, (remaining lex < bound)%nat -> rd lex v <> OutOfFuel.

Lemma readArray_progress :
  forall n ro lex i items lex1 items1,
    readArray rd n ro lex i items = Ok (lex1, items1) ->
    (remaining lex1 <= remaining lex)%nat.
Proof.
  induction n as [|n IH]; intros ro lex i items lex1 items1 H;
    [discriminate|].
  cbn [readArray] in H. bind_inv H as stop Hs. destruct stop.
  - inversion H; subst. lia.
  - bind_inv H as slot Hslot. bind_inv H as [lex2 x] Hrd.
    apply rd_progress in Hrd. apply IH in H. lia.
Qed.

Lemma readSlice_progress :
  forall n ro elem lex items lex1 items1,
    readSlice rd n ro elem lex items = Ok (lex1, items1) ->
    (remaining lex1 <= remaining lex)%nat.
Proof.
  induction n as [|n IH]; intros ro elem lex items lex1 items1 H;
    [discriminate|].
  cbn [readSlice] in H. bind_inv H as stop Hs. destruct stop.
  - inversion H; subst. lia.
  - bind_inv H as [lex2 x] Hrd. bind_inv H as items2 Happ.
    apply rd_progress in Hrd. apply IH in H. lia.
Qed.

Lemma readStruct_progress :
  forall n ro lex fields lex1 fields1,
    readStruct rd n ro lex fields = Ok (lex1, fields1) ->
    (remaining lex1 <= remaining lex)%nat.
Proof.
  induction n as [|n IH]; intros ro lex fields lex1 fields1 H;
    [discriminate|].
  cbn [readStruct] in H. bind_inv H as stop Hs. destruct stop.
  - inversion H; subst. lia.
  - bind_inv H as lexa Hc1. destruct (negb _); [discriminate|].
    bind_inv H as [lex3 x] Hrd. bind_inv H as lex4 Hc2.
    apply consume_progress in Hc1, Hc2. apply rd_progress in Hrd.
    pose proof (remaining_next_le lexa). apply IH in H. lia.
Qed.

Lemma readMap_progress :
  forall n key elem lex m lex1 m1,
    readMap rd n key elem lex m = Ok (lex1, m1) ->
    (remaining lex1 <= remaining lex)%nat.
Proof.
  induction n as [|n IH]; intros key elem lex m lex1 m1 H; [discriminate|].
  cbn [readMap] in H. bind_inv H as stop Hs. destruct stop.
  - inversion H; subst. lia.
  - bind_inv H as lexa Hc1. bind_inv H as [lex2 k] Hk.
    bind_inv H as [lex3 e] He. bind_inv H as m2 Hm. bind_inv H as lex4 Hc2.
    apply consume_progress in Hc1, Hc2. apply rd_progress in Hk, He.
    apply IH in H. lia.
Qed.

Lemma readList_progress :
  forall n lex v lex1 x,
    readList rd n lex v = Ok (lex1, x) ->
    (remaining lex1 <= remaining lex)%nat.
Proof.
  intros n lex v lex1 x H. destruct v as [|ro []]; cbn [readList] in H;
    try discriminate.
  - bind_inv H as [lex2 ys] Hl. inversion H; subst.
    eapply readArray_progress; eauto.
  - bind_inv H as [lex2 ys] Hl. inversion H; subst.
    eapply readSlice_progress; eauto.
  - bind_inv H as [lex2 ys] Hl. inversion H; subst.
    eapply readStruct_progress; eauto.
  - bind_inv H as y Hset. bind_inv H as [lex2 ys] Hl. inversion H; subst.
    eapply readMap_progress; eauto.
  - bind_inv H as typ Htyp. bind_inv H as [lex2 y] Hrd. bind_inv H as z Hset.
    inversion H; subst. apply rd_progress in Hrd.
    pose proof (remaining_next_le lex). lia.
Qed.

Lemma readArray_total :
  forall n ro lex i items,
    (remaining lex < n)%nat -> (remaining lex < bound)%nat ->
    readArray rd n ro lex i items <> OutOfFuel.
Proof.
  induction n as [|n IH]; intros ro lex i items Hn Hb H; [lia|].
  cbn [readArray] in H.
  fuel_step H as stop Hs; [now apply endList_not_OutOfFuel in H|].
  destruct stop; [discriminate|].
  fuel_step H as slot Hslot.
  { unfold Value_Index in H. destruct (nth_error _ _); discriminate. }
  fuel_step H as [lex1 y] Hrd; [now apply rd_total in H|].
  apply rd_progress in Hrd.
  revert H. apply IH; lia.
Qed.

Lemma readSlice_total :
  forall n ro elem lex items,
    (remaining lex < n)%nat -> (remaining lex < bound)%nat ->
    readSlice rd n ro elem lex items <> OutOfFuel.
Proof.
  induction n as [|n IH]; intros ro elem lex items Hn Hb H; [lia|].
  cbn [readSlice] in H.
  fuel_step H as stop Hs; [now apply endList_not_OutOfFuel in H|].
  destruct stop; [discriminate|].
  fuel_step H as [lex1 y] Hrd; [now apply rd_total in H|].
  apply rd_progress in Hrd.
  fuel_step H as items1 Happ. { destruct ro; discriminate. }
  revert H. apply IH; lia.
Qed.

Lemma readStruct_total :
  forall n ro lex fields,
    (remaining lex < n)%nat -> (remaining lex < bound)%nat ->
    readStruct rd n ro lex fields <> OutOfFuel.
Proof.
  induction n as [|n IH]; intros ro lex fields Hn Hb H; [lia|].
  cbn [readStruct] in H.
  fuel_step H as stop Hs; [now apply endList_not_OutOfFuel in H|].
  destruct stop; [discriminate|].
  fuel_step H as lexa Hc1; [now apply consume_not_OutOfFuel in H|].
  destruct (negb _); [discriminate|].
  apply consume_progress in Hc1. pose proof (remaining_next_le lexa).
  fuel_step H as [lex3 y] Hrd; [apply rd_total in H; [easy|lia]|].
  apply rd_progress in Hrd.
  fuel_step H as lex4 Hc2; [now apply consume_not_OutOfFuel in H|].
  apply consume_progress in Hc2.
  revert H. apply IH; lia.
Qed.

Lemma readMap_total :
  forall n key elem lex m,
    (remaining lex < n)%nat -> (remaining lex < bound)%nat ->
    readMap rd n key elem lex m <> OutOfFuel.
Proof.
  induction n as [|n IH]; intros key elem lex m Hn Hb H; [lia|].
  cbn [readMap] in H.
  fuel_step H as stop Hs; [now apply endList_not_OutOfFuel in H|].
  destruct stop; [discriminate|].
  fuel_step H as lexa Hc1; [now apply consume_not_OutOfFuel in H|].
  apply consume_progress in Hc1.
  fuel_step H as [lex2 k] Hk; [apply rd_total in H; [easy|lia]|].
  apply rd_progress in Hk.
  fuel_step H as [lex3 e] He; [apply rd_total in H; [easy|lia]|].
  apply rd_progress in He.
  fuel_step H as m1 Hm.
  { unfold SetMapIndex in H. destruct (hashable k); discriminate. }
  fuel_step H as lex4 Hc2; [now apply consume_not_OutOfFuel in H|].
  apply consume_progress in Hc2.
  revert H. apply IH; lia.
Qed.

Lemma readList_total :
  forall n lex v,
    (remaining lex < n)%nat -> (remaining lex < bound)%nat ->
    readList rd n lex v <> OutOfFuel.
Proof.
  intros n lex v Hn Hb H. destruct v as [|ro []]; cbn [readList] in H;
    try discriminate.
  - fuel_step H as [lex1 ys] Hl; [now apply readArray_total in H|].
    discriminate.
  - fuel_step H as [lex1 ys] Hl; [now apply readSlice_total in H|].
    discriminate.
  - fuel_step H as [lex1 ys] Hl; [now apply readStruct_total in H|].
    discriminate.
  - fuel_step H as y Hset. { destruct ro; discriminate. }
    fuel_step H as [lex1 ys] Hl; [now apply readMap_total in H|].
    discriminate.
  - fuel_step H as typ Htyp; [now apply asType_total in H|].
    pose proof (remaining_next_le lex).
    fuel_step H as [lex2 y] Hrd; [apply rd_total in H; [easy|lia]|].
    fuel_step H as z Hset; [|discriminate].
    destruct ro; [discriminate|]. cbn in H. destruct dyn, y; discriminate.
Qed.

End LoopTermination.

Lemma read_progress_total (fuel : nat) :
  (forall lex v lex1 x,
      read fuel lex v = Ok (lex1, x) -> (remaining lex1 < remaining lex)%nat)
  /\ (forall lex v, (remaining lex < fuel)%nat -> read fuel lex v <> OutOfFuel).
Proof.
  induction fuel as [|fuel [IHp IHt]]; (split; [intros lex v lex1 x H|intros lex v Hf H]);
    try discriminate; try lia; rewrite read_unfold in H.
  - destruct (token lex =? LParen) eqn:E.
    + apply Z.eqb_eq in E. bind_inv H as [lex2 y] Ha.
      inversion H; subst.
      apply (readList_progress _ IHp) in Ha.
      pose proof (remaining_next_le lex2).
      assert (Hne : token lex <> scanner.EOF) by (rewrite E; discriminate).
      pose proof (remaining_next_lt _ Hne). lia.
    + bind_inv H as y Ha. inversion H; subst. apply remaining_next_lt.
      intros Heof. rewrite Heof, readAtom_EOF in Ha. discriminate.
  - destruct (token lex =? LParen) eqn:E.
    + apply Z.eqb_eq in E.
      assert (Hne : token lex <> scanner.EOF) by (rewrite E; discriminate).
      pose proof (remaining_next_lt _ Hne).
      apply bind_OutOfFuel in H as [H | ([lex2 y] & _ & H)]; [|discriminate].
      revert H. apply (readList_total _ fuel IHp IHt); lia.
    + apply bind_OutOfFuel in H as [H | (y & _ & H)]; [|discriminate].
      now apply readAtom_not_OutOfFuel in H.
Qed.

Lemma remaining_lexer_at (data : list scanner.lexeme) :
  (remaining (lexer_at data) <= List.length data)%nat.
Proof.
  destruct data as [|l rest]; [cbn; lia|].
  rewrite lexer_at_cons. unfold remaining. cbn.
  destruct (scanner.tok l =? scanner.EOF); lia.
Qed.

(** [Unmarshal] always returns: its result is [Ok] or [Panic]. *)
Lemma Unmarshal_total (data : list scanner.lexeme) (out : value) :
  Unmarshal data out <> OutOfFuel.
Proof.
  rewrite Unmarshal_read. intros H.
  apply bind_OutOfFuel in H as [H | ([lex x] & _ & H)]; [|discriminate].
  revert H. apply read_progress_total.
  pose proof (remaining_lexer_at data). lia.
Qed.

Lemma Unmarshal_not_Ok_Panic (data : list scanner.lexeme) (out : value) :
  (forall x, Unmarshal data out <> Ok x) ->
  exists p, Unmarshal data out = Panic p.
Proof.
  intros H. destruct (Unmarshal data out) as [x|p|] eqn:E.
  - now destruct (H x).
  - now exists p.
  - now apply Unmarshal_total in E.
Qed.

(** ** More fuel does not change a result *)

Lemma le_result_refl {A : Type} (r : result A) : le_result r r.
Proof. now right. Qed.

Lemma le_result_bind {A B : Type} (m m' : result A) (k k' : A -> result B) :
  le_result m m' -> (forall a, le_result (k a) (k' a)) ->
  le_result (bind m k) (bind m' k').
Proof.
  intros [->| ->] Hk; [now left|].
  destruct m' as [a| |]; cbn [bind]; [apply Hk|now right|now left].
Qed.

Lemma asType_rec_mono :
  forall (n n' : nat) (typ : string),
    (n <= n')%nat -> le_result (asType_rec n typ) (asType_rec n' typ).
Proof.
  induction n as [|n IH]; intros n' typ Hn; [now left|].
  destruct n' as [|n']; [lia|]. cbn [asType_rec].
  destruct (lookup atomTypes typ); [apply le_result_refl|].
  destruct (strings.HasPrefix typ "[]").
  - apply le_result_bind; [apply le_result_refl|]. intros rest.
    apply le_result_bind; [apply IH; lia|]. intros elem. apply le_result_refl.
  - apply le_result_bind; [apply le_result_refl|]. intros c.
    destruct (Ascii.eqb c "[").
    + apply le_result_bind; [apply le_result_refl|]. intros ds.
      apply le_result_bind; [apply le_result_refl|]. intros el.
      apply le_result_bind; [apply IH; lia|]. intros t. apply le_result_refl.
    + destruct (strings.HasPrefix typ "map"); [|apply le_result_refl].
      apply le_result_bind; [apply le_result_refl|]. intros ks.
      apply le_result_bind; [apply le_result_refl|]. intros el.
      apply le_result_bind; [apply IH; lia|]. intros k.
      apply le_result_bind; [apply IH; lia|]. intros e. apply le_result_refl.
Qed.

Section LoopFuel.

Variables rd rd' : lexer -> Value -> result (lexer * value).
Hypothesis rd_mono : forall lex v, le_result (rd lex v) (rd' lex v).

Ltac step := apply le_result_bind; [try apply le_result_refl; try apply rd_mono|].

Lemma readArray_mono :
  forall n n', (n <= n')%nat ->
    forall ro lex i items,
      le_result (readArray rd n ro lex i items) (readArray rd' n' ro lex i items).
Proof.
  induction n as [|n IH]; intros n' Hn ro lex i items; [now left|].
  destruct n' as [|n']; [lia|]. cbn [readArray].
  step. intros [|]; [apply le_result_refl|].
  step. intros slot. step. intros [lex1 x]. apply IH. lia.
Qed.

Lemma readSlice_mono :
  forall n n', (n <= n')%nat ->
    forall ro elem lex items,
      le_result (readSlice rd n ro elem lex items)
                (readSlice rd' n' ro elem lex items).
Proof.
  induction n as [|n IH]; intros n' Hn ro elem lex items; [now left|].
  destruct n' as [|n']; [lia|]. cbn [readSlice].
  step. intros [|]; [apply le_result_refl|].
  step. intros [lex1 x]. step. intros items1. apply IH. lia.
Qed.

Lemma readStruct_mono :
  forall n n', (n <= n')%nat ->
    forall ro lex fields,
      le_result (readStruct rd n ro lex fields) (readStruct rd' n' ro lex fields).
Proof.
  induction n as [|n IH]; intros n' Hn ro lex fields; [now left|].
  destruct n' as [|n']; [lia|]. cbn [readStruct].
  step. intros [|]; [apply le_result_refl|].
  step. intros lexa. destruct (negb _); [apply le_result_refl|].
  step. intros [lex3 x]. step. intros lex4. apply IH. lia.
Qed.

Lemma readMap_mono :
  forall n n', (n <= n')%nat ->
    forall key elem lex m,
      le_result (readMap rd n key elem lex m) (readMap rd' n' key elem lex m).
Proof.
  induction n as [|n IH]; intros n' Hn key elem lex m; [now left|].
  destruct n' as [|n']; [lia|]. cbn [readMap].
  step. intros [|]; [apply le_result_refl|].
  step. intros lexa. step. intros [lex2 k]. step. intros [lex3 e].
  step. intros m1. step. intros lex4. apply IH. lia.
Qed.

Lemma readList_mono (n n' : nat) (lex : lexer) (v : Value) :
  (n <= n')%nat -> le_result (readList rd n lex v) (readList rd' n' lex v).
Proof.
  intros Hn. destruct v as [|ro []]; cbn [readList]; try apply le_result_refl.
  - apply le_result_bind; [now apply readArray_mono|].
    intros [lex1 ys]. apply le_result_refl.
  - apply le_result_bind; [now apply readSlice_mono|].
    intros [lex1 ys]. apply le_result_refl.
  - apply le_result_bind; [now apply readStruct_mono|].
    intros [lex1 ys]. apply le_result_refl.
  - step. intros y. apply le_result_bind; [now apply readMap_mono|].
    intros [lex1 ys]. apply le_result_refl.
  - step. intros typ. step. intros [lex2 y]. apply le_result_refl.
Qed.

End LoopFuel.

Lemma read_mono :
  forall (fuel fuel' : nat), (fuel <= fuel')%nat ->
    forall lex v, le_result (read fuel lex v) (read fuel' lex v).
Proof.
  induction fuel as [|fuel IH]; intros fuel' Hf lex v; [now left|].
  destruct fuel' as [|fuel']; [lia|]. rewrite !read_unfold.
  destruct (token lex =? LParen); [|apply le_result_refl].
  apply le_result_bind.
  - apply readList_mono; [|lia]. apply IH. lia.
  - intros [lex2 x]. apply le_result_refl.
Qed.

(** The bound [Unmarshal] gives to [read] is enough: a larger one yields
    the same result. *)
Lemma Unmarshal_fuel (data : list scanner.lexeme) (out : value) (fuel : nat) :
  (List.length data < fuel)%nat ->
  ('(_, x) <- read fuel (lexer_at data) (Var false out) ;; Ok x) =
  Unmarshal data out.
Proof.
  intros Hf. rewrite Unmarshal_read.
  destruct (read_mono (S (List.length data)) fuel Hf (lexer_at data)
                      (Var false out)) as [H|H].
  - exfalso. revert H. apply read_progress_total.
    pose proof (remaining_lexer_at data). lia.
  - now rewrite H.
Qed.

(** ** Destinations without a dynamic slot *)

Lemma static_VArray (elem : rtype) (items : list value) :
  static (VArray elem items) = static_type elem && forallb static items.
Proof.
  reflexivity.
Qed.

Lemma static_VStruct (fields : list (string * value)) :
  static (VStruct fields) = forallb (fun p => static (snd p)) fields.
Proof.
  cbn [static]. induction fields as [|[n y] l IH]; [reflexivity|].
  cbn [forallb snd]. now rewrite <- IH.
Qed.

Lemma Zero_static : forall t : rtype, static_type t = true -> static (Zero t) = true.
Proof.
  fix IH 1. intros [| | | | |n elem|elem|fields|key elem|] H;
    try reflexivity; try discriminate.
  - cbn [Zero]. rewrite static_VArray. cbn [static_type] in H. rewrite H.
    cbn [andb]. induction n as [|n IHn]; [reflexivity|].
    cbn [repeat forallb]. rewrite (IH elem H). exact IHn.
  - exact H.
  - cbn [Zero static]. cbn [static_type] in H. revert fields H.
    fix IHl 1. intros [|[n u] l] H; [reflexivity|].
    apply andb_prop in H as [Hu Hl]. rewrite (IH u Hu). exact (IHl l Hl).
  - exact H.
Qed.

Lemma TypeOf_static : forall x : value, static x = true -> static_type (TypeOf x) = true.
Proof.
  fix IH 1. intros [b|i|u|f|s|elem items|elem items|fields|key elem m|dyn] H;
    try reflexivity; try discriminate.
  - cbn [static] in H. apply andb_prop in H as [H _]. exact H.
  - exact H.
  - cbn [TypeOf static_type]. cbn [static] in H. revert fields H.
    fix IHl 1. intros [|[n y] l] H; [reflexivity|].
    apply andb_prop in H as [Hy Hl]. rewrite (IH y Hy). exact (IHl l Hl).
  - exact H.
Qed.

Lemma store_index_static (x : value) :
  forall (items : list value) (i : nat),
    forallb static items = true -> static x = true ->
    forallb static (store_index i x items) = true.
Proof.
  induction items as [|y l IH]; intros i Hl Hx; [reflexivity|].
  cbn [forallb] in Hl. apply andb_prop in Hl as [Hy Hl].
  destruct i; cbn [store_index forallb].
  - now rewrite Hx, Hl.
  - now rewrite Hy, IH.
Qed.

Lemma nth_error_static (items : list value) :
  forall (i : nat) (y : value),
    forallb static items = true -> nth_error items i = Some y -> static y = true.
Proof.
  induction items as [|z l IH]; intros [|i] y Hl Hn; try discriminate;
    cbn [forallb] in Hl; apply andb_prop in Hl as [Hz Hl].
  - now inversion Hn; subst.
  - exact (IH i y Hl Hn).
Qed.

Lemma store_field_static (name : string) (x : value) :
  forall fields : list (string * value),
    forallb (fun p => static (snd p)) fields = true -> static x = true ->
    forallb (fun p => static (snd p)) (store_field name x fields) = true.
Proof.
  induction fields as [|[n y] l IH]; intros Hl Hx; [reflexivity|].
  cbn [forallb snd] in Hl. apply andb_prop in Hl as [Hy Hl].
  cbn [store_field]. destruct (n =? name)%string; cbn [forallb snd].
  - now rewrite Hx, Hl.
  - now rewrite Hy, IH.
Qed.

Lemma FieldByName_static (ro : bool) (name : string) :
  forall fields : list (string * value),
    forallb (fun p => static (snd p)) fields = true ->
    static_Value (FieldByName ro fields name) = true.
Proof.
  induction fields as [|[n y] l IH]; intros Hl; [reflexivity|].
  cbn [forallb snd] in Hl. apply andb_prop in Hl as [Hy Hl].
  cbn [FieldByName]. destruct (n =? name)%string; [exact Hy|exact (IH Hl)].
Qed.

Lemma readAtom_static (tok : Z) (txt : string) (v : Value) (x : value) :
  static_Value v = true -> readAtom tok txt v = Ok x -> static x = true.
Proof.
  intros Hv. unfold readAtom.
  destruct v as [|ro cur].
  { repeat match goal with
           | |- context [if ?b then _ else _] => destruct b
           end; discriminate. }
  cbn [static_Value] in Hv.
  destruct ro.
  { repeat match goal with
           | |- context [if ?b then _ else _] => destruct b
           end; discriminate. }
  assert (Hz : static (Zero (TypeOf cur)) = true)
    by now apply Zero_static, TypeOf_static.
  repeat match goal with
         | |- context [if ?b then _ else _] => destruct b
         end; try discriminate.
  - cbn [Value_Type bind]. rewrite Value_Set_Zero. intros H. now inversion H.
  - destruct cur; cbn; intros H; inversion H; reflexivity.
  - destruct cur; cbn; intros H; inversion H; reflexivity.
  - destruct cur; cbn; intros H; inversion H; reflexivity.
  - destruct cur; cbn; intros H; inversion H; reflexivity.
Qed.

(** ** S-expressions in the token stream *)

Lemma close_shift :
  forall (toks : list scanner.lexeme) (k : nat) (rest : list scanner.lexeme),
    close k toks = Some rest ->
    forall d : nat, close (k + S d) toks = close d rest.
Proof.
  induction toks as [|l toks IH]; intros k rest H d; [discriminate|].
  cbn [close] in *.
  destruct (scanner.tok l =? LParen).
  - exact (IH (S k) rest H d).
  - destruct (scanner.tok l =? RParen).
    + destruct k as [|k]; cbn [Nat.add].
      * now inversion H.
      * exact (IH k rest H d).
    + exact (IH k rest H d).
Qed.

Lemma skip_close (toks rest : list scanner.lexeme) :
  skip toks = Some rest -> forall d : nat, close d toks = close d rest.
Proof.
  destruct toks as [|l toks]; [discriminate|]. cbn [skip close].
  destruct (scanner.tok l =? LParen).
  - intros H d. exact (close_shift toks 0 rest H d).
  - destruct (scanner.tok l =? RParen); [discriminate|].
    intros H d. now inversion H.
Qed.

Lemma close_app :
  forall (toks : list scanner.lexeme) (d : nat) (r rest : list scanner.lexeme),
    close d toks = Some r -> close d (toks ++ rest) = Some (r ++ rest)%list.
Proof.
  induction toks as [|l toks IH]; intros d r rest H; [discriminate|].
  cbn [close app] in *.
  destruct (scanner.tok l =? LParen); [now apply IH|].
  destruct (scanner.tok l =? RParen); [|now apply IH].
  destruct d; [now inversion H|now apply IH].
Qed.

Lemma skip_app (toks r rest : list scanner.lexeme) :
  skip toks = Some r -> skip (toks ++ rest) = Some (r ++ rest)%list.
Proof.
  destruct toks as [|l toks]; [discriminate|]. cbn [skip app].
  destruct (scanner.tok l =? LParen); [apply close_app|].
  destruct (scanner.tok l =? RParen); [discriminate|].
  intros H. now inversion H.
Qed.

Lemma skip_shorter (toks rest : list scanner.lexeme) :
  skip toks = Some rest -> (List.length rest < List.length toks)%nat.
Proof.
  assert (Hc : forall toks d rest,
             close d toks = Some rest ->
             (List.length rest < List.length toks)%nat).
  { clear. induction toks as [|l toks IH]; intros d rest H; [discriminate|].
    cbn [close] in H. cbn [List.length].
    destruct (scanner.tok l =? LParen); [apply IH in H; lia|].
    destruct (scanner.tok l =? RParen); [|apply IH in H; lia].
    destruct d; [inversion H; subst; lia|apply IH in H; lia]. }
  destruct toks as [|l toks]; [discriminate|]. cbn [skip List.length].
  destruct (scanner.tok l =? LParen); [intros H; apply Hc in H; lia|].
  destruct (scanner.tok l =? RParen); [discriminate|].
  intros H. inversion H; subst. lia.
Qed.

(** ** Without dynamic slots, a successful [read] reads one s-expression *)

Lemma endList_head (l : scanner.lexeme) (a b : list scanner.lexeme) :
  endList (lexer_at (l :: a)) = endList (lexer_at (l :: b)).
Proof. now rewrite !endList_at. Qed.

Lemma endList_true_inv (toks : list scanner.lexeme) :
  endList (lexer_at toks) = Ok true ->
  exists r rest, toks = r :: rest /\ scanner.tok r = RParen.
Proof.
  destruct toks as [|r rest]; [discriminate|]. rewrite endList_at.
  destruct (scanner.tok r =? scanner.EOF); [discriminate|].
  destruct (scanner.tok r =? RParen) eqn:E; [|discriminate].
  intros _. exists r, rest. split; [reflexivity|now apply Z.eqb_eq].
Qed.

Lemma endList_false_inv (toks : list scanner.lexeme) :
  endList (lexer_at toks) = Ok false ->
  exists l rest, toks = l :: rest /\ (scanner.tok l =? RParen) = false.
Proof.
  destruct toks as [|l rest]; [discriminate|]. rewrite endList_at.
  destruct (scanner.tok l =? scanner.EOF); [discriminate|].
  destruct (scanner.tok l =? RParen) eqn:E; [discriminate|].
  intros _. now exists l, rest.
Qed.

Lemma consume_inv (toks : list scanner.lexeme) (want : Z) (lex1 : lexer) :
  want <> scanner.EOF ->
  consume (lexer_at toks) want = Ok lex1 ->
  exists l rest, toks = l :: rest /\ scanner.tok l = want /\ lex1 = lexer_at rest.
Proof.
  intros Hw. destruct toks as [|l rest].
  - unfold consume. rewrite lexer_at_nil. cbn [token].
    destruct (scanner.EOF =? want) eqn:E; [|discriminate].
    apply Z.eqb_eq in E. now destruct Hw.
  - rewrite consume_at. destruct (scanner.tok l =? want) eqn:E; [|discriminate].
    cbn [negb]. intros H. inversion H. exists l, rest.
    split; [reflexivity|]. split; [now apply Z.eqb_eq|reflexivity].
Qed.

Lemma consume_head (l : scanner.lexeme) (rest : list scanner.lexeme) (want : Z) :
  scanner.tok l = want -> consume (lexer_at (l :: rest)) want = Ok (lexer_at rest).
Proof. intros H. rewrite consume_at, H, Z.eqb_refl. reflexivity. Qed.

Lemma close_RParen (r : scanner.lexeme) (rest : list scanner.lexeme) (d : nat) :
  scanner.tok r = RParen ->
  close d (r :: rest) = match d with O => Some rest | S d' => close d' rest end.
Proof. intros H. cbn [close]. rewrite H. reflexivity. Qed.

Lemma close_LParen (l : scanner.lexeme) (rest : list scanner.lexeme) (d : nat) :
  scanner.tok l = LParen -> close d (l :: rest) = close (S d) rest.
Proof. intros H. cbn [close]. rewrite H. reflexivity. Qed.

Lemma close_atom (l : scanner.lexeme) (rest : list scanner.lexeme) (d : nat) :
  (scanner.tok l =? LParen) = false -> (scanner.tok l =? RParen) = false ->
  close d (l :: rest) = close d rest.
Proof. intros H1 H2. cbn [close]. now rewrite H1, H2. Qed.

Ltac norm_app := cbn [app]; repeat (rewrite <- app_assoc; cbn [app]).

Tactic Notation "norm_app_in" hyp(H) :=
  cbn [app] in H; repeat (rewrite <- app_assoc in H; cbn [app] in H).

Section ExactLoops.

Variable rd : lexer -> Value -> result (lexer * value).
Hypothesis rd_exact : exact_reader rd.

Lemma readArray_exact :
  forall n ro toks i items lex1 items1,
    forallb static items = true ->
    readArray rd n ro (lexer_at toks) i items = Ok (lex1, items1) ->
    forallb static items1 = true
    /\ loop_exactly (fun lex => readArray rd n ro lex i items) toks lex1 items1.
Proof.
  induction n as [|n IH]; intros ro toks i items lex1 items1 Hst H;
    [discriminate|].
  cbn [readArray] in H. bind_inv H as stop Hs. destruct stop.
  - inversion H; subst. split; [assumption|].
    apply endList_true_inv in Hs as (r & rest & -> & Hr).
    exists [], r, rest. cbn [app]. repeat split; try assumption.
    + now rewrite close_RParen.
    + intros rest'. cbn [readArray]. now rewrite endList_at_RParen.
  - bind_inv H as slot Hslot. bind_inv H as [lex2 x] Hrd.
    assert (Hsl : static_Value slot = true).
    { unfold Value_Index in Hslot.
      destruct (nth_error items i) as [y|] eqn:Hy; [|discriminate].
      inversion Hslot; subst. cbn. eapply nth_error_static; eauto. }
    apply (rd_exact _ _ _ _ Hsl) in Hrd
      as (u & rest1 & -> & Hu & Hskip & -> & Hx & Hframe).
    apply IH in H as (Hst1 & u2 & r & rest & -> & Hr & Hclose & -> & Hloop);
      [|now apply store_index_static].
    split; [assumption|].
    exists (u ++ u2)%list, r, rest. rewrite <- app_assoc.
    repeat split; try assumption.
    + now rewrite (skip_close _ _ Hskip).
    + intros rest'. rewrite <- app_assoc. cbn [readArray].
      destruct u as [|l u]; [now destruct Hu|]. cbn [app] in *.
      rewrite (endList_head l _ (u ++ u2 ++ r :: rest)), Hs. cbn [bind].
      rewrite Hslot. cbn [bind].
      rewrite (Hframe (u2 ++ r :: rest')%list). cbn [bind].
      apply Hloop.
Qed.

Lemma readSlice_exact :
  forall n ro elem toks items lex1 items1,
    static_type elem = true ->
    readSlice rd n ro elem (lexer_at toks) items = Ok (lex1, items1) ->
    loop_exactly (fun lex => readSlice rd n ro elem lex items) toks lex1 items1.
Proof.
  induction n as [|n IH]; intros ro elem toks items lex1 items1 Hst H;
    [discriminate|].
  cbn [readSlice] in H. bind_inv H as stop Hs. destruct stop.
  - inversion H; subst.
    apply endList_true_inv in Hs as (r & rest & -> & Hr).
    exists [], r, rest. cbn [app]. repeat split; try assumption.
    + now rewrite close_RParen.
    + intros rest'. cbn [readSlice]. now rewrite endList_at_RParen.
  - bind_inv H as [lex2 x] Hrd. bind_inv H as items2 Happ.
    assert (Hsl : static_Value (Var false (Zero elem)) = true)
      by now apply Zero_static.
    apply (rd_exact _ _ _ _ Hsl) in Hrd
      as (u & rest1 & -> & Hu & Hskip & -> & Hx & Hframe).
    apply IH in H as (u2 & r & rest & -> & Hr & Hclose & -> & Hloop);
      [|assumption].
    exists (u ++ u2)%list, r, rest. rewrite <- app_assoc.
    repeat split; try assumption.
    + now rewrite (skip_close _ _ Hskip).
    + intros rest'. rewrite <- app_assoc. cbn [readSlice].
      destruct u as [|l u]; [now destruct Hu|]. cbn [app] in *.
      rewrite (endList_head l _ (u ++ u2 ++ r :: rest)), Hs. cbn [bind].
      rewrite (Hframe (u2 ++ r :: rest')%list). cbn [bind].
      rewrite Happ. cbn [bind]. apply Hloop.
Qed.

Lemma token_Ident_inv (toks : list scanner.lexeme) :
  negb (token (lexer_at toks) =? scanner.Ident) = false ->
  exists l rest, toks = l :: rest /\ scanner.tok l = scanner.Ident.
Proof.
  destruct toks as [|l rest]; [discriminate|]. rewrite token_lexer_at.
  intros H. apply negb_false_iff, Z.eqb_eq in H. now exists l, rest.
Qed.

Lemma readStruct_exact :
  forall n ro toks fields lex1 fields1,
    forallb (fun p => static (snd p)) fields = true ->
    readStruct rd n ro (lexer_at toks) fields = Ok (lex1, fields1) ->
    forallb (fun p => static (snd p)) fields1 = true
    /\ loop_exactly (fun lex => readStruct rd n ro lex fields) toks lex1 fields1.
Proof.
  induction n as [|n IH]; intros ro toks fields lex1 fields1 Hst H;
    [discriminate|].
  cbn [readStruct] in H. bind_inv H as stop Hs. destruct stop.
  - inversion H; subst. split; [assumption|].
    apply endList_true_inv in Hs as (r & rest & -> & Hr).
    exists [], r, rest. cbn [app]. repeat split; try assumption.
    + now rewrite close_RParen.
    + intros rest'. cbn [readStruct]. now rewrite endList_at_RParen.
  - bind_inv H as lexa Hc1.
    apply consume_inv in Hc1 as (l1 & toks1 & -> & Hl1 & ->);
      [|discriminate].
    destruct (negb (token (lexer_at toks1) =? scanner.Ident)) eqn:Hid;
      [discriminate|].
    apply token_Ident_inv in Hid as (l2 & toks2 & -> & Hl2).
    rewrite text_lexer_at, next_lexer_at in H.
    bind_inv H as [lex3 x] Hrd. bind_inv H as lex4 Hc2.
    pose proof (FieldByName_static ro (scanner.lit l2) fields Hst) as Hsl.
    apply (rd_exact _ _ _ _ Hsl) in Hrd
      as (u & rest3 & -> & Hu & Hskip & -> & Hx & Hframe).
    apply consume_inv in Hc2 as (l3 & rest4 & -> & Hl3 & ->);
      [|discriminate].
    apply IH in H as (Hst1 & u2 & r & rest & -> & Hr & Hclose & -> & Hloop);
      [|now apply store_field_static].
    split; [assumption|].
    exists (l1 :: l2 :: u ++ l3 :: u2)%list, r, rest.
    cbn [app]. rewrite <- app_assoc. cbn [app].
    repeat split; try assumption.
    + rewrite close_LParen by assumption.
      rewrite close_atom by (rewrite Hl2; reflexivity).
      rewrite (skip_close _ _ Hskip).
      now rewrite close_RParen.
    + intros rest'. cbn [app]. rewrite <- app_assoc. cbn [app].
      cbn [readStruct].
      rewrite (endList_head l1 _ (l2 :: u ++ l3 :: u2 ++ r :: rest)), Hs.
      cbn [bind]. rewrite consume_head by assumption. cbn [bind].
      rewrite token_lexer_at, Hl2. cbn [Z.eqb scanner.Ident negb Pos.eqb].
      rewrite text_lexer_at, next_lexer_at.
      rewrite (Hframe (l3 :: u2 ++ r :: rest')%list). cbn [bind].
      rewrite consume_head by assumption. cbn [bind].
      apply Hloop.
Qed.

Lemma readMap_exact :
  forall n key elem toks m lex1 m1,
    static_type key = true -> static_type elem = true ->
    readMap rd n key elem (lexer_at toks) m = Ok (lex1, m1) ->
    loop_exactly (fun lex => readMap rd n key elem lex m) toks lex1 m1.
Proof.
  induction n as [|n IH]; intros key elem toks m lex1 m1 Hk He H;
    [discriminate|].
  cbn [readMap] in H. bind_inv H as stop Hs. destruct stop.
  - inversion H; subst.
    apply endList_true_inv in Hs as (r & rest & -> & Hr).
    exists [], r, rest. cbn [app]. repeat split; try assumption.
    + now rewrite close_RParen.
    + intros rest'. cbn [readMap]. now rewrite endList_at_RParen.
  - bind_inv H as lexa Hc1.
    apply consume_inv in Hc1 as (l1 & toks1 & -> & Hl1 & ->);
      [|discriminate].
    bind_inv H as [lex2 k] Hrk. bind_inv H as [lex3 e] Hre.
    bind_inv H as m2 Hm. bind_inv H as lex4 Hc2.
    assert (Hzk : static_Value (Var false (Zero key)) = true)
      by now apply Zero_static.
    assert (Hze : static_Value (Var false (Zero elem)) = true)
      by now apply Zero_static.
    apply (rd_exact _ _ _ _ Hzk) in Hrk
      as (uk & restk & -> & Huk & Hskipk & -> & Hxk & Hframek).
    apply (rd_exact _ _ _ _ Hze) in Hre
      as (ue & reste & -> & Hue & Hskipe & -> & Hxe & Hframee).
    apply consume_inv in Hc2 as (l3 & rest4 & -> & Hl3 & ->);
      [|discriminate].
    apply IH in H as (u2 & r & rest & -> & Hr & Hclose & -> & Hloop);
      try assumption.
    exists (l1 :: uk ++ ue ++ l3 :: u2)%list, r, rest.
    norm_app.
    repeat split; try assumption.
    + rewrite close_LParen by assumption.
      rewrite (skip_close _ _ Hskipk), (skip_close _ _ Hskipe).
      now rewrite close_RParen.
    + intros rest'. norm_app. cbn [readMap].
      rewrite (endList_head l1 _ (uk ++ ue ++ l3 :: u2 ++ r :: rest)), Hs.
      cbn [bind]. rewrite consume_head by assumption. cbn [bind].
      rewrite (Hframek (ue ++ l3 :: u2 ++ r :: rest')%list). cbn [bind].
      rewrite (Hframee (l3 :: u2 ++ r :: rest')%list). cbn [bind].
      rewrite Hm. cbn [bind].
      rewrite consume_head by assumption. cbn [bind].
      apply Hloop.
Qed.

Lemma readList_exact :
  forall n toks v lex1 x,
    static_Value v = true ->
    readList rd n (lexer_at toks) v = Ok (lex1, x) ->
    static x = true
    /\ loop_exactly (fun lex => readList rd n lex v) toks lex1 x.
Proof.
  intros n toks v lex1 x Hst H.
  destruct v as [|ro [b|i|u|f|s|elem items|elem items|fields|key elem m|dyn]];
    cbn [readList] in H; try discriminate.
  - bind_inv H as [lex2 items1] Hl. inversion H; subst.
    cbn [static_Value] in Hst. rewrite static_VArray in Hst.
    apply andb_prop in Hst as [He Hi].
    apply readArray_exact in Hl as (Hi1 & u & r & rest & -> & Hr & Hc & -> & Hloop);
      [|assumption].
    split; [rewrite static_VArray; now rewrite He, Hi1|].
    exists u, r, rest. repeat split; try assumption.
    intros rest'. cbn [readList]. now rewrite Hloop.
  - bind_inv H as [lex2 items1] Hl. inversion H; subst.
    cbn [static_Value static] in Hst.
    apply readSlice_exact in Hl as (u & r & rest & -> & Hr & Hc & -> & Hloop);
      [|assumption].
    split; [exact Hst|].
    exists u, r, rest. repeat split; try assumption.
    intros rest'. cbn [readList]. now rewrite Hloop.
  - bind_inv H as [lex2 fields1] Hl. inversion H; subst.
    cbn [static_Value] in Hst. rewrite static_VStruct in Hst.
    apply readStruct_exact in Hl as (Hi1 & u & r & rest & -> & Hr & Hc & -> & Hloop);
      [|assumption].
    split; [now rewrite static_VStruct|].
    exists u, r, rest. repeat split; try assumption.
    intros rest'. cbn [readList]. now rewrite Hloop.
  - bind_inv H as y Hset. bind_inv H as [lex2 m1] Hl. inversion H; subst.
    cbn [static_Value static] in Hst. apply andb_prop in Hst as [Hk He].
    apply readMap_exact in Hl as (u & r & rest & -> & Hr & Hc & -> & Hloop);
      try assumption.
    split; [cbn [static]; now rewrite Hk, He|].
    exists u, r, rest. repeat split; try assumption.
    intros rest'. cbn [readList]. rewrite Hset. cbn [bind]. now rewrite Hloop.
Qed.

End ExactLoops.

Lemma read_exact (fuel : nat) : exact_reader (read fuel).
Proof.
  induction fuel as [|fuel IH]; intros toks v lex1 x Hst H; [discriminate|].
  rewrite read_unfold in H.
  destruct (token (lexer_at toks) =? LParen) eqn:E.
  - destruct toks as [|l toks]; [discriminate|].
    rewrite token_lexer_at in E. apply Z.eqb_eq in E.
    rewrite next_lexer_at in H. bind_inv H as [lex2 y] Hl. inversion H; subst.
    apply (readList_exact _ IH) in Hl
      as (Hx & u & r & rest & -> & Hr & Hc & -> & Hloop); [|assumption].
    exists (l :: u ++ [r])%list, rest. cbn [app]. rewrite <- app_assoc. cbn [app].
    repeat split; try assumption.
    + discriminate.
    + cbn [skip]. now rewrite E.
    + intros rest'. cbn [app]. rewrite <- app_assoc. cbn [app].
      rewrite read_LParen by assumption. rewrite Hloop. cbn [bind].
      now rewrite next_lexer_at.
  - bind_inv H as y Hy. inversion H; subst.
    destruct toks as [|l rest].
    { rewrite lexer_at_nil in Hy. cbn [token text scan scanner.TokenText] in Hy.
      now rewrite readAtom_EOF in Hy. }
    rewrite token_lexer_at in E. rewrite token_lexer_at, text_lexer_at in Hy.
    exists [l], rest. cbn [app]. repeat split.
    + discriminate.
    + cbn [skip]. rewrite E.
      destruct (scanner.tok l =? RParen) eqn:E2; [|reflexivity].
      apply Z.eqb_eq in E2. now rewrite E2, readAtom_RParen in Hy.
    + eapply readAtom_static; eauto.
    + intros rest'. rewrite read_unfold, token_lexer_at, text_lexer_at, E, Hy.
      cbn [bind]. now rewrite next_lexer_at.
Qed.

Lemma is_sexp_skip (e rest : list scanner.lexeme) :
  is_sexp e = true -> skip (e ++ rest) = Some rest.
Proof.
  unfold is_sexp. destruct (skip e) as [[|]|] eqn:E; try discriminate.
  intros _. now rewrite (skip_app _ _ rest E).
Qed.

(** A successful read of tokens that begin with one s-expression [e] reads
    exactly [e], whatever follows. *)
Lemma read_sexp (fuel : nat) (e rest : list scanner.lexeme) (v : Value)
      (lex1 : lexer) (x : value) :
  static_Value v = true -> is_sexp e = true ->
  read fuel (lexer_at (e ++ rest)) v = Ok (lex1, x) ->
  lex1 = lexer_at rest /\ static x = true
  /\ forall rest', read fuel (lexer_at (e ++ rest')) v = Ok (lexer_at rest', x).
Proof.
  intros Hv He H.
  apply (read_exact fuel _ _ _ _ Hv) in H
    as (u & rest1 & Happ & Hu & Hskip & -> & Hx & Hframe).
  rewrite (is_sexp_skip e rest He) in Hskip. inversion Hskip; subst rest1.
  apply app_inv_tail in Happ. subst u. auto.
Qed.

(** ** End of input inside a list (C5) *)

Lemma readSlice_ints_EOF (texts : list string) :
  forall (n fuel : nat) (items : list value),
    (List.length texts < n)%nat ->
    readSlice (read (S fuel)) n false TInt (lexer_at (map tInt texts)) items =
    Panic EndOfFile.
Proof.
  induction texts as [|s texts IH]; intros n fuel items Hn;
    destruct n as [|n]; try (simpl in Hn; lia).
  - reflexivity.
  - cbn [readSlice map]. rewrite endList_at. cbn [tInt scanner.tok].
    cbn [bind Z.eqb scanner.Int scanner.EOF RParen].
    rewrite read_Int. cbn [Zero Value_SetInt mustBeAssignable bind Append].
    apply IH. simpl in Hn. lia.
Qed.

Lemma Unmarshal_Ok_skip (data : list scanner.lexeme) (out x : value) :
  static out = true -> Unmarshal data out = Ok x ->
  exists rest, skip data = Some rest.
Proof.
  intros Hst H. rewrite Unmarshal_read in H. bind_inv H as [lex1 y] Hrd.
  apply (read_exact _ _ (Var false out) _ _ Hst) in Hrd
    as (u & rest & _ & _ & Hskip & _).
  now exists rest.
Qed.

(** C5 (as the code has it). Into a destination without a dynamic slot, an
    input whose tokens end before the s-expression they begin is complete
    (a list that is never closed, as [(1 2]) makes [Unmarshal] return an
    error, never a value.  The error is "end of file" when the end of the
    input is met by [endList], as for a list of integers read into a slice
    of ints. *)
Theorem unclosed_list_fails :
  (forall (data : list scanner.lexeme) (out : value),
      static out = true -> skip data = None ->
      exists p, Unmarshal data out = Panic p)
  /\ (forall (texts : list string) (old : list value),
         Unmarshal (LP :: map tInt texts) (VSlice TInt old) = Panic EndOfFile).
Proof.
  split.
  - intros data out Hst Hskip. apply Unmarshal_not_Ok_Panic. intros x Hx.
    apply (Unmarshal_Ok_skip _ _ _ Hst) in Hx as (rest & Hrest).
    congruence.
  - intros texts old. rewrite Unmarshal_read. cbn [List.length].
    rewrite read_LParen by reflexivity. cbn [readList].
    rewrite readSlice_ints_EOF; [reflexivity|]. rewrite length_map. lia.
Qed.

(** An instance: [((1) 2] into a slice of slices of ints. *)
Lemma unclosed_list_fails_witness :
  exists p, Unmarshal [LP; LP; tInt "1"; RP; tInt "2"] (VSlice (TSlice TInt) []) = Panic p.
Proof.
  apply (proj1 unclosed_list_fails
           [LP; LP; tInt "1"; RP; tInt "2"] (VSlice (TSlice TInt) []));
    reflexivity.
Defined.

(** C5 fails as stated.  In a record the end of the input is met by [read],
    by [consume] or by the check for a field name, which report the empty
    token they stand on, not the end of the input; and for a dynamic slot,
    whose body [readList] reads without [endList], the unclosed list
    [("int" 1] decodes without error. *)
Lemma unclosed_list_counterexample :
  Unmarshal [LP; LP; tIdent "X"] (VStruct [("X", VInt 0)]) =
  Panic (UnexpectedToken "")
  /\ Unmarshal [LP; tString "int"; tInt "1"] (VInterface None) =
     Ok (VInterface (Some (VInt 1))).
Proof. split; reflexivity. Qed.

(** ** More elements than a fixed array holds (C10) *)

Lemma store_index_length (x : value) :
  forall (items : list value) (i : nat),
    List.length (store_index i x items) = List.length items.
Proof.
  induction items as [|y l IH]; intros i; [reflexivity|].
  destruct i; cbn [store_index List.length]; [reflexivity|now rewrite IH].
Qed.

Lemma is_sexp_head (e : list scanner.lexeme) :
  is_sexp e = true ->
  exists l e', e = l :: e' /\ (scanner.tok l =? RParen) = false.
Proof.
  unfold is_sexp. destruct e as [|l e']; [discriminate|]. cbn [skip].
  intros H. exists l, e'. split; [reflexivity|].
  destruct (scanner.tok l =? LParen) eqn:E.
  - apply Z.eqb_eq in E. now rewrite E.
  - destruct (scanner.tok l =? RParen); [discriminate|reflexivity].
Qed.

Lemma sexp_not_end (e rest : list scanner.lexeme) :
  is_sexp e = true -> endList (lexer_at (e ++ rest)) <> Ok true.
Proof.
  intros He H. apply is_sexp_head in He as (l & e' & -> & Hl).
  apply endList_true_inv in H as (r & rest0 & Heq & Hr).
  cbn [app] in Heq. inversion Heq; subst. now rewrite Hr in Hl.
Qed.

Lemma readArray_more_elems (fuel : nat) (ro : bool) (rest : list scanner.lexeme) :
  forall (elems : list (list scanner.lexeme)) (n i : nat) (items : list value)
         (lex1 : lexer) (items1 : list value),
    forallb static items = true ->
    forallb is_sexp elems = true ->
    (i <= List.length items)%nat ->
    (List.length items - i < List.length elems)%nat ->
    readArray (read fuel) n ro (lexer_at (List.concat elems ++ rest)) i items
    <> Ok (lex1, items1).
Proof.
  induction elems as [|e es IH]; intros n i items lex1 items1 Hst Hes Hi Hlen H.
  - cbn [List.length] in Hlen. lia.
  - destruct n as [|n]; [discriminate|].
    cbn [forallb] in Hes. apply andb_prop in Hes as [He Hes].
    cbn [List.concat] in H. rewrite <- app_assoc in H.
    cbn [readArray] in H. bind_inv H as stop Hs. destruct stop.
    + now apply sexp_not_end in Hs.
    + bind_inv H as slot Hslot. unfold Value_Index in Hslot.
      destruct (nth_error items i) as [y|] eqn:Hy; [|discriminate].
      inversion Hslot; subst slot. bind_inv H as [lex2 x] Hrd.
      apply read_sexp in Hrd as (-> & Hx & _);
        [|exact (nth_error_static _ _ _ Hst Hy)|assumption].
      assert (Hlt : (i < List.length items)%nat)
        by (apply nth_error_Some; congruence).
      revert H. apply IH.
      * now apply store_index_static.
      * assumption.
      * rewrite store_index_length. lia.
      * rewrite store_index_length. cbn [List.length] in Hlen. lia.
Qed.

Lemma read_atom_exact (fuel : nat) (a : scanner.lexeme)
      (rest : list scanner.lexeme) (v : Value) (lex1 : lexer) (x : value) :
  (scanner.tok a =? LParen) = false ->
  read fuel (lexer_at (a :: rest)) v = Ok (lex1, x) -> lex1 = lexer_at rest.
Proof.
  intros Ha H. destruct fuel as [|fuel]; [discriminate|].
  rewrite read_unfold, token_lexer_at, Ha in H. bind_inv H as y Hy.
  inversion H. now rewrite next_lexer_at.
Qed.

Lemma readArray_more_atoms (fuel : nat) (ro : bool) (rest : list scanner.lexeme) :
  forall (atoms : list scanner.lexeme) (n i : nat) (items : list value)
         (lex1 : lexer) (items1 : list value),
    forallb is_atom atoms = true ->
    (i <= List.length items)%nat ->
    (List.length items - i < List.length atoms)%nat ->
    readArray (read fuel) n ro (lexer_at (atoms ++ rest)) i items
    <> Ok (lex1, items1).
Proof.
  induction atoms as [|a atoms IH]; intros n i items lex1 items1 Hat Hi Hlen H.
  - cbn [List.length] in Hlen. lia.
  - destruct n as [|n]; [discriminate|].
    cbn [forallb] in Hat. apply andb_prop in Hat as [Ha Hat].
    unfold is_atom in Ha. apply andb_prop in Ha as [Ha1 Ha2].
    apply negb_true_iff in Ha1, Ha2.
    cbn [app readArray] in H. bind_inv H as stop Hs. destruct stop.
    + apply endList_true_inv in Hs as (r & rest0 & Heq & Hr).
      inversion Heq; subst. now rewrite Hr in Ha2.
    + bind_inv H as slot Hslot. unfold Value_Index in Hslot.
      destruct (nth_error items i) as [y|] eqn:Hy; [|discriminate].
      bind_inv H as [lex2 x] Hrd.
      apply read_atom_exact in Hrd; [|assumption]. subst lex2.
      assert (Hlt : (i < List.length items)%nat)
        by (apply nth_error_Some; congruence).
      revert H. apply IH.
      * assumption.
      * rewrite store_index_length. lia.
      * rewrite store_index_length. cbn [List.length] in Hlen. lia.
Qed.

(** C10 (as the code has it). [readList] writes the n-th element of the
    list it reads into [v.Index(n)]: once the elements already read are as
    many as the array has (or more) and the list has not ended, the index
    is out of range and the call panics, whatever the element type;
    [Unmarshal] returns the panic as its error.  So an input list with more elements than the array holds never
    decodes successfully: for a list of atoms into any array, and for a
    list of s-expressions into an array without dynamic slots (where the
    elements of the input are the elements the decoder reads).  The input
    [(1 2 3)] into a [[2]int] fails with the index panic. *)
Theorem array_overflow_fails :
  (forall (rd : lexer -> Value -> result (lexer * value)) (n : nat) (ro : bool)
          (lex : lexer) (i : nat) (items : list value),
      (List.length items <= i)%nat -> endList lex = Ok false ->
      readArray rd (S n) ro lex i items = Panic ArrayIndexOutOfRange)
  /\ (forall (elem : rtype) (items : list value)
             (atoms rest : list scanner.lexeme),
         forallb is_atom atoms = true ->
         (List.length items < List.length atoms)%nat ->
         exists p,
           Unmarshal (LP :: atoms ++ rest) (VArray elem items) = Panic p)
  /\ (forall (elem : rtype) (items : list value)
             (elems : list (list scanner.lexeme)) (rest : list scanner.lexeme),
         static (VArray elem items) = true ->
         forallb is_sexp elems = true ->
         (List.length items < List.length elems)%nat ->
         exists p,
           Unmarshal (LP :: List.concat elems ++ rest) (VArray elem items) = Panic p)
  /\ Unmarshal [LP; tInt "1"; tInt "2"; tInt "3"; RP] (VArray TInt [VInt 0; VInt 0]) =
     Panic ArrayIndexOutOfRange.
Proof.
  split; [|split; [|split; [|reflexivity]]].
  - intros rd n ro lex i items Hi He. cbn [readArray]. rewrite He. cbn [bind].
    unfold Value_Index. apply nth_error_None in Hi. now rewrite Hi.
  - intros elem items atoms rest Hat Hlen.
    apply Unmarshal_not_Ok_Panic. intros x Hx.
    rewrite Unmarshal_read in Hx. bind_inv Hx as [lex1 y] Hrd.
    rewrite read_LParen in Hrd by reflexivity. bind_inv Hrd as [lex2 z] Hl.
    cbn [readList] in Hl. bind_inv Hl as [lex3 items1] Hloop.
    revert Hloop. apply readArray_more_atoms; try assumption; lia.
  - intros elem items elems rest Hst Hes Hlen.
    apply Unmarshal_not_Ok_Panic. intros x Hx.
    rewrite Unmarshal_read in Hx. bind_inv Hx as [lex1 y] Hrd.
    rewrite read_LParen in Hrd by reflexivity. bind_inv Hrd as [lex2 z] Hl.
    cbn [readList] in Hl. bind_inv Hl as [lex3 items1] Hloop.
    rewrite static_VArray in Hst. apply andb_prop in Hst as [_ Hst].
    revert Hloop. apply readArray_more_elems; try assumption; lia.
Qed.

(** Instances: the loop at index 2 of a two-element array; [(nil nil)] into
    a one-element array of interfaces; [(1 (2))] into a one-element array
    of ints. *)
Lemma array_overflow_fails_witness :
  readArray (read 1) 1 false (lexer_at [tInt "3"; RP]) 2 [VInt 1; VInt 2] =
  Panic ArrayIndexOutOfRange
  /\ (exists p,
         Unmarshal (LP :: [tIdent "nil"; tIdent "nil"] ++ [RP])
                   (VArray TInterface [VInterface None]) = Panic p)
  /\ (exists p,
         Unmarshal (LP :: List.concat [[tInt "1"]; [LP; tInt "2"; RP]] ++ [RP])
                   (VArray TInt [VInt 0]) = Panic p).
Proof.
  split; [|split].
  - apply (proj1 array_overflow_fails); [simpl; lia|reflexivity].
  - apply (proj1 (proj2 array_overflow_fails) TInterface [VInterface None]
             [tIdent "nil"; tIdent "nil"] [RP]);
      [reflexivity|simpl; lia].
  - apply (proj1 (proj2 (proj2 array_overflow_fails)) TInt [VInt 0]
             [[tInt "1"]; [LP; tInt "2"; RP]] [RP]);
      [reflexivity|reflexivity|simpl; lia].
Defined.

(** C10 fails as stated.  After the value of a dynamic slot [read] passes
    one token unseen; in [(("int" 1 2) 3)], read into an array of one
    interface, that token is the [2], the parenthesis meant to close the
    slot ends the array loop, and the element [3] is never read: the call
    succeeds although the list has two elements and the array one. *)
Lemma array_overflow_counterexample :
  Unmarshal [LP; LP; tString "int"; tInt "1"; tInt "2"; RP; tInt "3"; RP]
            (VArray TInterface [VInterface None]) =
  Ok (VArray TInterface [VInterface (Some (VInt 1))]).
Proof. reflexivity. Qed.

(** ** Entries for a field the record does not have (C6) *)

Lemma read_ZeroValue (fuel : nat) (lex lex1 : lexer) (x : value) :
  read fuel lex ZeroValue <> Ok (lex1, x).
Proof.
  destruct fuel as [|fuel]; [discriminate|]. rewrite read_unfold.
  destruct (token lex =? LParen); [discriminate|].
  destruct (readAtom_ZeroValue (token lex) (text lex)) as [p ->]. discriminate.
Qed.

Lemma FieldByName_unknown (ro : bool) (name : string) :
  forall fields : list (string * value),
    has_field fields name = false -> FieldByName ro fields name = ZeroValue.
Proof.
  induction fields as [|[n y] l IH]; intros H; [reflexivity|].
  cbn [has_field existsb fst] in H. cbn [FieldByName].
  destruct (n =? name)%string; [discriminate|]. exact (IH H).
Qed.

Lemma store_field_has_field (n name : string) (x : value) :
  forall fields : list (string * value),
    has_field (store_field n x fields) name = has_field fields name.
Proof.
  induction fields as [|[m y] l IH]; [reflexivity|].
  cbn [store_field]. destruct (m =? n)%string; [reflexivity|].
  unfold has_field in *. cbn [existsb fst]. now rewrite IH.
Qed.

Lemma readStruct_unknown_field (fuel : nat) (ro : bool) (name : string)
      (rest : list scanner.lexeme) :
  forall (pre : list (list scanner.lexeme)) (n : nat)
         (fields : list (string * value)) (lex1 : lexer)
         (fields1 : list (string * value)),
    forallb (fun p => static (snd p)) fields = true ->
    forallb is_sexp pre = true ->
    has_field fields name = false ->
    readStruct (read fuel) n ro
               (lexer_at (List.concat pre ++ LP :: tIdent name :: rest)) fields
    <> Ok (lex1, fields1).
Proof.
  induction pre as [|e es IH]; intros n fields lex1 fields1 Hst Hes Hno H;
    (destruct n as [|n]; [discriminate|]); cbn [readStruct] in H.
  - cbn [List.concat app] in H.
    change (endList (lexer_at (LP :: tIdent name :: rest))) with (@Ok bool false) in H.
    cbn [bind] in H.
    rewrite consume_head in H by reflexivity. cbn [bind] in H.
    rewrite token_lexer_at, text_lexer_at, next_lexer_at in H.
    cbn [tIdent scanner.tok scanner.lit] in H.
    change (negb (scanner.Ident =? scanner.Ident)) with false in H.
    cbv iota in H. rewrite FieldByName_unknown in H by assumption.
    bind_inv H as [lex3 x] Hrd. now apply read_ZeroValue in Hrd.
  - cbn [forallb] in Hes. apply andb_prop in Hes as [He Hes].
    cbn [List.concat] in H. rewrite <- app_assoc in H.
    set (more := (List.concat es ++ LP :: tIdent name :: rest)%list) in *.
    bind_inv H as stop Hs. destruct stop; [now apply sexp_not_end in Hs|].
    bind_inv H as lexa Hc1.
    apply consume_inv in Hc1 as (l1 & toks1 & Heq1 & Hl1 & ->); [|discriminate].
    destruct (negb (token (lexer_at toks1) =? scanner.Ident)) eqn:Hid;
      [discriminate|].
    apply token_Ident_inv in Hid as (l2 & toks2 & -> & Hl2).
    rewrite text_lexer_at, next_lexer_at in H.
    bind_inv H as [lex3 x] Hrd. bind_inv H as lex4 Hc2.
    (* the shape of the s-expression [e] *)
    destruct e as [|l1' e1]; [discriminate|]. cbn [app] in Heq1.
    injection Heq1 as Hh1 Ht1. subst l1'.
    unfold is_sexp in He. cbn [skip] in He. rewrite Hl1 in He.
    change (LParen =? LParen) with true in He. cbv iota in He.
    destruct e1 as [|l2' e2]; [discriminate|]. cbn [app] in Ht1.
    injection Ht1 as Hh2 Ht2. subst l2' toks2.
    rewrite close_atom in He by (rewrite Hl2; reflexivity).
    destruct (close 0 e2) as [[|]|] eqn:Hcl; try discriminate.
    pose proof (close_app _ _ _ more Hcl) as Hcl'. cbn [app] in Hcl'.
    (* the value is read exactly, then the closing parenthesis *)
    apply (read_exact fuel) in Hrd
      as (u & rest3 & _ & _ & Hskip & -> & Hx & _);
      [|now apply FieldByName_static].
    apply consume_inv in Hc2 as (l3 & rest4 & -> & Hl3 & ->); [|discriminate].
    rewrite (skip_close _ _ Hskip), close_RParen in Hcl' by assumption.
    inversion Hcl'; subst rest4.
    revert H. apply IH.
    + now apply store_field_static.
    + assumption.
    + now rewrite store_field_has_field.
Qed.

Lemma read_ZeroValue_Panic (fuel : nat) (lex : lexer) :
  exists p, read (S fuel) lex ZeroValue = Panic p.
Proof.
  rewrite read_unfold. destruct (token lex =? LParen).
  - eexists. reflexivity.
  - destruct (readAtom_ZeroValue (token lex) (text lex)) as [p ->].
    now exists p.
Qed.

Lemma readStruct_at_unknown_field (fuel n : nat) (ro : bool)
      (fields : list (string * value)) (l1 l2 : scanner.lexeme)
      (rest : list scanner.lexeme) :
  scanner.tok l1 = LParen -> scanner.tok l2 = scanner.Ident ->
  has_field fields (scanner.lit l2) = false ->
  exists p,
    readStruct (read (S fuel)) (S n) ro (lexer_at (l1 :: l2 :: rest)) fields =
    Panic p.
Proof.
  intros H1 H2 Hno. cbn [readStruct]. rewrite endList_at, H1.
  change (LParen =? scanner.EOF) with false.
  change (LParen =? RParen) with false. cbv iota. cbn [bind].
  rewrite consume_head by assumption. cbn [bind].
  rewrite token_lexer_at, text_lexer_at, next_lexer_at, H2.
  change (negb (scanner.Ident =? scanner.Ident)) with false. cbv iota.
  rewrite FieldByName_unknown by assumption.
  destruct (read_ZeroValue_Panic fuel (lexer_at rest)) as [p ->].
  now exists p.
Qed.

(** C6 (as the code has it). A record entry whose name is not a field of
    the destination makes [Unmarshal] return an error when the decoder
    reaches it: [FieldByName] yields the zero Value and every case of
    [read] panics on it.  This holds whenever the struct loop stands on
    such an entry, for every record; so decoding fails when the entry
    comes first in the list, and, for a record without dynamic slots,
    whatever complete s-expressions precede it.  The input
    [((z 1))] fails with reflect's error for a call on the zero Value; the
    input [(point (z 1))] fails as well, on its first token after the
    parenthesis. *)
Theorem unknown_field_fails :
  (forall (fuel n : nat) (ro : bool) (fields : list (string * value))
          (l1 l2 : scanner.lexeme) (rest : list scanner.lexeme),
      scanner.tok l1 = LParen -> scanner.tok l2 = scanner.Ident ->
      has_field fields (scanner.lit l2) = false ->
      exists p,
        readStruct (read (S fuel)) (S n) ro (lexer_at (l1 :: l2 :: rest)) fields =
        Panic p)
  /\ (forall (fields : list (string * value)) (name : string)
             (rest : list scanner.lexeme),
         has_field fields name = false ->
         exists p,
           Unmarshal (LP :: LP :: tIdent name :: rest) (VStruct fields) = Panic p)
  /\ (forall (fields : list (string * value)) (pre : list (list scanner.lexeme))
             (name : string) (rest : list scanner.lexeme),
         static (VStruct fields) = true ->
         forallb is_sexp pre = true ->
         has_field fields name = false ->
         exists p,
           Unmarshal (LP :: List.concat pre ++ LP :: tIdent name :: rest)
                     (VStruct fields) = Panic p)
  /\ Unmarshal [LP; LP; tIdent "z"; tInt "1"; RP; RP]
               (VStruct [("x", VInt 0); ("y", VInt 0)]) =
     Panic (ValueError "reflect.Value.SetInt" reflect.Invalid)
  /\ Unmarshal [LP; tIdent "point"; LP; tIdent "z"; tInt "1"; RP; RP]
               (VStruct [("x", VInt 0); ("y", VInt 0)]) =
     Panic (GotWant "point" LParen).
Proof.
  split; [|split; [|split; [|split; reflexivity]]].
  - intros. now apply readStruct_at_unknown_field.
  - intros fields name rest Hno. rewrite Unmarshal_read. cbn [List.length].
    rewrite read_LParen by reflexivity. cbn [readList].
    destruct (readStruct_at_unknown_field
                (S (S (List.length rest))) (S (S (List.length rest))) false fields
                LP (tIdent name) rest eq_refl eq_refl Hno) as [p ->].
    now exists p.
  - intros fields pre name rest Hst Hpre Hno.
    apply Unmarshal_not_Ok_Panic. intros x Hx.
    rewrite Unmarshal_read in Hx. bind_inv Hx as [lex1 y] Hrd.
    rewrite read_LParen in Hrd by reflexivity. bind_inv Hrd as [lex2 z] Hl.
    cbn [readList] in Hl. bind_inv Hl as [lex3 fields1] Hloop.
    rewrite static_VStruct in Hst.
    revert Hloop. now apply readStruct_unknown_field.
Qed.

(** Instances: the loop on the entry [(z 1)]; [((z nil))] into a record
    with an interface field; [((X 1) (Z 1))] into a record with fields X
    and Y. *)
Lemma unknown_field_fails_witness :
  (exists p,
      readStruct (read 1) 1 false (lexer_at [LP; tIdent "z"; tInt "1"; RP; RP])
                 [("x", VInt 0)] = Panic p)
  /\ (exists p,
         Unmarshal (LP :: LP :: tIdent "z" :: [tIdent "nil"; RP; RP])
                   (VStruct [("A", VInterface None)]) = Panic p)
  /\ (exists p,
         Unmarshal (LP :: List.concat [[LP; tIdent "X"; tInt "1"; RP]]
                       ++ LP :: tIdent "Z" :: [tInt "1"; RP; RP])
                   (VStruct [("X", VInt 0); ("Y", VInt 0)]) = Panic p).
Proof.
  split; [|split].
  - apply (proj1 unknown_field_fails 0%nat 0%nat false [("x", VInt 0)]
             LP (tIdent "z") [tInt "1"; RP; RP]); reflexivity.
  - apply (proj1 (proj2 unknown_field_fails) [("A", VInterface None)] "z"
             [tIdent "nil"; RP; RP]); reflexivity.
  - apply (proj1 (proj2 (proj2 unknown_field_fails))
             [("X", VInt 0); ("Y", VInt 0)]
             [[LP; tIdent "X"; tInt "1"; RP]] "Z" [tInt "1"; RP; RP]);
      reflexivity.
Defined.

(** C6 fails as stated.  After the value of a dynamic slot [read] passes
    one token unseen; in [((A ("int" 1 2)) (z 1))] that token is the [2],
    the parenthesis meant to close the slot closes the entry, the one
    meant to close the entry ends the record, and the entry [(z 1)] is
    never read: the call succeeds although the record has no field [z]. *)
Lemma unknown_field_counterexample :
  has_field [("A", VInterface None)] "z" = false
  /\ Unmarshal [LP; LP; tIdent "A"; LP; tString "int"; tInt "1"; tInt "2"; RP; RP;
                    LP; tIdent "z"; tInt "1"; RP; RP]
               (VStruct [("A", VInterface None)]) =
     Ok (VStruct [("A", VInterface (Some (VInt 1)))]).
Proof. split; reflexivity. Qed.

(** ** The order of record entries (C8) *)


Section Entries.

Variable fuel : nat.
Variable ro : bool.









End Entries.







(* ================================================================== *)
(** * Further properties of the decoder *)

(** ** Fuel *)

Lemma read_fuel_eq (f f' : nat) (lex0 : lexer) (v : Value) :
  (remaining lex0 < f)%nat -> (remaining lex0 < f')%nat ->
  read f lex0 v = read f' lex0 v.
Proof.
  intros Hf Hf'.
  destruct (Nat.le_ge_cases f f') as [Hle|Hle].
  - destruct (read_mono f f' Hle lex0 v) as [H|H]; [|assumption].
    exfalso. revert H. now apply read_progress_total.
  - destruct (read_mono f' f Hle lex0 v) as [H|H]; [|now symmetry].
    exfalso. revert H. now apply read_progress_total.
Qed.

Lemma read_Ok_fuel (f f' : nat) (lex0 lex1 : lexer) (v : Value) (x : value) :
  (remaining lex0 < f')%nat ->
  read f lex0 v = Ok (lex1, x) -> read f' lex0 v = Ok (lex1, x).
Proof.
  intros Hf' H.
  destruct (Nat.le_ge_cases f f') as [Hle|Hle].
  - destruct (read_mono f f' Hle lex0 v) as [H1|H1]; congruence.
  - destruct (read_mono f' f Hle lex0 v) as [H1|H1]; [|congruence].
    exfalso. revert H1. now apply read_progress_total.
Qed.

Lemma read_Unmarshal (f : nat) (data : list scanner.lexeme) (out x : value)
      (lex1 : lexer) :
  read f (lexer_at data) (Var false out) = Ok (lex1, x) ->
  Unmarshal data out = Ok x.
Proof.
  intros H. rewrite Unmarshal_read.
  assert (Hf : (remaining (lexer_at data) < S (List.length data))%nat)
    by (pose proof (remaining_lexer_at data); lia).
  rewrite (read_Ok_fuel f _ _ _ _ _ Hf H). reflexivity.
Qed.

(** ** The stream interface: [Decode] *)

Lemma Decode_at (d : Decoder) (data : list scanner.lexeme) (out : value) :
  next (lex d) = lexer_at data ->
  returned (Decoder_Decode d out) = Unmarshal data out.
Proof.
  intros Hd. unfold returned, Decoder_Decode. rewrite Hd, Unmarshal_read.
  rewrite (read_fuel_eq (S (remaining (lexer_at data))) (S (List.length data)));
    [|lia|pose proof (remaining_lexer_at data); lia].
  destruct (read _ _ _) as [[lex2 x]| |]; reflexivity.
Qed.

(** X1. The first [Decode] on a new decoder returns what [Unmarshal] returns on
    the same input and destination. *)
Theorem Decode_first_is_Unmarshal (data : list scanner.lexeme) (out : value) :
  returned (Decoder_Decode (NewDecoder data) out) = Unmarshal data out.
Proof.
  apply Decode_at. unfold NewDecoder. cbn [lex]. reflexivity.
Qed.

(** X2. [Decode] begins with [lex.next()], also when the lexer already stands
    on a token.  After a successful [Decode] of a value [e] the lexer stands
    on the token [b] after it, so the next [Decode] passes over [b] unseen
    and reads what follows it.  (Destination without dynamic slots.) *)
Theorem Decode_skips_a_token
        (e rest : list scanner.lexeme) (b : scanner.lexeme)
        (out1 out2 x1 : value) (d1 : Decoder) :
  static out1 = true -> is_sexp e = true ->
  Decoder_Decode (NewDecoder (e ++ b :: rest)) out1 = Ok (d1, x1) ->
  Unmarshal e out1 = Ok x1
  /\ lex d1 = lexer_at (b :: rest)
  /\ returned (Decoder_Decode d1 out2) = Unmarshal rest out2.
Proof.
  intros Hst He H. unfold Decoder_Decode in H.
  change (next (lex (NewDecoder (e ++ b :: rest))))
    with (lexer_at (e ++ b :: rest)) in H.
  bind_inv H as [lex2 y] Hrd. inversion H; subst. clear H.
  apply read_sexp in Hrd as (-> & _ & Hframe); try assumption.
  specialize (Hframe []). rewrite app_nil_r in Hframe.
  split; [exact (read_Unmarshal _ _ _ _ _ Hframe)|].
  split; [reflexivity|].
  apply Decode_at. cbn [lex]. apply next_lexer_at.
Qed.

Lemma Decode_skips_a_token_witness :
  Unmarshal [tInt "1"] (VInt 0) = Ok (VInt 1)
  /\ lex (mkDecoder (lexer_at [tInt "2"; tInt "3"])) = lexer_at [tInt "2"; tInt "3"]
  /\ returned (Decoder_Decode (mkDecoder (lexer_at [tInt "2"; tInt "3"])) (VInt 0)) =
     Unmarshal [tInt "3"] (VInt 0).
Proof.
  apply (Decode_skips_a_token [tInt "1"] [tInt "3"] (tInt "2")
           (VInt 0) (VInt 0) (VInt 1)); reflexivity.
Defined.

(** ** The stream interface: [Token] *)

Lemma Token_at (d : Decoder) (l : scanner.lexeme) (rest : list scanner.lexeme) :
  next (lex d) = lexer_at (l :: rest) ->
  tokenizable l = true ->
  Decoder_Token d =
  Ok (mkDecoder (lexer_at (l :: rest)), (Some (token_of l), None)).
Proof.
  intros Hd Hl. unfold Decoder_Token. rewrite Hd, token_lexer_at, text_lexer_at.
  unfold tokenizable in Hl. unfold token_of.
  destruct (scanner.tok l =? scanner.Ident); [reflexivity|].
  destruct (scanner.tok l =? scanner.String); [reflexivity|].
  destruct (scanner.tok l =? scanner.Int); [reflexivity|].
  destruct (scanner.tok l =? LParen); [reflexivity|].
  destruct (scanner.tok l =? RParen); [reflexivity|discriminate].
Qed.

Lemma Token_at_end (d : Decoder) :
  next (lex d) = lexer_at [] ->
  Decoder_Token d =
  Ok (mkDecoder (lexer_at []), (None, Some (errors.New "EOF"))).
Proof. intros Hd. unfold Decoder_Token. rewrite Hd. reflexivity. Qed.

Lemma Tokens_end (k : nat) :
  forall d : Decoder,
    next (lex d) = lexer_at [] ->
    Tokens k d = Ok (repeat (None, Some (errors.New "EOF")) k).
Proof.
  induction k as [|k IH]; intros d Hd; [reflexivity|].
  cbn [Tokens repeat]. rewrite (Token_at_end d Hd). cbn [bind].
  rewrite IH; reflexivity.
Qed.

Lemma Tokens_at (data : list scanner.lexeme) (k : nat) :
  forall d : Decoder,
    next (lex d) = lexer_at data ->
    forallb tokenizable data = true ->
    Tokens (List.length data + k) d =
    Ok (map (fun l => (Some (token_of l), None)) data
        ++ repeat (None, Some (errors.New "EOF")) k)%list.
Proof.
  induction data as [|l data IH]; intros d Hd Hall.
  - now apply Tokens_end.
  - cbn [forallb] in Hall. apply andb_prop in Hall as [Hl Hall].
    cbn [List.length Nat.add Tokens map app].
    rewrite (Token_at d l data Hd Hl). cbn [bind].
    rewrite IH; [reflexivity| |assumption].
    cbn [lex]. apply next_lexer_at.
Qed.

(** X3. On an input made of identifiers, strings, integers and parentheses,
    successive calls of [Token] on a new decoder return the tokens of the
    input in order, each with a nil error, and every call after the last
    token returns the error "EOF". *)
Theorem Token_stream (data : list scanner.lexeme) (k : nat) :
  forallb tokenizable data = true ->
  Tokens (List.length data + k) (NewDecoder data) =
  Ok (map (fun l => (Some (token_of l), None)) data
      ++ repeat (None, Some (errors.New "EOF")) k)%list.
Proof. intros H. now apply Tokens_at. Qed.

Lemma Token_stream_witness :
  Tokens (List.length [LP; tIdent "a"; tString "b"; tInt "3"; RP] + 2)
         (NewDecoder [LP; tIdent "a"; tString "b"; tInt "3"; RP]) =
  Ok [(Some sexpr.StartList, None); (Some (sexpr.Symbol "a"), None);
      (Some (sexpr.String "b"), None); (Some (sexpr.Int 3), None);
      (Some sexpr.EndList, None);
      (None, Some (errors.New "EOF")); (None, Some (errors.New "EOF"))].
Proof.
  apply (Token_stream [LP; tIdent "a"; tString "b"; tInt "3"; RP] 2).
  reflexivity.
Defined.

(** X4. [Token] has no case for a token of any other class, a float literal for
    one, and nothing recovers its panic: the call panics with "unexpected
    token", whatever was read before. *)
Theorem Token_panics_on_other_tokens
        (d : Decoder) (l : scanner.lexeme) (rest : list scanner.lexeme) :
  next (lex d) = lexer_at (l :: rest) ->
  tokenizable l = false -> scanner.tok l <> scanner.EOF ->
  Decoder_Token d = Panic (UnexpectedToken (scanner.lit l)).
Proof.
  intros Hd Hl Heof. unfold Decoder_Token.
  rewrite Hd, token_lexer_at, text_lexer_at.
  unfold tokenizable in Hl. apply Z.eqb_neq in Heof.
  destruct (scanner.tok l =? scanner.Ident); [discriminate|].
  destruct (scanner.tok l =? scanner.String); [discriminate|].
  destruct (scanner.tok l =? scanner.Int); [discriminate|].
  destruct (scanner.tok l =? LParen); [discriminate|].
  destruct (scanner.tok l =? RParen); [discriminate|].
  now rewrite Heof.
Qed.

Lemma Token_panics_on_other_tokens_witness :
  Decoder_Token (NewDecoder [tFloat "1.5"; RP]) = Panic (UnexpectedToken "1.5").
Proof.
  apply (Token_panics_on_other_tokens (NewDecoder [tFloat "1.5"; RP])
           (tFloat "1.5") [RP]); [reflexivity|reflexivity|discriminate].
Defined.

(** ** What [asType] returns *)

Lemma atomTypes_described (typ : string) (t : rtype) :
  lookup atomTypes typ = Some t -> described t = true.
Proof.
  unfold atomTypes. cbn [lookup].
  repeat match goal with
         | |- context [if ?b then _ else _] => destruct b
         end; intros H; inversion H; reflexivity.
Qed.

Lemma asType_rec_described :
  forall (n : nat) (typ : string) (t : rtype),
    asType_rec n typ = Ok t -> described t = true.
Proof.
  induction n as [|n IH]; intros typ t H; [discriminate|].
  cbn [asType_rec] in H.
  destruct (lookup atomTypes typ) as [a|] eqn:Ha.
  { inversion H; subst. exact (atomTypes_described _ _ Ha). }
  destruct (strings.HasPrefix typ "[]").
  - bind_inv H as rest Hr. bind_inv H as elem He. inversion H; subst.
    exact (IH _ _ He).
  - bind_inv H as c Hc. destruct (Ascii.eqb c "[").
    + bind_inv H as ds Hd. bind_inv H as el Hel. bind_inv H as u Hu.
      unfold ArrayOf in H. destruct (_ <? 0); [discriminate|].
      destruct (_ && _); [discriminate|].
      inversion H; subst. exact (IH _ _ Hu).
    + destruct (strings.HasPrefix typ "map"); [|discriminate].
      bind_inv H as ks Hk. bind_inv H as el Hel.
      bind_inv H as k Hkt. bind_inv H as e Het.
      unfold MapOf in H. destruct (comparable k) eqn:Hcmp; [|discriminate].
      inversion H; subst. cbn [described].
      now rewrite Hcmp, (IH _ _ Hkt), (IH _ _ Het).
Qed.

Lemma described_static : forall t : rtype, described t = true -> static_type t = true.
Proof.
  induction t; cbn [described static_type]; intros H; try discriminate;
    try reflexivity; auto.
  apply andb_prop in H as [H H2]. apply andb_prop in H as [_ H1].
  now rewrite IHt1, IHt2.
Qed.

(** X5. Whatever descriptor it is given, [asType] returns only types built from
    [int], [uint], [float64], [bool], [string], slices, arrays and maps
    with a comparable key type: never an interface or a struct, and never
    a map keyed by slices or maps. *)
Theorem asType_described (typ : string) (t : rtype) :
  asType typ = Ok t -> described t = true.
Proof. apply asType_rec_described. Qed.

Lemma asType_described_witness : described (TMap TString (TSlice TInt)) = true.
Proof. apply (asType_described "map[string][]int"). reflexivity. Defined.

(** ** How [asType] reads composite descriptors *)

Lemma str_length_app (a b : string) :
  String.length (a ++ b) = (String.length a + String.length b)%nat.
Proof. induction a as [|c a IH]; cbn; [reflexivity|now rewrite IH]. Qed.

Lemma substring_drop (p s : string) (n m : nat) :
  substring (String.length p + n) m (p ++ s) = substring n m s.
Proof. induction p as [|c p IH]; cbn; [reflexivity|exact IH]. Qed.

Lemma substring_all (s : string) : substring 0 (String.length s) s = s.
Proof. induction s as [|c s IH]; cbn; [reflexivity|now rewrite IH]. Qed.

Lemma substring_take (m s : string) : substring 0 (String.length m) (m ++ s) = m.
Proof.
  induction m as [|c m IH]; cbn; [now destruct s|now rewrite IH].
Qed.

Lemma IndexByte_app (n t : string) (c : ascii) :
  strings.IndexByte n c = None ->
  strings.IndexByte (n ++ String c t) c = Some (String.length n).
Proof.
  induction n as [|a n IH]; cbn [strings.IndexByte append String.length].
  - now rewrite Ascii.eqb_refl.
  - destruct (Ascii.eqb a c); [discriminate|].
    destruct (strings.IndexByte n c); [discriminate|].
    intros _. now rewrite IH.
Qed.

Lemma slice_mid (p m s : string) :
  slice (p ++ m ++ s) (Z.of_nat (String.length p))
        (Z.of_nat (String.length p + String.length m)) = Ok m.
Proof.
  unfold slice.
  assert (Hc : (0 <=? Z.of_nat (String.length p))
               && (Z.of_nat (String.length p)
                   <=? Z.of_nat (String.length p + String.length m))
               && (Z.of_nat (String.length p + String.length m)
                   <=? Z.of_nat (String.length (p ++ m ++ s))) = true).
  { rewrite !str_length_app, !andb_true_iff, !Z.leb_le. lia. }
  rewrite Hc.
  replace (Z.to_nat (Z.of_nat (String.length p)))
    with (String.length p + 0)%nat by lia.
  replace (Z.to_nat (Z.of_nat (String.length p + String.length m)
                     - Z.of_nat (String.length p)))
    with (String.length m) by lia.
  now rewrite substring_drop, substring_take.
Qed.

Lemma slice_from_app (p s : string) :
  slice_from (p ++ s) (Z.of_nat (String.length p)) = Ok s.
Proof.
  unfold slice_from.
  pose proof (slice_mid p s "") as H.
  assert (Hs : forall a : string, a ++ "" = a)
    by (induction a as [|c a IH]; cbn; [reflexivity|now rewrite IH]).
  rewrite Hs in H. now rewrite str_length_app, <- H.
Qed.

Lemma asType_rec_fuel (n : nat) (typ : string) :
  (String.length typ < n)%nat -> asType_rec n typ = asType typ.
Proof.
  intros Hn. unfold asType.
  destruct (Nat.le_ge_cases n (S (String.length typ))) as [Hle|Hle].
  - destruct (asType_rec_mono _ _ typ Hle) as [H|H]; [|assumption].
    exfalso. revert H. now apply asType_rec_total.
  - destruct (asType_rec_mono _ _ typ Hle) as [H|H]; [|now symmetry].
    exfalso. revert H. apply asType_rec_total. lia.
Qed.

Lemma HasPrefix_app (p s : string) : strings.HasPrefix (p ++ s) p = true.
Proof. unfold strings.HasPrefix. apply prefix_correct, substring_take. Qed.

Lemma HasPrefix_first (c a : ascii) (s q : string) :
  Ascii.eqb c a = false -> strings.HasPrefix (String c s) (String a q) = false.
Proof.
  intros H. unfold strings.HasPrefix. cbn [prefix].
  destruct (ascii_dec a c) as [->|]; [|reflexivity].
  now rewrite Ascii.eqb_refl in H.
Qed.

Lemma HasPrefix_second (c a d b : ascii) (s q : string) :
  Ascii.eqb d b = false ->
  strings.HasPrefix (String c (String d s)) (String a (String b q)) = false.
Proof.
  intros H. unfold strings.HasPrefix. cbn [prefix].
  destruct (ascii_dec a c); [|reflexivity].
  destruct (ascii_dec b d) as [->|]; [|reflexivity].
  now rewrite Ascii.eqb_refl in H.
Qed.

(** X6. The descriptor [[]T] is the slice of whatever [T] is, for every [T];
    when [T] does not resolve, [[]T] fails the way [T] does. *)
Theorem asType_slice (T : string) :
  asType ("[]" ++ T) = (elem <- asType T ;; Ok (TSlice elem)).
Proof.
  unfold asType at 1. cbn [asType_rec].
  change (lookup atomTypes ("[]" ++ T)) with (@None rtype).
  rewrite HasPrefix_app.
  change (slice_from ("[]" ++ T) 2)
    with (slice_from ("[]" ++ T) (Z.of_nat (String.length "[]"))).
  rewrite (slice_from_app "[]" T). cbn [bind].
  rewrite asType_rec_fuel; [reflexivity|]. rewrite str_length_app. cbn. lia.
Qed.

(** X7. The descriptor [[N]T], where [N] is not empty and holds no ']', is
    what [reflect.ArrayOf] makes of the length [strconv.Atoi(N)], its error
    dropped (0 when [N] is not a decimal number, the nearest [int] when it
    is out of range), and of whatever [T] is: [T] is resolved first, and
    [ArrayOf] panics on a negative length and on a length with which the
    array would not fit in the address space. *)
Theorem asType_array (N T : string) :
  N <> "" -> strings.IndexByte N "]" = None ->
  asType ("[" ++ N ++ "]" ++ T) =
  (elem <- asType T ;; ArrayOf (strconv.Atoi N) elem).
Proof.
  intros HN Hno. unfold asType at 1. cbn [asType_rec].
  change (lookup atomTypes ("[" ++ N ++ "]" ++ T)) with (@None rtype).
  destruct N as [|d N']; [now destruct HN|].
  assert (Hd : Ascii.eqb d "]" = false).
  { cbn [strings.IndexByte] in Hno. now destruct (Ascii.eqb d "]"). }
  change ("[" ++ String d N' ++ "]" ++ T)
    with (String "[" (String d (N' ++ "]" ++ T))) at 1.
  rewrite (HasPrefix_second "[" "[" d "]" _ "" Hd).
  set (N := String d N') in *.
  change (first_byte ("[" ++ N ++ "]" ++ T)) with (@Ok ascii "["%char).
  cbn [bind]. change (Ascii.eqb "[" "[") with true. cbv iota.
  assert (Hj : strings.IndexRune ("[" ++ N ++ "]" ++ T) "]"
               = Z.of_nat (String.length "[" + String.length N)).
  { unfold strings.IndexRune. change ("[" ++ N ++ "]" ++ T)
      with (String "[" (N ++ String "]" T)).
    cbn [strings.IndexByte]. change (Ascii.eqb "[" "]") with false. cbv iota.
    rewrite (IndexByte_app N T "]" Hno). cbn [option_map String.length]. lia. }
  rewrite Hj.
  change (0 + 1) with (Z.of_nat (String.length "[")).
  rewrite (slice_mid "[" N ("]" ++ T)). cbn [bind].
  replace (Z.of_nat (String.length "[" + String.length N) + 1)
    with (Z.of_nat (String.length ("[" ++ N ++ "]")))
    by (rewrite !str_length_app; cbn [String.length]; lia).
  replace ("[" ++ N ++ "]" ++ T) with (("[" ++ N ++ "]") ++ T).
  2:{ cbn [append]. f_equal. clear. induction N as [|c N IH]; cbn;
      [reflexivity|now rewrite IH]. }
  rewrite slice_from_app. cbn [bind].
  rewrite asType_rec_fuel; [reflexivity|].
  rewrite !str_length_app. cbn [String.length]. lia.
Qed.

Lemma asType_array_witness :
  asType ("[" ++ "3" ++ "]" ++ "[]int") =
  (elem <- asType "[]int" ;; ArrayOf (strconv.Atoi "3") elem).
Proof. apply (asType_array "3" "[]int"); [discriminate|reflexivity]. Defined.

Lemma append_assoc3 (a b c : string) : (a ++ b) ++ c = a ++ b ++ c.
Proof. induction a as [|x a IH]; cbn; [reflexivity|now rewrite IH]. Qed.

(** X8. The descriptor [map[K]V], where [K] holds no ']', is the map from
    whatever [K] is to whatever [V] is; [K] is resolved first, and a key
    type that is not comparable makes [reflect.MapOf] panic. *)
Theorem asType_map (K V : string) :
  strings.IndexByte K "]" = None ->
  asType ("map[" ++ K ++ "]" ++ V) =
  (key <- asType K ;; elem <- asType V ;; MapOf key elem).
Proof.
  intros Hno. unfold asType at 1. cbn [asType_rec].
  change (lookup atomTypes ("map[" ++ K ++ "]" ++ V)) with (@None rtype).
  change ("map[" ++ K ++ "]" ++ V)
    with (String "m" ("ap[" ++ K ++ "]" ++ V)) at 1.
  rewrite (HasPrefix_first "m" "[" _ "]" eq_refl).
  change (first_byte ("map[" ++ K ++ "]" ++ V)) with (@Ok ascii "m"%char).
  cbn [bind]. change (Ascii.eqb "m" "[") with false. cbv iota.
  change ("map[" ++ K ++ "]" ++ V) with ("map" ++ "[" ++ K ++ "]" ++ V) at 1.
  rewrite HasPrefix_app.
  change (strings.IndexRune ("map[" ++ K ++ "]" ++ V) "[") with 3.
  assert (Hj : strings.IndexRune ("map[" ++ K ++ "]" ++ V) "]"
               = Z.of_nat (String.length "map[" + String.length K)).
  { unfold strings.IndexRune.
    change ("map[" ++ K ++ "]" ++ V)
      with (String "m" (String "a" (String "p" (String "[" (K ++ String "]" V))))).
    cbn [strings.IndexByte].
    change (Ascii.eqb "m" "]") with false. change (Ascii.eqb "a" "]") with false.
    change (Ascii.eqb "p" "]") with false. change (Ascii.eqb "[" "]") with false.
    cbv iota. rewrite (IndexByte_app K V "]" Hno).
    cbn [option_map String.length]. lia. }
  rewrite Hj. change (3 + 1) with (Z.of_nat (String.length "map[")).
  rewrite (slice_mid "map[" K ("]" ++ V)). cbn [bind].
  replace (Z.of_nat (String.length "map[" + String.length K) + 1)
    with (Z.of_nat (String.length ("map[" ++ K ++ "]")))
    by (rewrite !str_length_app; cbn [String.length]; lia).
  replace ("map[" ++ K ++ "]" ++ V) with (("map[" ++ K ++ "]") ++ V)
    by (rewrite append_assoc3; f_equal; apply append_assoc3).
  rewrite slice_from_app. cbn [bind].
  rewrite !asType_rec_fuel; [reflexivity| |];
    rewrite !str_length_app; cbn [String.length]; lia.
Qed.

Lemma asType_map_witness :
  asType ("map[" ++ "string" ++ "]" ++ "[2]int") =
  (key <- asType "string" ;; elem <- asType "[2]int" ;; MapOf key elem).
Proof. apply (asType_map "string" "[2]int"). reflexivity. Defined.

(** X9. A descriptor that is not one of the five atoms, does not begin with
    '[' and does not begin with "map" makes [asType] panic with "unknown
    type", naming the descriptor: "int64" and "error" are examples, and so
    is "float64", since the atom for that type is spelled "float". *)
Theorem asType_unknown (c : ascii) (s : string) :
  lookup atomTypes (String c s) = None ->
  Ascii.eqb c "[" = false ->
  strings.HasPrefix (String c s) "map" = false ->
  asType (String c s) = Panic (UnknownType (String c s)).
Proof.
  intros Ha Hc Hm. unfold asType. cbn [asType_rec]. rewrite Ha.
  rewrite (HasPrefix_first c "[" s "]" Hc). cbn [first_byte bind].
  now rewrite Hc, Hm.
Qed.

Lemma asType_unknown_witness :
  asType "float64" = Panic (UnknownType "float64").
Proof. apply (asType_unknown "f" "loat64"); reflexivity. Defined.

(** X10. A dynamic slot takes its descriptor from the text of the token after
    the parenthesis, whatever the class of the token, through
    [strconv.Unquote] with the error dropped.  When that text is not a
    quoted literal (a bare [int], say) the descriptor is the empty string
    and [asType] indexes it: the call fails with a runtime index error,
    not with "unknown type". *)
Theorem dynamic_slot_descriptor_not_quoted
        (l : scanner.lexeme) (rest : list scanner.lexeme) (old : option value) :
  strconv.Unquote (scanner.lit l) = "" ->
  Unmarshal (LP :: l :: rest) (VInterface old) = Panic IndexOutOfRange.
Proof.
  intros H. rewrite Unmarshal_read. cbn [List.length].
  rewrite read_LParen by reflexivity. cbn [readList].
  rewrite text_lexer_at, H. reflexivity.
Qed.

Lemma dynamic_slot_descriptor_not_quoted_witness :
  Unmarshal (LP :: tIdent "int" :: [tInt "1"; RP]) (VInterface None) =
  Panic IndexOutOfRange.
Proof.
  apply (dynamic_slot_descriptor_not_quoted (tIdent "int") [tInt "1"; RP] None).
  reflexivity.
Defined.

(** ** Decoding keeps the type of the destination *)

Lemma rtype_eqb_refl : forall t : rtype, rtype_eqb t t = true.
Proof.
  fix IH 1. intros [| | | | |n elem|elem|fields|key elem|]; cbn [rtype_eqb];
    try reflexivity.
  - now rewrite Nat.eqb_refl, IH.
  - apply IH.
  - revert fields. fix IHl 1. intros [|[n u] l]; [reflexivity|].
    now rewrite String.eqb_refl, IH, IHl.
  - now rewrite !IH.
Qed.

Lemma rtype_eqb_eq : forall t u : rtype, rtype_eqb t u = true -> t = u.
Proof.
  fix IH 1.
  intros [| | | | |n elem|elem|fields|key elem|]
         [| | | | |m elem'|elem'|fields'|key' elem'|];
    cbn [rtype_eqb]; intros H; try discriminate; try reflexivity.
  - apply andb_prop in H as [Hn He]. apply Nat.eqb_eq in Hn.
    now rewrite Hn, (IH _ _ He).
  - now rewrite (IH _ _ H).
  - f_equal. revert fields fields' H. fix IHl 1.
    intros [|[n u] l] [|[n' u'] l'] H; try discriminate; [reflexivity|].
    apply andb_prop in H as [H Hl]. apply andb_prop in H as [Hn Hu].
    apply String.eqb_eq in Hn.
    now rewrite Hn, (IH _ _ Hu), (IHl _ _ Hl).
  - apply andb_prop in H as [Hk He].
    now rewrite (IH _ _ Hk), (IH _ _ He).
Qed.

Lemma TypeOf_Zero : forall t : rtype, TypeOf (Zero t) = t.
Proof.
  fix IH 1. intros [| | | | |n elem|elem|fields|key elem|]; cbn [Zero TypeOf];
    try reflexivity.
  - now rewrite repeat_length.
  - f_equal. revert fields. fix IHl 1. intros [|[n u] l]; [reflexivity|].
    now rewrite IH, IHl.
Qed.



Lemma well_typed_VArray (elem : rtype) (items : list value) :
  well_typed (VArray elem items) = forallb (elem_ok elem) items.
Proof. reflexivity. Qed.

Lemma well_typed_VSlice (elem : rtype) (items : list value) :
  well_typed (VSlice elem items) = forallb (elem_ok elem) items.
Proof. reflexivity. Qed.

Lemma well_typed_VStruct (fields : list (string * value)) :
  well_typed (VStruct fields) = forallb (fun p => well_typed (snd p)) fields.
Proof.
  cbn [well_typed]. induction fields as [|[n y] l IH]; [reflexivity|].
  cbn [forallb snd]. now rewrite <- IH.
Qed.

Lemma well_typed_VMap (key elem : rtype) (m : list (value * value)) :
  well_typed (VMap key elem (Some m)) = forallb (entry_ok key elem) m.
Proof.
  cbn [well_typed]. induction m as [|[k e] l IH]; [reflexivity|].
  cbn [forallb]. rewrite <- IH. unfold entry_ok, elem_ok. cbn [fst snd].
  now rewrite !andb_assoc.
Qed.

Lemma TypeOf_VStruct (fields : list (string * value)) :
  TypeOf (VStruct fields) =
  TStruct (map (fun p => (fst p, TypeOf (snd p))) fields).
Proof.
  cbn [TypeOf]. f_equal. induction fields as [|[n y] l IH]; [reflexivity|].
  cbn [map fst snd]. now rewrite <- IH.
Qed.

Lemma well_typed_Zero : forall t : rtype, well_typed (Zero t) = true.
Proof.
  fix IH 1. intros [| | | | |n elem|elem|fields|key elem|]; try reflexivity.
  - cbn [Zero]. rewrite well_typed_VArray.
    induction n as [|n IHn]; [reflexivity|].
    cbn [repeat forallb]. unfold elem_ok at 1.
    now rewrite TypeOf_Zero, rtype_eqb_refl, IH, IHn.
  - cbn [Zero well_typed]. revert fields. fix IHl 1.
    intros [|[n u] l]; [reflexivity|]. now rewrite IH, IHl.
Qed.

Lemma keeps_type_refl (v : value) : keeps_type v v.
Proof. now split. Qed.

Lemma keeps_type_trans (v w x : value) :
  keeps_type v w -> keeps_type w x -> keeps_type v x.
Proof. intros [H1 H2] [H3 H4]. split; [congruence|auto]. Qed.

Lemma keeps_type_elem_ok (elem : rtype) (v x : value) :
  keeps_type v x -> elem_ok elem v = true -> elem_ok elem x = true.
Proof.
  intros [Ht Hw] H. unfold elem_ok in *. apply andb_prop in H as [H1 H2].
  now rewrite Ht, H1, Hw.
Qed.

Lemma Forall2_keeps_refl (l : list value) : Forall2 keeps_type l l.
Proof. induction l; constructor; auto using keeps_type_refl. Qed.

Lemma Forall2_keeps_trans (l1 l2 l3 : list value) :
  Forall2 keeps_type l1 l2 -> Forall2 keeps_type l2 l3 ->
  Forall2 keeps_type l1 l3.
Proof.
  intros H. revert l3. induction H as [|a b l1 l2 Hab H IH]; intros l3 H3;
    inversion H3; subst; constructor; eauto using keeps_type_trans.
Qed.

Lemma Forall2_keeps_store (x y : value) :
  forall (items : list value) (i : nat),
    nth_error items i = Some y -> keeps_type y x ->
    Forall2 keeps_type items (store_index i x items).
Proof.
  induction items as [|z l IH]; intros [|i] Hn Hk; try discriminate;
    cbn [store_index]; cbn [nth_error] in Hn.
  - inversion Hn; subst. constructor; [assumption|apply Forall2_keeps_refl].
  - constructor; [apply keeps_type_refl|now apply IH].
Qed.

Lemma Forall2_keeps_elem_ok (elem : rtype) (l1 l2 : list value) :
  Forall2 keeps_type l1 l2 ->
  forallb (elem_ok elem) l1 = true -> forallb (elem_ok elem) l2 = true.
Proof.
  induction 1 as [|a b l1 l2 Hab H IH]; [auto|].
  cbn [forallb]. intros Hl. apply andb_prop in Hl as [Ha Hl].
  now rewrite (keeps_type_elem_ok _ _ _ Hab Ha), IH.
Qed.


Lemma Forall2_field_refl (l : list (string * value)) : Forall2 keeps_field l l.
Proof.
  induction l; constructor; auto. split; [reflexivity|apply keeps_type_refl].
Qed.

Lemma Forall2_field_trans (l1 l2 l3 : list (string * value)) :
  Forall2 keeps_field l1 l2 -> Forall2 keeps_field l2 l3 ->
  Forall2 keeps_field l1 l3.
Proof.
  intros H. revert l3. induction H as [|a b l1 l2 Hab H IH]; intros l3 H3;
    inversion H3; subst; constructor; eauto.
  match goal with Hbc : keeps_field b _ |- _ => destruct Hbc as [Hn Hk] end.
  destruct Hab as [Hn' Hk'].
  split; [congruence|eauto using keeps_type_trans].
Qed.

Lemma Forall2_field_store (ro : bool) (name : string) (x : value) :
  forall (fields : list (string * value)) (ro' : bool) (y : value),
    FieldByName ro fields name = Var ro' y -> keeps_type y x ->
    Forall2 keeps_field fields (store_field name x fields).
Proof.
  induction fields as [|[n z] l IH]; intros ro' y Hf Hk; [discriminate|].
  cbn [FieldByName] in Hf. cbn [store_field].
  destruct (n =? name)%string.
  - inversion Hf; subst. constructor; [now split|apply Forall2_field_refl].
  - constructor; [split; [reflexivity|apply keeps_type_refl]|].
    exact (IH _ _ Hf Hk).
Qed.

Lemma Forall2_field_keeps (l1 l2 : list (string * value)) :
  Forall2 keeps_field l1 l2 -> keeps_type (VStruct l1) (VStruct l2).
Proof.
  intros H. split.
  - rewrite !TypeOf_VStruct. f_equal.
    induction H as [|a b l1 l2 [Hn [Ht _]] H IH]; [reflexivity|].
    cbn [map]. now rewrite IH, Hn, Ht.
  - rewrite !well_typed_VStruct.
    induction H as [|a b l1 l2 [Hn [_ Hw]] H IH]; [auto|].
    cbn [forallb]. intros Hl. apply andb_prop in Hl as [Ha Hl].
    now rewrite Hw, IH.
Qed.

Lemma map_store_entry_ok (key elem : rtype) (k e : value) :
  forall m : list (value * value),
    elem_ok key k = true -> elem_ok elem e = true ->
    forallb (entry_ok key elem) m = true ->
    forallb (entry_ok key elem) (map_store k e m) = true.
Proof.
  induction m as [|[k' e'] m IH]; intros Hk He Hm; cbn [map_store forallb].
  - unfold entry_ok. cbn [fst snd]. now rewrite Hk, He.
  - cbn [forallb] in Hm. apply andb_prop in Hm as [Hp Hm].
    unfold entry_ok in Hp. cbn [fst snd] in Hp. apply andb_prop in Hp as [Hk' He'].
    destruct (value_eqb k' k); cbn [forallb]; unfold entry_ok at 1; cbn [fst snd].
    + now rewrite Hk', He, Hm.
    + now rewrite Hk', He', IH.
Qed.

Lemma described_not_interface (t : rtype) :
  described t = true -> rtype_eqb t TInterface = false.
Proof. destruct t; try reflexivity; discriminate. Qed.

Section TypedLoops.

Variable rd : lexer -> Value -> result (lexer * value).

Hypothesis rd_typed :
  forall lex0 ro v lex1 x, rd lex0 (Var ro v) = Ok (lex1, x) -> keeps_type v x.

Hypothesis rd_zero : forall lex0 lex1 x, rd lex0 ZeroValue <> Ok (lex1, x).

Lemma rd_fresh (lex0 lex1 : lexer) (t : rtype) (x : value) :
  rd lex0 (Var false (Zero t)) = Ok (lex1, x) -> elem_ok t x = true.
Proof.
  intros H. apply rd_typed in H as [Ht Hw]. unfold elem_ok.
  rewrite Ht, TypeOf_Zero, rtype_eqb_refl. apply Hw, well_typed_Zero.
Qed.

Lemma readArray_typed :
  forall n ro lex0 i items lex1 items1,
    readArray rd n ro lex0 i items = Ok (lex1, items1) ->
    Forall2 keeps_type items items1.
Proof.
  induction n as [|n IH]; intros ro lex0 i items lex1 items1 H; [discriminate|].
  cbn [readArray] in H. bind_inv H as stop Hs. destruct stop.
  - inversion H; subst. apply Forall2_keeps_refl.
  - bind_inv H as slot Hslot. unfold Value_Index in Hslot.
    destruct (nth_error items i) as [y|] eqn:Hy; [|discriminate].
    inversion Hslot; subst slot. bind_inv H as [lex2 x] Hrd.
    apply rd_typed in Hrd. apply IH in H.
    eapply Forall2_keeps_trans; [|exact H].
    eapply Forall2_keeps_store; eauto.
Qed.

Lemma readSlice_typed :
  forall n ro elem lex0 items lex1 items1,
    readSlice rd n ro elem lex0 items = Ok (lex1, items1) ->
    exists new, items1 = (items ++ new)%list /\ forallb (elem_ok elem) new = true.
Proof.
  induction n as [|n IH]; intros ro elem lex0 items lex1 items1 H; [discriminate|].
  cbn [readSlice] in H. bind_inv H as stop Hs. destruct stop.
  - inversion H; subst. exists []. now rewrite app_nil_r.
  - bind_inv H as [lex2 x] Hrd. bind_inv H as items2 Happ.
    apply rd_fresh in Hrd. unfold Append in Happ.
    destruct ro; [discriminate|]. inversion Happ; subst items2.
    apply IH in H as (new & -> & Hnew). exists (x :: new).
    rewrite <- app_assoc. split; [reflexivity|]. cbn [forallb].
    now rewrite Hrd, Hnew.
Qed.

Lemma readStruct_typed :
  forall n ro lex0 fields lex1 fields1,
    readStruct rd n ro lex0 fields = Ok (lex1, fields1) ->
    Forall2 keeps_field fields fields1.
Proof.
  induction n as [|n IH]; intros ro lex0 fields lex1 fields1 H; [discriminate|].
  cbn [readStruct] in H. bind_inv H as stop Hs. destruct stop.
  - inversion H; subst. apply Forall2_field_refl.
  - bind_inv H as lexa Hc1. destruct (negb _); [discriminate|].
    bind_inv H as [lex3 x] Hrd. bind_inv H as lex4 Hc2.
    apply IH in H. eapply Forall2_field_trans; [|exact H].
    destruct (FieldByName ro fields (text lexa)) as [|ro' y] eqn:Hf.
    + now apply rd_zero in Hrd.
    + apply rd_typed in Hrd. eapply Forall2_field_store; eauto.
Qed.

Lemma readMap_typed :
  forall n key elem lex0 m lex1 m1,
    readMap rd n key elem lex0 m = Ok (lex1, m1) ->
    forallb (entry_ok key elem) m = true ->
    forallb (entry_ok key elem) m1 = true.
Proof.
  induction n as [|n IH]; intros key elem lex0 m lex1 m1 H Hm; [discriminate|].
  cbn [readMap] in H. bind_inv H as stop Hs. destruct stop.
  - now inversion H; subst.
  - bind_inv H as lexa Hc1. bind_inv H as [lex2 k] Hk.
    bind_inv H as [lex3 e] He. bind_inv H as m2 Hset. bind_inv H as lex4 Hc2.
    apply rd_fresh in Hk, He. unfold SetMapIndex in Hset.
    destruct (hashable k); [|discriminate]. inversion Hset; subst m2.
    apply IH in H; [assumption|]. now apply map_store_entry_ok.
Qed.

Lemma readList_typed (n : nat) (lex0 : lexer) (ro : bool) (v : value)
      (lex1 : lexer) (x : value) :
  readList rd n lex0 (Var ro v) = Ok (lex1, x) -> keeps_type v x.
Proof.
  intros H. destruct v as [b|i|u|f|s|elem items|elem items|fields|key elem m|dyn];
    cbn [readList] in H; try discriminate.
  - bind_inv H as [lex2 items1] Hl. inversion H; subst.
    apply readArray_typed in Hl. split.
    + cbn [TypeOf]. now rewrite (Forall2_length Hl).
    + rewrite !well_typed_VArray. now apply Forall2_keeps_elem_ok.
  - bind_inv H as [lex2 items1] Hl. inversion H; subst.
    apply readSlice_typed in Hl as (new & -> & Hnew). split; [reflexivity|].
    rewrite !well_typed_VSlice, forallb_app. intros ->. now rewrite Hnew.
  - bind_inv H as [lex2 fields1] Hl. inversion H; subst.
    apply readStruct_typed in Hl. now apply Forall2_field_keeps.
  - bind_inv H as y Hset. bind_inv H as [lex2 m1] Hl. inversion H; subst.
    apply readMap_typed in Hl; [|reflexivity].
    split; [reflexivity|]. intros _. now rewrite well_typed_VMap.
  - bind_inv H as typ Htyp. bind_inv H as [lex2 y] Hrd. bind_inv H as z Hset.
    injection H as <- <-. apply asType_rec_described in Htyp.
    pose proof (described_not_interface _ Htyp) as Hni.
    apply rd_fresh in Hrd. unfold elem_ok in Hrd.
    apply andb_prop in Hrd as [Hty Hwy]. apply rtype_eqb_eq in Hty.
    destruct ro; [discriminate|]. cbn [Value_Set mustBeAssignable bind] in Hset.
    assert (Hz : z = VInterface (Some y)).
    { destruct y; try (now inversion Hset).
      cbn [TypeOf] in Hty. subst typ. discriminate. }
    subst z. split; [reflexivity|]. intros _. cbn [well_typed].
    now rewrite Hty, Hni, Hwy.
Qed.

End TypedLoops.

Lemma readAtom_typed (tok : Z) (txt : string) (ro : bool) (v x : value) :
  readAtom tok txt (Var ro v) = Ok x -> keeps_type v x.
Proof.
  unfold readAtom. destruct ro.
  { repeat match goal with
           | |- context [if ?b then _ else _] => destruct b
           end; discriminate. }
  repeat match goal with
         | |- context [if ?b then _ else _] => destruct b
         end; try discriminate.
  - cbn [Value_Type bind]. rewrite Value_Set_Zero. intros H. inversion H.
    split; [apply TypeOf_Zero|]. intros _. apply well_typed_Zero.
  - destruct v; cbn; intros H; inversion H; now split.
  - destruct v; cbn; intros H; inversion H; now split.
  - destruct v; cbn; intros H; inversion H; now split.
  - destruct v; cbn; intros H; inversion H; now split.
Qed.

Lemma read_typed (fuel : nat) :
  forall lex0 ro v lex1 x,
    read fuel lex0 (Var ro v) = Ok (lex1, x) -> keeps_type v x.
Proof.
  induction fuel as [|fuel IH]; intros lex0 ro v lex1 x H; [discriminate|].
  rewrite read_unfold in H. destruct (token lex0 =? LParen).
  - bind_inv H as [lex2 y] Hl. inversion H; subst.
    eapply readList_typed; [exact IH| |exact Hl].
    intros. apply read_ZeroValue.
  - bind_inv H as y Hy. inversion H; subst. eapply readAtom_typed; eauto.
Qed.

Lemma read_interface (fuel : nat) (lex0 lex1 : lexer) (ro : bool)
      (old : option value) (x : value) :
  read fuel lex0 (Var ro (VInterface old)) = Ok (lex1, x) ->
  x = VInterface None
  \/ exists t y,
       token lex0 = LParen
       /\ asType (strconv.Unquote (text (next lex0))) = Ok t
       /\ x = VInterface (Some y) /\ TypeOf y = t /\ well_typed y = true.
Proof.
  intros H. destruct fuel as [|fuel]; [discriminate|].
  rewrite read_unfold in H. destruct (token lex0 =? LParen) eqn:E.
  - right. apply Z.eqb_eq in E. bind_inv H as [lex2 z] Hl.
    inversion H; subst z. clear H. cbn [readList] in Hl.
    bind_inv Hl as typ Htyp. bind_inv Hl as [lex3 y] Hrd.
    bind_inv Hl as w Hset. inversion Hl; subst w. clear Hl.
    pose proof (asType_rec_described _ _ _ Htyp) as Hd.
    apply read_typed in Hrd as [Hty Hwy].
    rewrite TypeOf_Zero in Hty. specialize (Hwy (well_typed_Zero typ)).
    destruct ro; [discriminate|]. cbn [Value_Set mustBeAssignable bind] in Hset.
    exists typ, y. repeat split; try assumption.
    destruct y; try (now inversion Hset).
    cbn [TypeOf] in Hty. subst typ. discriminate.
  - left. bind_inv H as y Hy. inversion H; subst y. clear H.
    unfold readAtom in Hy. destruct ro.
    { repeat match type of Hy with
             | context [if ?b then _ else _] => destruct b
             end; discriminate. }
    repeat match type of Hy with
           | context [if ?b then _ else _] => destruct b
           end; try discriminate.
    cbn in Hy. now inversion Hy.
Qed.

(** X11. A successful [Unmarshal] leaves in the destination a value of the
    type the destination had: the same kind, the same array length, the
    same field names and field types, the same element and key types.
    When the destination held a well-typed value, so does it afterwards:
    the elements appended to a slice have its element type, the entries
    put in a map have its key and element types, and the dynamic value of
    an interface is not an interface.  When the destination is itself an
    interface variable, what it holds afterwards is nil (the input was
    [nil]) or a well-typed value of exactly the type [asType] returns for
    the descriptor, the second token of the input. *)
Theorem Unmarshal_keeps_type (data : list scanner.lexeme) (out x : value) :
  Unmarshal data out = Ok x ->
  TypeOf x = TypeOf out
  /\ (well_typed out = true -> well_typed x = true)
  /\ (forall old : option value,
        out = VInterface old ->
        x = VInterface None
        \/ exists l0 l rest t y,
             data = l0 :: l :: rest /\ scanner.tok l0 = LParen
             /\ asType (strconv.Unquote (scanner.lit l)) = Ok t
             /\ x = VInterface (Some y) /\ TypeOf y = t /\ well_typed y = true).
Proof.
  rewrite Unmarshal_read. intros H. bind_inv H as [lex1 y] Hrd.
  inversion H; subst y. clear H.
  destruct (read_typed _ _ _ _ _ _ Hrd) as [Hty Hwt].
  repeat split; try assumption.
  intros old ->.
  apply read_interface in Hrd as [->|(t & y & Htok & Htyp & -> & Hy & Hwy)];
    [now left|right].
  destruct data as [|l0 [|l rest]]; try discriminate.
  exists l0, l, rest, t, y. rewrite token_lexer_at in Htok.
  rewrite next_lexer_at, text_lexer_at in Htyp. now repeat split.
Qed.

Lemma Unmarshal_keeps_type_witness :
  TypeOf (VInterface (Some (VSlice TInt [VInt 1; VInt 2; VInt 3]))) =
  TypeOf (VInterface None)
  /\ (well_typed (VInterface None) = true ->
      well_typed (VInterface (Some (VSlice TInt [VInt 1; VInt 2; VInt 3]))) = true)
  /\ (forall old : option value,
        VInterface None = VInterface old ->
        VInterface (Some (VSlice TInt [VInt 1; VInt 2; VInt 3])) = VInterface None
        \/ exists l0 l rest t y,
             [LP; tString "[]int"; LP; tInt "1"; tInt "2"; tInt "3"; RP; RP] =
             l0 :: l :: rest /\ scanner.tok l0 = LParen
             /\ asType (strconv.Unquote (scanner.lit l)) = Ok t
             /\ VInterface (Some (VSlice TInt [VInt 1; VInt 2; VInt 3])) =
                VInterface (Some y)
             /\ TypeOf y = t /\ well_typed y = true).
Proof.
  apply (Unmarshal_keeps_type
           [LP; tString "[]int"; LP; tInt "1"; tInt "2"; tInt "3"; RP; RP]).
  reflexivity.
Defined.

(** ** What [Unmarshal] reads of its input *)

Lemma close_prefix :
  forall (toks : list scanner.lexeme) (d : nat) (rest : list scanner.lexeme),
    close d toks = Some rest ->
    exists u, toks = (u ++ rest)%list /\ close d u = Some [].
Proof.
  induction toks as [|l toks IH]; intros d rest H; [discriminate|].
  cbn [close] in H.
  destruct (scanner.tok l =? LParen) eqn:E1.
  - apply IH in H as (u & -> & Hu). exists (l :: u). split; [reflexivity|].
    cbn [close]. now rewrite E1.
  - destruct (scanner.tok l =? RParen) eqn:E2.
    + destruct d as [|d].
      * inversion H; subst. exists [l]. split; [reflexivity|].
        cbn [close]. now rewrite E1, E2.
      * apply IH in H as (u & -> & Hu). exists (l :: u). split; [reflexivity|].
        cbn [close]. now rewrite E1, E2.
    + apply IH in H as (u & -> & Hu). exists (l :: u). split; [reflexivity|].
      cbn [close]. now rewrite E1, E2.
Qed.

Lemma skip_prefix (toks rest : list scanner.lexeme) :
  skip toks = Some rest ->
  exists u, toks = (u ++ rest)%list /\ skip u = Some [].
Proof.
  destruct toks as [|l toks]; [discriminate|]. cbn [skip].
  destruct (scanner.tok l =? LParen) eqn:E1.
  - intros H. apply close_prefix in H as (u & -> & Hu).
    exists (l :: u). split; [reflexivity|]. cbn [skip]. now rewrite E1.
  - destruct (scanner.tok l =? RParen) eqn:E2; [discriminate|].
    intros H. inversion H; subst. exists [l]. split; [reflexivity|].
    cbn [skip]. now rewrite E1, E2.
Qed.

(** X12. Into a destination without a dynamic slot, a successful [Unmarshal]
    has read exactly the first s-expression of the input, and nothing of
    the rest: with any other tokens after that s-expression, or none, the
    result is the same.  Trailing input is neither decoded nor
    reported. *)
Theorem Unmarshal_reads_first_sexp
        (data : list scanner.lexeme) (out x : value) :
  static out = true ->
  Unmarshal data out = Ok x ->
  exists e rest,
    data = (e ++ rest)%list /\ is_sexp e = true
    /\ forall rest', Unmarshal (e ++ rest')%list out = Ok x.
Proof.
  intros Hst H. rewrite Unmarshal_read in H. bind_inv H as [lex1 y] Hrd.
  inversion H; subst y. clear H.
  apply (read_exact _ _ (Var false out) _ _ Hst) in Hrd
    as (u & rest & Happ & Hu & Hskip & _ & _ & Hframe).
  exists u, rest. repeat split; [assumption| |].
  - destruct (skip_prefix _ _ Hskip) as (u' & Happ' & Hu').
    rewrite Happ in Happ'. apply app_inv_tail in Happ'. subst u'.
    unfold is_sexp. now rewrite Hu'.
  - intros rest'. exact (read_Unmarshal _ _ _ _ _ (Hframe rest')).
Qed.

Lemma Unmarshal_reads_first_sexp_witness :
  exists e rest,
    [LP; tInt "1"; tInt "2"; RP; tString "x"; RP] = (e ++ rest)%list
    /\ is_sexp e = true
    /\ forall rest', Unmarshal (e ++ rest')%list (VSlice TInt []) =
                     Ok (VSlice TInt [VInt 1; VInt 2]).
Proof.
  apply (Unmarshal_reads_first_sexp
           [LP; tInt "1"; tInt "2"; RP; tString "x"; RP] (VSlice TInt []));
    reflexivity.
Defined.

(** ** Unexported fields *)





Section ReadOnlyLoops.

Variable rd : lexer -> Value -> result (lexer * value).

Hypothesis rd_read_only :
  forall lex0 v lex1 x, rd lex0 (Var true v) = Ok (lex1, x) -> x = v.

Hypothesis rd_zero : forall lex0 lex1 x, rd lex0 ZeroValue <> Ok (lex1, x).






End ReadOnlyLoops.




(** ** Unsigned integers *)

(** X14. No input decodes a number into a [uint] variable: an Int token is
    stored with [SetInt], which panics on a value of kind [Uint].  The only
    input that decodes is the identifier [nil], which stores 0. *)
Theorem uint_only_nil (data : list scanner.lexeme) (u : Z) (x : value) :
  Unmarshal data (VUint u) = Ok x ->
  x = VUint 0
  /\ exists l rest, data = l :: rest /\ scanner.tok l = scanner.Ident
                    /\ scanner.lit l = "nil".
Proof.
  rewrite Unmarshal_read. intros H. bind_inv H as [lex1 y] Hrd.
  inversion H; subst y. clear H. rewrite read_unfold in Hrd.
  destruct (token (lexer_at data) =? LParen); [discriminate|].
  bind_inv Hrd as y Hy. inversion Hrd; subst y. clear Hrd.
  unfold readAtom in Hy.
  destruct (token (lexer_at data) =? scanner.Ident) eqn:Etok.
  - destruct (text (lexer_at data) =? "nil")%string eqn:Etxt.
    + cbn in Hy. inversion Hy. split; [reflexivity|].
      destruct data as [|l rest]; [discriminate|].
      rewrite token_lexer_at in Etok. rewrite text_lexer_at in Etxt.
      apply Z.eqb_eq in Etok. apply String.eqb_eq in Etxt. now exists l, rest.
    + destruct (text (lexer_at data) =? "t")%string; discriminate.
  - repeat match type of Hy with
           | context [if ?b then _ else _] => destruct b
           end; discriminate.
Qed.

Lemma uint_only_nil_witness :
  VUint 0 = VUint 0
  /\ exists l rest, [tIdent "nil"] = l :: rest /\ scanner.tok l = scanner.Ident
                    /\ scanner.lit l = "nil".
Proof. apply (uint_only_nil [tIdent "nil"] 5). reflexivity. Defined.

(** ** Maps *)

(** X15. What a map variable holds before the call has no effect on the call:
    the list case replaces the map with a new empty one before it reads
    the entries (where a slice keeps its elements), and the atom cases do
    not look at the entries. *)
Theorem map_discards_prior
        (data : list scanner.lexeme) (key elem : rtype)
        (m m' : option (list (value * value))) :
  Unmarshal data (VMap key elem m) = Unmarshal data (VMap key elem m').
Proof.
  rewrite !Unmarshal_read, !read_unfold.
  destruct (token (lexer_at data) =? LParen); [reflexivity|].
  unfold readAtom.
  repeat match goal with
         | |- context [if ?b then _ else _] => destruct b
         end; reflexivity.
Qed.

(** ** Fields the input does not name *)




(** ** Arrays and slices are decoded element by element *)

Lemma Unmarshal_frame (e : list scanner.lexeme) (v x : value) (fuel : nat)
      (rest : list scanner.lexeme) :
  static v = true -> is_sexp e = true ->
  Unmarshal e v = Ok x ->
  (List.length (e ++ rest) < fuel)%nat ->
  read fuel (lexer_at (e ++ rest)) (Var false v) = Ok (lexer_at rest, x).
Proof.
  intros Hv He H Hf. rewrite Unmarshal_read in H. bind_inv H as [lex1 y] Hrd.
  inversion H; subst y. clear H.
  rewrite <- (app_nil_r e) in Hrd at 2.
  apply read_sexp in Hrd as (_ & _ & Hframe); [|assumption|assumption].
  apply (read_Ok_fuel (S (List.length e))); [|apply Hframe].
  pose proof (remaining_lexer_at (e ++ rest)). lia.
Qed.

Lemma read_frame_Unmarshal (e : list scanner.lexeme) (v x : value) (fuel : nat)
      (rest : list scanner.lexeme) (lex1 : lexer) :
  static v = true -> is_sexp e = true ->
  read fuel (lexer_at (e ++ rest)) (Var false v) = Ok (lex1, x) ->
  lex1 = lexer_at rest /\ static x = true /\ Unmarshal e v = Ok x.
Proof.
  intros Hv He H.
  apply read_sexp in H as (-> & Hx & Hframe); [|assumption|assumption].
  repeat split; [assumption|].
  specialize (Hframe []). rewrite app_nil_r in Hframe.
  exact (read_Unmarshal _ _ _ _ _ Hframe).
Qed.

Lemma Unmarshal_Ok_not_end (e rest : list scanner.lexeme) (v x : value) :
  is_sexp e = true -> Unmarshal e v = Ok x ->
  endList (lexer_at (e ++ rest)) = Ok false.
Proof.
  intros He H. apply is_sexp_head in He as (l & e' & -> & Hl).
  cbn [app]. rewrite endList_at, Hl.
  destruct (scanner.tok l =? scanner.EOF) eqn:E; [|reflexivity].
  exfalso. apply Z.eqb_eq in E. rewrite Unmarshal_read, read_unfold in H.
  rewrite token_lexer_at, text_lexer_at, E in H. discriminate.
Qed.

Lemma sexps_length_ge (es : list (list scanner.lexeme)) :
  forallb is_sexp es = true ->
  (List.length es <= List.length (List.concat es))%nat.
Proof.
  induction es as [|e es IH]; intros H; [cbn; lia|].
  cbn [forallb] in H. apply andb_prop in H as [He Hes].
  apply is_sexp_head in He as (l & e' & -> & _).
  cbn [List.concat List.length app]. rewrite length_app. specialize (IH Hes). lia.
Qed.


Section Elementwise.

Variable fuel : nat.
Variable r : scanner.lexeme.
Variable rest : list scanner.lexeme.
Hypothesis r_closes : scanner.tok r = RParen.

Lemma readSlice_each (elem : rtype) :
  static_type elem = true ->
  forall (es : list (list scanner.lexeme)) (n : nat) (items : list value)
         (lex1 : lexer) (items1 : list value),
    forallb is_sexp es = true ->
    readSlice (read fuel) n false elem
              (lexer_at (List.concat es ++ r :: rest)) items = Ok (lex1, items1) ->
    exists xs, items1 = (items ++ xs)%list
               /\ decode_each es (repeat (Zero elem) (List.length es)) xs.
Proof.
  intros Hel.
  induction es as [|e es IH]; intros n items lex1 items1 Hes H;
    (destruct n as [|n]; [discriminate|]).
  - cbn [List.concat app readSlice] in H.
    rewrite endList_at_RParen in H by assumption. cbn [bind] in H.
    inversion H; subst. exists []. now rewrite app_nil_r.
  - cbn [forallb] in Hes. apply andb_prop in Hes as [He Hes].
    cbn [List.concat] in H. rewrite <- app_assoc in H.
    cbn [readSlice] in H. bind_inv H as stop Hs. destruct stop.
    { now apply sexp_not_end in Hs. }
    bind_inv H as [lex2 x] Hrd. bind_inv H as items2 Happ.
    inversion Happ; subst items2.
    apply read_frame_Unmarshal in Hrd as (-> & Hx & Hun);
      [|now apply Zero_static|assumption].
    apply IH in H as (xs & -> & Hxs); [|assumption].
    exists (x :: xs). rewrite <- app_assoc. split; [reflexivity|].
    cbn [List.length repeat decode_each]. now split.
Qed.

Lemma each_readSlice (elem : rtype) :
  static_type elem = true ->
  forall (es : list (list scanner.lexeme)) (n : nat) (items xs : list value),
    forallb is_sexp es = true ->
    (List.length (List.concat es ++ r :: rest) < fuel)%nat ->
    (List.length es < n)%nat ->
    decode_each es (repeat (Zero elem) (List.length es)) xs ->
    readSlice (read fuel) n false elem
              (lexer_at (List.concat es ++ r :: rest)) items =
    Ok (lexer_at (r :: rest), (items ++ xs)%list).
Proof.
  intros Hel.
  induction es as [|e es IH]; intros n items xs Hes Hf Hn H;
    (destruct n as [|n]; [cbn [List.length] in Hn; lia|]).
  - destruct xs; [|contradiction]. cbn [List.concat app readSlice].
    rewrite endList_at_RParen by assumption. cbn [bind]. now rewrite app_nil_r.
  - cbn [forallb] in Hes. apply andb_prop in Hes as [He Hes].
    cbn [List.length repeat decode_each] in H.
    destruct xs as [|x xs]; [contradiction|]. destruct H as [Hx Hxs].
    cbn [List.concat] in *. rewrite <- app_assoc in *. cbn [readSlice].
    rewrite (Unmarshal_Ok_not_end _ _ _ _ He Hx). cbn [bind].
    rewrite (Unmarshal_frame _ _ _ _ _ (Zero_static _ Hel) He Hx Hf).
    cbn [bind Append].
    rewrite IH with (xs := xs); try assumption.
    + now rewrite <- app_assoc.
    + rewrite length_app in Hf. lia.
    + cbn [List.length] in Hn. lia.
Qed.



End Elementwise.

(** X17. Decoding a list of s-expressions into a slice succeeds exactly when
    each of them decodes into a fresh zero value of the element type; the
    result is the prior elements followed by the decoded ones, in the order
    of the input.  (Slices without dynamic slots.) *)
Theorem slice_elementwise
        (elem : rtype) (old : list value) (es : list (list scanner.lexeme))
        (rest : list scanner.lexeme) (x : value) :
  static (VSlice elem old) = true ->
  forallb is_sexp es = true ->
  Unmarshal (LP :: List.concat es ++ RP :: rest) (VSlice elem old) = Ok x <->
  exists xs, x = VSlice elem (old ++ xs)%list
             /\ decode_each es (repeat (Zero elem) (List.length es)) xs.
Proof.
  intros Hel Hes. cbn [static] in Hel.
  rewrite Unmarshal_read. cbn [List.length].
  rewrite read_LParen by reflexivity. cbn [readList]. split.
  - intros H. bind_inv H as [lex1 y] H1. bind_inv H1 as [lex2 z] H2.
    bind_inv H2 as [lex3 items1] H3.
    inversion H2; subst. inversion H1; subst. inversion H; subst.
    apply readSlice_each in H3 as (xs & -> & Hxs);
      [|reflexivity|assumption|assumption].
    now exists xs.
  - intros (xs & -> & Hxs).
    rewrite (each_readSlice _ RP rest eq_refl elem Hel es _ old xs);
      try assumption; [reflexivity|lia|].
    pose proof (sexps_length_ge es Hes). rewrite length_app. lia.
Qed.

Lemma slice_elementwise_witness :
  Unmarshal (LP :: List.concat [[LP; tInt "1"; RP]; [LP; RP]] ++ RP :: [])
            (VSlice (TSlice TInt) [VSlice TInt []]) =
  Ok (VSlice (TSlice TInt) [VSlice TInt []; VSlice TInt [VInt 1]; VSlice TInt []])
  <->
  exists xs,
    VSlice (TSlice TInt) [VSlice TInt []; VSlice TInt [VInt 1]; VSlice TInt []] =
    VSlice (TSlice TInt) ([VSlice TInt []] ++ xs)%list
    /\ decode_each [[LP; tInt "1"; RP]; [LP; RP]]
                   (repeat (Zero (TSlice TInt)) 2) xs.
Proof.
  apply (slice_elementwise (TSlice TInt) [VSlice TInt []]
           [[LP; tInt "1"; RP]; [LP; RP]] []); reflexivity.
Defined.



(** ** Maps are decoded entry by entry *)

Lemma pairs_length_ge (ps : list (list scanner.lexeme * list scanner.lexeme)) :
  (List.length ps <= List.length (List.concat (map pair_tokens ps)))%nat.
Proof.
  induction ps as [|p ps IH]; cbn [map List.concat List.length]; [lia|].
  rewrite length_app. unfold pair_tokens at 1. cbn [List.length]. lia.
Qed.

Section Entrywise.

Variable fuel : nat.
Variable r : scanner.lexeme.
Variable rest : list scanner.lexeme.
Hypothesis r_closes : scanner.tok r = RParen.
Variables key elem : rtype.
Hypothesis key_static : static_type key = true.
Hypothesis elem_static : static_type elem = true.

Lemma readMap_each :
  forall (ps : list (list scanner.lexeme * list scanner.lexeme)) (n : nat)
         (m : list (value * value)) (lex1 : lexer) (m1 : list (value * value)),
    forallb (fun p => is_sexp (fst p) && is_sexp (snd p)) ps = true ->
    readMap (read fuel) n key elem
            (lexer_at (List.concat (map pair_tokens ps) ++ r :: rest)) m =
    Ok (lex1, m1) ->
    exists kvs,
      m1 = store_all kvs m
      /\ decode_each (map fst ps) (repeat (Zero key) (List.length ps)) (map fst kvs)
      /\ decode_each (map snd ps) (repeat (Zero elem) (List.length ps)) (map snd kvs)
      /\ forallb (fun kv => hashable (fst kv)) kvs = true.
Proof.
  induction ps as [|[ke ve] ps IH]; intros n m lex1 m1 Hps H;
    (destruct n as [|n]; [discriminate|]).
  - cbn [map List.concat app readMap] in H.
    rewrite endList_at_RParen in H by assumption. cbn [bind] in H.
    inversion H; subst. now exists [].
  - cbn [forallb fst snd] in Hps. apply andb_prop in Hps as [Hp Hps].
    apply andb_prop in Hp as [Hke Hve].
    cbn [map List.concat] in H. unfold pair_tokens at 1 in H.
    cbn [fst snd] in H. norm_app_in H.
    cbn [readMap] in H.
    change (endList (lexer_at (LP :: ?t))) with (@Ok bool false) in H.
    cbn [bind] in H. rewrite consume_head in H by reflexivity. cbn [bind] in H.
    bind_inv H as [lex2 k] Hk.
    apply read_frame_Unmarshal in Hk as (-> & _ & Hk);
      [|now apply Zero_static|assumption].
    bind_inv H as [lex3 e] He.
    apply read_frame_Unmarshal in He as (-> & _ & He);
      [|now apply Zero_static|assumption].
    bind_inv H as m2 Hset. unfold SetMapIndex in Hset.
    destruct (hashable k) eqn:Hh; [|discriminate]. inversion Hset; subst m2.
    rewrite consume_head in H by reflexivity. cbn [bind] in H.
    apply IH in H as (kvs & -> & Hks & Hes & Hhs); [|assumption].
    exists ((k, e) :: kvs). cbn [map fst snd List.length repeat decode_each forallb].
    rewrite Hh, Hhs. repeat split; assumption.
Qed.

Lemma each_readMap :
  forall (ps : list (list scanner.lexeme * list scanner.lexeme)) (n : nat)
         (m kvs : list (value * value)),
    forallb (fun p => is_sexp (fst p) && is_sexp (snd p)) ps = true ->
    (List.length (List.concat (map pair_tokens ps) ++ r :: rest) < fuel)%nat ->
    (List.length ps < n)%nat ->
    decode_each (map fst ps) (repeat (Zero key) (List.length ps)) (map fst kvs) ->
    decode_each (map snd ps) (repeat (Zero elem) (List.length ps)) (map snd kvs) ->
    forallb (fun kv => hashable (fst kv)) kvs = true ->
    readMap (read fuel) n key elem
            (lexer_at (List.concat (map pair_tokens ps) ++ r :: rest)) m =
    Ok (lexer_at (r :: rest), store_all kvs m).
Proof.
  induction ps as [|[ke ve] ps IH]; intros n m kvs Hps Hf Hn Hks Hes Hhs;
    (destruct n as [|n]; [cbn [List.length] in Hn; lia|]).
  - destruct kvs; [|contradiction]. cbn [map List.concat app readMap].
    now rewrite endList_at_RParen by assumption.
  - cbn [forallb fst snd] in Hps. apply andb_prop in Hps as [Hp Hps].
    apply andb_prop in Hp as [Hke Hve].
    destruct kvs as [|[k e] kvs]; [contradiction|].
    cbn [map fst snd List.length repeat decode_each forallb] in Hks, Hes, Hhs.
    destruct Hks as [Hk Hks]. destruct Hes as [He Hes].
    apply andb_prop in Hhs as [Hh Hhs].
    cbn [map List.concat] in *. unfold pair_tokens at 1 in Hf. unfold pair_tokens at 1.
    cbn [fst snd] in *. norm_app_in Hf. norm_app.
    cbn [List.length] in Hf. rewrite !length_app in Hf. cbn [List.length] in Hf.
    cbn [readMap].
    change (endList (lexer_at (LP :: ?t))) with (@Ok bool false).
    cbn [bind]. rewrite consume_head by reflexivity. cbn [bind].
    rewrite (Unmarshal_frame _ _ _ _ _ (Zero_static _ key_static) Hke Hk)
      by (rewrite !length_app; cbn [List.length]; lia).
    cbn [bind].
    rewrite (Unmarshal_frame _ _ _ _ _ (Zero_static _ elem_static) Hve He)
      by (rewrite !length_app; cbn [List.length]; lia).
    cbn [bind]. unfold SetMapIndex. rewrite Hh. cbn [bind].
    rewrite consume_head by reflexivity. cbn [bind].
    rewrite IH with (kvs := kvs); try assumption.
    + reflexivity.
    + lia.
    + cbn [List.length] in Hn. lia.
Qed.

End Entrywise.

(** X19. Decoding a list of entries [((k1 v1) ... (kn vn))] into a map succeeds
    exactly when every key decodes into a fresh zero value of the key type,
    every value into one of the element type, and every decoded key can be
    hashed; the result is the new map with the pairs stored in the order
    of the input, so that of two entries with the same key the later one
    gives the value.  (Maps without dynamic slots whose key type holds no
    float64: whether two float64 keys are the same key is not modelled.) *)
Theorem map_entrywise
        (key elem : rtype) (m : option (list (value * value)))
        (ps : list (list scanner.lexeme * list scanner.lexeme))
        (rest : list scanner.lexeme) (x : value) :
  static (VMap key elem m) = true ->
  float_free key = true ->
  forallb (fun p => is_sexp (fst p) && is_sexp (snd p)) ps = true ->
  Unmarshal (LP :: List.concat (map pair_tokens ps) ++ RP :: rest)
            (VMap key elem m) = Ok x <->
  exists kvs,
    x = VMap key elem (Some (store_all kvs []))
    /\ decode_each (map fst ps) (repeat (Zero key) (List.length ps)) (map fst kvs)
    /\ decode_each (map snd ps) (repeat (Zero elem) (List.length ps)) (map snd kvs)
    /\ forallb (fun kv => hashable (fst kv)) kvs = true.
Proof.
  intros Hst _ Hps. cbn [static] in Hst. apply andb_prop in Hst as [Hkey Helem].
  rewrite Unmarshal_read. cbn [List.length].
  rewrite read_LParen by reflexivity. cbn [readList].
  split.
  - intros H. bind_inv H as [lex1 y] H1. bind_inv H1 as [lex2 z] H2.
    bind_inv H2 as w Hw. bind_inv H2 as [lex3 m1] H3.
    inversion H2; subst. inversion H1; subst. inversion H; subst.
    apply readMap_each in H3 as (kvs & -> & Hks & Hes & Hhs);
      try assumption; [|reflexivity].
    now exists kvs.
  - intros (kvs & -> & Hks & Hes & Hhs).
    assert (Hw : exists w, Value_Set (Var false (VMap key elem m)) (MakeMap key elem)
                           = Ok w).
    { unfold MakeMap. cbn. eauto. }
    destruct Hw as [w Hw]. rewrite Hw. cbn [bind].
    rewrite (each_readMap _ RP rest eq_refl key elem Hkey Helem ps _ [] kvs);
      try assumption; [reflexivity| |].
    + lia.
    + pose proof (pairs_length_ge ps). rewrite length_app. lia.
Qed.

Lemma map_entrywise_witness :
  Unmarshal (LP :: List.concat (map pair_tokens
                                   [([tString "a"], [tInt "1"]);
                                    ([tString "b"], [tInt "2"]);
                                    ([tString "a"], [tInt "3"])]) ++ RP :: [])
            (VMap TString TInt None) =
  Ok (VMap TString TInt (Some [(VString "a", VInt 3); (VString "b", VInt 2)]))
  <->
  exists kvs,
    VMap TString TInt (Some [(VString "a", VInt 3); (VString "b", VInt 2)]) =
    VMap TString TInt (Some (store_all kvs []))
    /\ decode_each (map fst [([tString "a"], [tInt "1"]);
                             ([tString "b"], [tInt "2"]);
                             ([tString "a"], [tInt "3"])])
                   (repeat (Zero TString) 3) (map fst kvs)
    /\ decode_each (map snd [([tString "a"], [tInt "1"]);
                             ([tString "b"], [tInt "2"]);
                             ([tString "a"], [tInt "3"])])
                   (repeat (Zero TInt) 3) (map snd kvs)
    /\ forallb (fun kv => hashable (fst kv)) kvs = true.
Proof.
  apply (map_entrywise TString TInt None
           [([tString "a"], [tInt "1"]); ([tString "b"], [tInt "2"]);
            ([tString "a"], [tInt "3"])] []); reflexivity.
Defined.

(** ** Termination *)

(** X20. The recursion and the loops of the decoder end on every input and
    every destination: each call of [read] and each iteration of a list
    loop passes at least one token, so a recursion bound above the number
    of tokens is never reached, and every such bound gives the outcome of
    [Unmarshal].  (This is about the control flow of the decoder; whether
    the memory for what it builds is there is outside this model.) *)
Theorem decoding_ends (data : list scanner.lexeme) (out : value) (fuel : nat) :
  (List.length data < fuel)%nat ->
  read fuel (lexer_at data) (Var false out) <> OutOfFuel
  /\ returned (read fuel (lexer_at data) (Var false out)) = Unmarshal data out.
Proof.
  intros Hf. split.
  - apply read_progress_total. pose proof (remaining_lexer_at data). lia.
  - rewrite <- (Unmarshal_fuel data out fuel Hf).
    unfold returned. destruct (read fuel _ _) as [[lex1 x]| |]; reflexivity.
Qed.

Lemma decoding_ends_witness :
  read 9 (lexer_at [LP; tInt "1"; RP]) (Var false (VSlice TInt [])) <> OutOfFuel
  /\ returned (read 9 (lexer_at [LP; tInt "1"; RP]) (Var false (VSlice TInt []))) =
     Unmarshal [LP; tInt "1"; RP] (VSlice TInt []).
Proof.
  apply (decoding_ends [LP; tInt "1"; RP] (VSlice TInt []) 9%nat).
  simpl. lia.
Defined.
